(** * Milvus2 indexer and retriever adapters: a shallow embedding

    The Go packages [components/indexer/milvus2],
    [components/retriever/milvus2] and its [search_mode] sub-package are
    embedded as Rocq functions.  Conventions:

    - a Go function returning [(T, error)] becomes a function into
      [result T]; a nil-able pointer or interface field that the code tests
      against [nil] becomes an [option]; the elements of a slice of pointers
      ([Functions], [SubRequests], the documents) are the structs pointed to;
    - a struct mutated through its pointer receiver (the two [validate]
      methods) returns the updated struct;
    - [string]-based Go types ([MetricType], [SparseMethod]) are strings, Go
      [int] is [Z] (the one narrowing conversion, [uint32(idx)], is written
      out), [map[K]V] is stdpp's [gmap];
    - [float64] and [float32] are IEEE-754 values of [SpecFloat]; the Go
      conversion [float32(v)] rounds to binary32, [float64(v)] is exact;
    - the Milvus SDK, the JSON codec and the embedding model are outside the
      repository: the client's operations and the codec are type classes,
      for any backend and any codec, and a call on the backend takes the
      state of the world and returns its result with the world after it. *)

From Stdlib Require Import Floats.SpecFloat.
From stdpp Require Import gmap strings list sorting pretty.

Local Open Scope string_scope.
Local Open Scope list_scope.
Local Open Scope Z_scope.

(** ** Go errors and results *)

(** [errorString] is an error made by [fmt.Errorf] without [%w] (or by
    [errors.New]); [wrapError] is [fmt.Errorf("...: %w", err)]; [io_EOF] is
    the sentinel [io.EOF].  [runtimePanic] stands for a run-time panic (a
    call through a nil function value, [make] with a negative capacity): no
    caller of the adapters recovers from it, so it travels like an error. *)
Inductive error : Type :=
| errorString (msg : string)
| wrapError (msg : string) (cause : error)
| io_EOF
| runtimePanic (msg : string).

(** [errors.Is(err, io.EOF)]: follows the chain of wrapped causes. *)
Fixpoint errors_Is_EOF (err : error) : bool :=
  match err with
  | io_EOF => true
  | wrapError _ cause => errors_Is_EOF cause
  | errorString _ | runtimePanic _ => false
  end.

Inductive result (A : Type) : Type :=
| Ok (a : A)
| Err (e : error).
Arguments Ok {A} a.
Arguments Err {A} e.

Definition is_Ok {A} (r : result A) : bool :=
  match r with Ok _ => true | Err _ => false end.

Definition is_Err {A} (r : result A) : bool := negb (is_Ok r).

#[global] Instance result_bind : MBind result :=
  fun A B k r => match r with Ok a => k a | Err e => Err e end.

#[global] Instance result_ret : MRet result := fun A a => Ok a.

#[global] Instance result_fmap : FMap result :=
  fun A B f r => match r with Ok a => Ok (f a) | Err e => Err e end.

(** ** Floating point *)

Definition float64 : Type := spec_float.
Definition float32 : Type := spec_float.

(** Go's [float32(v)] for [v : float64]: round to nearest even at 24 bits of
    precision, overflowing to an infinity. *)
Definition to_float32 (v : float64) : float32 :=
  match v with
  | S754_finite s m e => binary_round 24 128 s m e
  | _ => v
  end.

(** Go's [float64(v)] for [v : float32]: every binary32 value is a binary64
    value. *)
Definition to_float64 (v : float32) : float64 := v.

(** [make([]float32, len(src)); for i, v := range src { dst[i] = float32(v) }] *)
Definition to_float32_slice (src : list float64) : list float32 :=
  to_float32 <$> src.

(** ** Values shared by both packages *)

Definition bytes : Type := list Byte.byte.

(** Go's [any], as far as the adapters and the framework inspect it: type
    assertions to [string], to [[]byte], to [float64], to [[]float64] and
    to [map[int]float64]; any other dynamic value is [AnyOther]. *)
Inductive any : Type :=
| AnyNil
| AnyBool (b : bool)
| AnyInt (z : Z)
| AnyFloat (f : float64)
| AnyString (s : string)
| AnyBytes (b : bytes)
| AnyFloats (v : list float64)
| AnySparse (sv : gmap Z float64)
| AnyOther (repr : string).

(** [schema.Document] of the orchestration framework: the struct has the
    three fields [ID], [Content] and [MetaData].  The score and the two
    vectors of a document are entries of [MetaData], under the keys
    [_score], [_dense_vector] and [_sparse_vector]: [WithScore],
    [WithDenseVector] and [WithSparseVector] write the entry, and the
    accessors [Score()], [DenseVector()] and [SparseVector()] read it back
    with a type assertion, giving the zero value when the key is absent or
    holds a value of another type. *)
Record Document : Type := mkDocument {
  ID : string;
  Content : string;
  MetaData : gmap string any;
}.

Definition docMetaDataKeyScore : string := "_score".
Definition docMetaDataKeyDenseVector : string := "_dense_vector".
Definition docMetaDataKeySparseVector : string := "_sparse_vector".

Definition WithScore (score : float64) (d : Document) : Document :=
  mkDocument (ID d) (Content d)
             (<[docMetaDataKeyScore := AnyFloat score]> (MetaData d)).

Definition Score (d : Document) : float64 :=
  match MetaData d !! docMetaDataKeyScore with
  | Some (AnyFloat score) => score
  | _ => S754_zero false
  end.

Definition WithDenseVector (vector : list float64) (d : Document) : Document :=
  mkDocument (ID d) (Content d)
             (<[docMetaDataKeyDenseVector := AnyFloats vector]> (MetaData d)).

Definition Document_DenseVector (d : Document) : list float64 :=
  match MetaData d !! docMetaDataKeyDenseVector with
  | Some (AnyFloats vector) => vector
  | _ => []
  end.

Definition WithSparseVector (sparse : gmap Z float64) (d : Document) : Document :=
  mkDocument (ID d) (Content d)
             (<[docMetaDataKeySparseVector := AnySparse sparse]> (MetaData d)).

Definition Document_SparseVector (d : Document) : gmap Z float64 :=
  match MetaData d !! docMetaDataKeySparseVector with
  | Some (AnySparse sparse) => sparse
  | _ => ∅
  end.

(** [embedding.Embedder]: the one method [EmbedStrings]. *)
Definition Embedder : Type := list string -> result (list (list float64)).

(** Handles of the SDK. *)
Inductive Client : Type := mkClient (conn : nat).
Record ClientConfig : Type := mkClientConfig { Address : string }.

#[global] Instance Client_eq_dec : EqDecision Client.
Proof. solve_decision. Defined.

Definition MetricType : Type := string.
Definition SparseMethod : Type := string.

Inductive ConsistencyLevel : Type :=
| ConsistencyLevelDefault
| ConsistencyLevelStrong
| ConsistencyLevelSession
| ConsistencyLevelBounded
| ConsistencyLevelEventually.

#[global] Instance ConsistencyLevel_eq_dec : EqDecision ConsistencyLevel.
Proof. solve_decision. Defined.

(** Modelled from the spec: the constant declarations of the two packages
    are not among the sources.  The values are the documented defaults of the
    configuration fields ("Default: ..." in the struct comments and in the
    README tables) and the metric names checked by the tests. *)
Definition L2 : MetricType := "L2".
Definition IP : MetricType := "IP".
Definition BM25 : MetricType := "BM25".
Definition defaultCollection : string := "eino_collection".
Definition defaultDescription : string := "the collection for eino".
Definition defaultIDField : string := "id".
Definition defaultContentField : string := "content".
Definition defaultMetadataField : string := "metadata".
Definition defaultVectorField : string := "vector".
Definition defaultSparseVectorField : string := "sparse_vector".
Definition defaultTopK : Z := 5.

(** [%d] and [%q] of the [fmt] package, for the error messages. *)
Definition fmt_d (z : Z) : string := pretty z.
Definition dquote : string := String.String (Ascii.ascii_of_nat 34) "".
Definition fmt_q (s : string) : string := dquote +:+ s +:+ dquote.

(** [uint32(idx)] for a Go [int]. *)
Definition uint32 (idx : Z) : Z := idx `mod` 2 ^ 32.

(** The JSON codec [sonic]. *)
Class Sonic : Type := {
  sonic_Marshal : gmap string any -> result bytes;
  sonic_Unmarshal : bytes -> result (gmap string any);
}.

(** ** The Milvus SDK, as the adapters use it *)

(** [fmt.Errorf(msg + ": %w", err)] around a failed call; a panic is not
    an error value and passes through. *)
Definition wrapErr {A} (msg : string) (r : result A) : result A :=
  match r with
  | Ok a => Ok a
  | Err (runtimePanic m) => Err (runtimePanic m)
  | Err e => Err (wrapError msg e)
  end.

Definition isNil {A} (p : option A) : bool :=
  match p with
  | None => true
  | Some _ => false
  end.

(** [index.Index] of the SDK: the index type and the metric it is built
    for; the numeric build parameters are left out. *)
Record Index : Type := mkIndex {
  IndexType : string;
  IndexMetricType : MetricType;
}.

(** [entity.Function] of the SDK, built by [NewFunction().WithName(..)...]. *)
Inductive FunctionType : Type :=
| FunctionTypeUnknown
| FunctionTypeBM25
| FunctionTypeTextEmbedding.

Record Function : Type := mkFunction {
  Function_Name : string;
  Function_Type : FunctionType;
  InputFieldNames : list string;
  OutputFieldNames : list string;
}.

(** [entity.SparseEmbedding]: positions ([uint32]) and their values. *)
Record SparseEmbedding : Type := mkSparseEmbedding {
  positions : list Z;
  values : list float32;
}.

(** [entity.NewSliceSparseEmbedding] of the SDK: it refuses slices of
    different lengths.  The embedding is modelled by the entries the adapter
    hands over, in the adapter's order. *)
Definition NewSliceSparseEmbedding (pos : list Z) (vals : list float32)
  : result SparseEmbedding :=
  if decide (length pos = length vals) then Ok (mkSparseEmbedding pos vals)
  else Err (errorString "invalid sparse embedding input, positions shall have same number of respective flaot32 values").

(** [column.Column] values built by the converter. *)
Inductive Column : Type :=
| NewColumnVarChar (name : string) (vals : list string)
| NewColumnJSONBytes (name : string) (vals : list bytes)
| NewColumnFloatVector (name : string) (dim : Z) (vals : list (list float32))
| NewColumnSparseVectors (name : string) (vals : list SparseEmbedding).

Definition Column_Name (c : Column) : string :=
  match c with
  | NewColumnVarChar n _ | NewColumnJSONBytes n _
  | NewColumnFloatVector n _ _ | NewColumnSparseVectors n _ => n
  end.

(** [entity.Field] and [entity.Schema], as [buildSchema] fills them. *)
Inductive FieldType : Type :=
| FieldTypeVarChar
| FieldTypeJSON
| FieldTypeFloatVector
| FieldTypeSparseVector.

(** [entity.Field]: the length limit and the dimension of a field are
    entries of its [TypeParams], written by [WithMaxLength] and [WithDim]
    under the keys [max_length] and [dim] in decimal; [WithTypeParams]
    writes one entry of the same map. *)
Record Field : Type := mkField {
  Field_Name : string;
  Field_DataType : FieldType;
  Field_IsPrimaryKey : bool;
  Field_TypeParams : gmap string string;
}.

Definition TypeParamMaxLength : string := "max_length".
Definition TypeParamDim : string := "dim".

Definition WithMaxLength (maxLen : Z) (f : Field) : Field :=
  mkField (Field_Name f) (Field_DataType f) (Field_IsPrimaryKey f)
          (<[TypeParamMaxLength := fmt_d maxLen]> (Field_TypeParams f)).

Definition WithDim (dim : Z) (f : Field) : Field :=
  mkField (Field_Name f) (Field_DataType f) (Field_IsPrimaryKey f)
          (<[TypeParamDim := fmt_d dim]> (Field_TypeParams f)).

Record Schema : Type := mkSchema {
  Schema_Fields : list Field;
  Schema_EnableDynamicField : bool;
  Schema_Functions : list Function;
}.

(** [milvusclient.NewCreateCollectionOption(name, schema)], optionally
    [.WithConsistencyLevel(level)]. *)
Record CreateCollectionOption : Type := mkCreateCollectionOption {
  CreateCollection_Name : string;
  CreateCollection_Schema : Schema;
  CreateCollection_ConsistencyLevel : option ConsistencyLevel;
}.

(** [entity.LoadState.State]. *)
Inductive LoadStateCode : Type :=
| LoadStateNotExist
| LoadStateNotLoad
| LoadStateLoading
| LoadStateLoaded.

#[global] Instance LoadStateCode_eq_dec : EqDecision LoadStateCode.
Proof. solve_decision. Defined.

(** The task handles returned by [LoadCollection] and [CreateIndex]. *)
Inductive Task : Type := mkTask (id : nat).

(** Calls on the backend.  The world [W] is whatever the servers and the
    connections hold; a call returns its result and the world after it, also
    when it fails. *)
Definition IO (W A : Type) : Type := W -> result A * W.

#[global] Instance IO_bind W : MBind (IO W) :=
  fun A B k m w =>
    match m w with
    | (Ok a, w') => k a w'
    | (Err e, w') => (Err e, w')
    end.

#[global] Instance IO_ret W : MRet (IO W) := fun A a w => (Ok a, w).

Definition liftResult {W A} (r : result A) : IO W A := fun w => (r, w).

(** [if err != nil { return fmt.Errorf(msg + ": %w", err) }] after a call. *)
Definition wrapIO {W A} (msg : string) (m : IO W A) : IO W A :=
  fun w => let '(r, w') := m w in (wrapErr msg r, w').

(** A call whose error the caller inspects instead of returning it. *)
Definition tryIO {W A} (m : IO W A) : IO W (result A) :=
  fun w => let '(r, w') := m w in (Ok r, w').

(** The operations of [milvusclient] used at construction time. *)
Class Milvus (W : Type) : Type := {
  milvusclient_New : ClientConfig -> IO W Client;
  HasCollection : Client -> string -> IO W bool;
  CreateCollection : Client -> CreateCollectionOption -> IO W unit;
  GetLoadState : Client -> string -> IO W LoadStateCode;
  DescribeIndex : Client -> string -> string -> IO W unit;
  CreateIndex : Client -> string -> string -> Index -> IO W Task;
  LoadCollection : Client -> string -> IO W Task;
  Await : Task -> IO W unit;
}.

(** Modelled from the spec: the two length limits of the schema are
    constants whose declaration is not among the sources and whose value no
    document gives; they are left open. *)
Class SchemaLimits : Type := {
  defaultMaxIDLen : Z;
  defaultMaxContentLen : Z;
}.

(** [milvusclient.NewColumnBasedInsertOption(collection)], optionally
    [.WithPartition(p)], then [.WithColumns(col)] for every column; an unset
    partition is the empty string. *)
Record InsertOption : Type := mkInsertOption {
  Insert_Collection : string;
  Insert_Partition : string;
  Insert_Columns : list Column;
}.

(** The column [IDs] of a [milvusclient.UpsertResult], through the two
    methods that [Store] calls. *)
Record UpsertResult : Type := mkUpsertResult {
  IDs_Len : Z;
  IDs_GetAsString : Z -> result string;
}.

(** The write operation of [milvusclient]. *)
Class MilvusWrite (W : Type) : Type := {
  Upsert : Client -> InsertOption -> IO W UpsertResult;
}.

(** ** Package [components/indexer/milvus2] *)

Module Milvus2Indexer.

Definition SparseMethodAuto : SparseMethod := "Auto".
Definition SparseMethodPrecomputed : SparseMethod := "Precomputed".

(** The interfaces [IndexBuilder] and [SparseIndexBuilder]: the one method
    [Build]. *)
Definition IndexBuilder : Type := MetricType -> Index.
Definition SparseIndexBuilder : Type := MetricType -> Index.

Definition NewAutoIndex (mt : MetricType) : Index := mkIndex "AUTOINDEX" mt.
Definition NewSparseInvertedIndexBuilder : SparseIndexBuilder :=
  fun mt => mkIndex "SPARSE_INVERTED_INDEX" mt.

Record VectorConfig : Type := mkVectorConfig {
  Dimension : Z;
  Vector_MetricType : MetricType;
  Vector_IndexBuilder : option IndexBuilder;
  Vector_VectorField : string;
}.

Record SparseVectorConfig : Type := mkSparseVectorConfig {
  Sparse_IndexBuilder : option SparseIndexBuilder;
  Sparse_VectorField : string;
  Sparse_MetricType : MetricType;
  Method : SparseMethod;
}.

Definition Converter : Type :=
  list Document -> list (list float64) -> result (list Column).

Record IndexerConfig : Type := mkIndexerConfig {
  Client_ : option Client;
  ClientConfig_ : option ClientConfig;
  Collection : string;
  Description : string;
  PartitionName : string;
  ConsistencyLevel_ : ConsistencyLevel;
  EnableDynamicSchema : bool;
  Vector : option VectorConfig;
  Sparse : option SparseVectorConfig;
  DocumentConverter : option Converter;
  Embedding : option Embedder;
  Functions : list Function;
  FieldParams : gmap string (gmap string string);
}.

(** *** [toMilvusSparseEmbedding] *)

(** The loop over the sorted indices: it stops with an error at the first
    negative index, and otherwise narrows each index to [uint32] and each
    weight to [float32].  [sv[idx]] is the zero value for an absent key. *)
Fixpoint fillSparse (sv : gmap Z float64) (indices : list Z)
  : result (list Z * list float32) :=
  match indices with
  | [] => Ok ([], [])
  | idx :: rest =>
      if decide (idx < 0) then
        Err (errorString ("negative sparse index: " +:+ fmt_d idx))
      else
        '(us, vs) ← fillSparse sv rest;
        Ok (uint32 idx :: us,
            to_float32 (default (S754_zero false) (sv !! idx)) :: vs)
  end.

(** [keys] is the order in which [for k := range sv] yields the keys of the
    map; Go leaves it unspecified. *)
Definition toMilvusSparseEmbedding_range (keys : list Z) (sv : gmap Z float64)
  : result SparseEmbedding :=
  if decide (size sv = 0%nat) then NewSliceSparseEmbedding [] []
  else
    let indices := merge_sort Z.le keys in
    '(uint32Indices, vals) ← fillSparse sv indices;
    NewSliceSparseEmbedding uint32Indices vals.

Definition toMilvusSparseEmbedding (sv : gmap Z float64)
  : result SparseEmbedding :=
  toMilvusSparseEmbedding_range (elements (dom sv)) sv.

(** *** [defaultDocumentConverter] *)

(** The slices the converter appends to while it walks the documents. *)
Record columnData : Type := mkColumnData {
  ids : list string;
  contents : list string;
  vecs : list (list float32);
  metadatas : list bytes;
  sparseVecs : list SparseEmbedding;
}.

(** [sourceVec] of document [idx]: the embedding handed to the converter
    when there is one per document ([n] is [len(docs)]), the document's own
    dense vector otherwise. *)
Definition sourceVecOf (vectors : list (list float64)) (n idx : nat)
    (doc : Document) : list float64 :=
  if decide (length vectors = n) then default [] (vectors !! idx)
  else Document_DenseVector doc.

Section Converter.
Context {codec : Sonic}.

(** The body of [for idx, doc := range docs]; [vectors] are the embeddings
    handed to the converter and [n] is [len(docs)] of the whole call. *)
Fixpoint convertDocs (denseVectorField sparseVectorField : string)
    (vectors : list (list float64)) (n : nat)
    (idx : nat) (docs : list Document) (acc : columnData) : result columnData :=
  match docs with
  | [] => Ok acc
  | doc :: rest =>
      let sourceVec := sourceVecOf vectors n idx doc in
      vecs' ←
        (if decide (denseVectorField ≠ "") then
           if decide (length sourceVec = 0%nat) then
             Err (errorString ("vector data missing for document "
                               +:+ fmt_d (Z.of_nat idx) +:+ " (id: " +:+ ID doc +:+ ")"))
           else Ok (vecs acc ++ [to_float32_slice sourceVec])
         else Ok (vecs acc));
      sparseVecs' ←
        (if decide (sparseVectorField ≠ "") then
           se ← wrapErr ("failed to convert sparse vector for document "
                         +:+ fmt_d (Z.of_nat idx))
                        (toMilvusSparseEmbedding (Document_SparseVector doc));
           Ok (sparseVecs acc ++ [se])
         else Ok (sparseVecs acc));
      metadata ← wrapErr "failed to marshal metadata" (sonic_Marshal (MetaData doc));
      convertDocs denseVectorField sparseVectorField vectors n (S idx) rest
        (mkColumnData (ids acc ++ [ID doc]) (contents acc ++ [Content doc])
                      vecs' (metadatas acc ++ [metadata]) sparseVecs')
  end.

Definition defaultDocumentConverter (vector : option VectorConfig)
    (sparse : option SparseVectorConfig) : Converter :=
  fun docs vectors =>
    let sparseVectorField :=
      match sparse with
      | Some sp =>
          if decide (Method sp = SparseMethodPrecomputed) then Sparse_VectorField sp
          else ""
      | None => ""
      end in
    let denseVectorField :=
      match vector with
      | Some v => Vector_VectorField v
      | None => ""
      end in
    acc ← convertDocs denseVectorField sparseVectorField vectors (length docs)
                      0 docs (mkColumnData [] [] [] [] []);
    let columns :=
      [ NewColumnVarChar defaultIDField (ids acc);
        NewColumnVarChar defaultContentField (contents acc);
        NewColumnJSONBytes defaultMetadataField (metadatas acc) ] in
    let columns :=
      if decide (denseVectorField ≠ "") then
        let dim :=
          match vecs acc with
          | v :: _ => Z.of_nat (length v)
          | [] => 0
          end in
        columns ++ [NewColumnFloatVector denseVectorField dim (vecs acc)]
      else columns in
    let columns :=
      if decide (sparseVectorField ≠ "") then
        columns ++ [NewColumnSparseVectors sparseVectorField (sparseVecs acc)]
      else columns in
    Ok columns.

(** *** [IndexerConfig.validate] and [addDefaultBM25Function] *)

Definition with_Functions (fns : list Function) (c : IndexerConfig) : IndexerConfig :=
  mkIndexerConfig (Client_ c) (ClientConfig_ c) (Collection c) (Description c)
    (PartitionName c) (ConsistencyLevel_ c) (EnableDynamicSchema c) (Vector c)
    (Sparse c) (DocumentConverter c) (Embedding c) fns (FieldParams c).

Definition with_DocumentConverter (f : Converter) (c : IndexerConfig) : IndexerConfig :=
  mkIndexerConfig (Client_ c) (ClientConfig_ c) (Collection c) (Description c)
    (PartitionName c) (ConsistencyLevel_ c) (EnableDynamicSchema c) (Vector c)
    (Sparse c) (Some f) (Embedding c) (Functions c) (FieldParams c).

(** The two nested loops with their [break]s: does some function list
    [field] among its output fields? *)
Definition hasSparseFunc (fns : list Function) (field : string) : bool :=
  existsb (fun fn => existsb (fun output => bool_decide (output = field))
                             (OutputFieldNames fn)) fns.

Definition bm25Fn (field : string) : Function :=
  mkFunction "bm25_auto" FunctionTypeBM25 [defaultContentField] [field].

Definition addDefaultBM25Function (c : IndexerConfig) : IndexerConfig :=
  match Sparse c with
  | Some sp =>
      if decide (Method sp = SparseMethodAuto) then
        if hasSparseFunc (Functions c) (Sparse_VectorField sp) then c
        else with_Functions (Functions c ++ [bm25Fn (Sparse_VectorField sp)]) c
      else c
  | None => c
  end.

(** "Dense vector defaults" *)
Definition denseDefaults (v : VectorConfig) : VectorConfig :=
  mkVectorConfig (Dimension v)
    (if decide (Vector_MetricType v = "") then L2 else Vector_MetricType v)
    (Vector_IndexBuilder v)
    (if decide (Vector_VectorField v = "") then defaultVectorField
     else Vector_VectorField v).

(** "Sparse vector defaults" *)
Definition sparseDefaults (sp : SparseVectorConfig) : SparseVectorConfig :=
  let field :=
    if decide (Sparse_VectorField sp = "") then defaultSparseVectorField
    else Sparse_VectorField sp in
  let metric :=
    if decide (Sparse_MetricType sp = "") then BM25 else Sparse_MetricType sp in
  let method :=
    if decide (Method sp = "") then
      if decide (metric = BM25) then SparseMethodAuto else SparseMethodPrecomputed
    else Method sp in
  mkSparseVectorConfig (Sparse_IndexBuilder sp) field metric method.

Definition validate (c : IndexerConfig) : result IndexerConfig :=
  if isNil (Client_ c) && isNil (ClientConfig_ c) then
    Err (errorString "[NewIndexer] milvus client or client config not provided")
  else if isNil (Vector c) && isNil (Sparse c) then
    Err (errorString "[NewIndexer] at least one vector field (dense or sparse) is required")
  else
    let c :=
      mkIndexerConfig (Client_ c) (ClientConfig_ c)
        (if decide (Collection c = "") then defaultCollection else Collection c)
        (if decide (Description c = "") then defaultDescription else Description c)
        (PartitionName c) (ConsistencyLevel_ c) (EnableDynamicSchema c)
        (denseDefaults <$> Vector c)
        (sparseDefaults <$> Sparse c)
        (DocumentConverter c) (Embedding c) (Functions c) (FieldParams c) in
    let c := if isNil (Sparse c) then c else addDefaultBM25Function c in
    let c :=
      if isNil (DocumentConverter c) then
        with_DocumentConverter (defaultDocumentConverter (Vector c) (Sparse c)) c
      else c in
    Ok c.

End Converter.

(** *** Construction: [NewIndexer] *)

Record Indexer : Type := mkIndexer {
  client : Client;
  config : IndexerConfig;
}.

Section Construction.
Context {codec : Sonic} {limits : SchemaLimits} {W : Type} {M : Milvus W}.

Definition initClient (conf : IndexerConfig) : IO W Client :=
  match Client_ conf with
  | Some cli => mret cli
  | None =>
      match ClientConfig_ conf with
      | None =>
          liftResult (Err (errorString "[NewIndexer] either Client or ClientConfig must be provided"))
      | Some cfg =>
          wrapIO "[NewIndexer] failed to create milvus client" (milvusclient_New cfg)
      end
  end.

(** The helper [applyParams] of [buildSchema]: every entry of the field's
    parameters is written with [WithTypeParams], over what the map holds. *)
Definition applyParams (conf : IndexerConfig) (f : Field) (name : string) : Field :=
  match FieldParams conf !! name with
  | Some params =>
      mkField (Field_Name f) (Field_DataType f) (Field_IsPrimaryKey f)
              (params ∪ Field_TypeParams f)
  | None => f
  end.

Definition buildSchema (conf : IndexerConfig) : result Schema :=
  let idField :=
    applyParams conf
      (WithMaxLength defaultMaxIDLen (mkField defaultIDField FieldTypeVarChar true ∅))
      defaultIDField in
  let contentField :=
    applyParams conf
      (WithMaxLength defaultMaxContentLen
         (mkField defaultContentField FieldTypeVarChar false ∅))
      defaultContentField in
  let metadataField :=
    applyParams conf
      (mkField defaultMetadataField FieldTypeJSON false ∅)
      defaultMetadataField in
  let fields := [idField; contentField; metadataField] in
  fields ←
    match Vector conf with
    | Some v =>
        Ok (fields ++
            [applyParams conf
               (WithDim (Dimension v)
                  (mkField (Vector_VectorField v) FieldTypeFloatVector false ∅))
               (Vector_VectorField v)])
    | None =>
        if isNil (Sparse conf) then
          Err (errorString "[NewIndexer] at least one vector field (dense or sparse) is required")
        else Ok fields
    end;
  let fields :=
    match Sparse conf with
    | Some sp =>
        fields ++
        [applyParams conf
           (mkField (Sparse_VectorField sp) FieldTypeSparseVector false ∅)
           (Sparse_VectorField sp)]
    | None => fields
    end in
  Ok (mkSchema fields (EnableDynamicSchema conf) (Functions conf)).

Definition createCollection (cli : Client) (conf : IndexerConfig) : IO W unit :=
  sch ← liftResult (buildSchema conf);
  let createOpt :=
    mkCreateCollectionOption (Collection conf) sch
      (if decide (ConsistencyLevel_ conf ≠ ConsistencyLevelDefault)
       then Some (ConsistencyLevel_ conf) else None) in
  wrapIO "[NewIndexer] failed to create collection" (CreateCollection cli createOpt).

Definition createVectorIndex (cli : Client) (vectorField : string)
    (vectorConf : VectorConfig) (collection : string) : IO W unit :=
  let idx :=
    match Vector_IndexBuilder vectorConf with
    | Some b => b (Vector_MetricType vectorConf)
    | None => NewAutoIndex (Vector_MetricType vectorConf)
    end in
  described ← tryIO (DescribeIndex cli collection vectorField);
  match (described : result unit) with
  | Ok _ => mret tt
  | Err _ =>
      createTask ← wrapIO "[NewIndexer] failed to create index"
                          (CreateIndex cli collection vectorField idx);
      wrapIO "[NewIndexer] failed to await index creation" (Await createTask)
  end.

Definition createSparseIndex (cli : Client) (sparseConf : SparseVectorConfig)
    (collection : string) : IO W unit :=
  let sparseIdx :=
    match Sparse_IndexBuilder sparseConf with
    | Some b => b (Sparse_MetricType sparseConf)
    | None => NewSparseInvertedIndexBuilder (Sparse_MetricType sparseConf)
    end in
  described ← tryIO (DescribeIndex cli collection (Sparse_VectorField sparseConf));
  match (described : result unit) with
  | Ok _ => mret tt
  | Err _ =>
      createTask ← wrapIO "[NewIndexer] failed to create sparse index"
                          (CreateIndex cli collection (Sparse_VectorField sparseConf) sparseIdx);
      wrapIO "[NewIndexer] failed to await sparse index creation" (Await createTask)
  end.

Definition createIndex (cli : Client) (conf : IndexerConfig) : IO W unit :=
  match Vector conf with
  | Some v => createVectorIndex cli (Vector_VectorField v) v (Collection conf)
  | None => mret tt
  end;;
  match Sparse conf with
  | Some sp => createSparseIndex cli sp (Collection conf)
  | None => mret tt
  end.

Definition initCollection (cli : Client) (conf : IndexerConfig) : IO W unit :=
  hasCollection ← wrapIO "[NewIndexer] failed to check collection"
                         (HasCollection cli (Collection conf));
  (if (hasCollection : bool) then mret tt
   else
     match Vector conf with
     | Some v =>
         if decide (Dimension v ≤ 0)%Z then
           liftResult (Err (errorString "[NewIndexer] vector dimension is required when collection does not exist"))
         else createCollection cli conf
     | None => createCollection cli conf
     end);;
  loadState ← wrapIO "[NewIndexer] failed to get load state"
                     (GetLoadState cli (Collection conf));
  if decide ((loadState : LoadStateCode) ≠ LoadStateLoaded) then
    createIndex cli conf;;
    loadTask ← wrapIO "[NewIndexer] failed to load collection"
                      (LoadCollection cli (Collection conf));
    wrapIO "[NewIndexer] failed to await collection load" (Await loadTask)
  else mret tt.

Definition NewIndexer (conf : IndexerConfig) : IO W Indexer :=
  conf ← liftResult (validate conf);
  cli ← initClient conf;
  initCollection cli conf;;
  mret (mkIndexer cli conf).

End Construction.

(** *** [Indexer.Store] *)

(** [ImplOptions] of [options.go] and [indexer.Options] of the framework. *)
Record ImplOptions : Type := mkImplOptions {
  Partition : string;
}.

Record Options : Type := mkOptions {
  Options_SubIndexes : list string;
  Options_Embedding : option Embedder;
}.

(** An [indexer.Option]: one of the framework's two common options, or
    this package's [WithPartition]. *)
Inductive Option_ : Type :=
| WithSubIndexes (subIndexes : list string)
| WithEmbedding (emb : option Embedder)
| WithPartition (partition : string).

(** [indexer.GetCommonOptions(base, opts...)] and
    [indexer.GetImplSpecificOptions(base, opts...)]: the options of the
    respective kind are applied to [base] in order. *)
Definition applyCommon (o : Options) (opt : Option_) : Options :=
  match opt with
  | WithSubIndexes subIndexes => mkOptions subIndexes (Options_Embedding o)
  | WithEmbedding emb => mkOptions (Options_SubIndexes o) emb
  | WithPartition _ => o
  end.

Definition GetCommonOptions (base : Options) (opts : list Option_) : Options :=
  foldl applyCommon base opts.

Definition applyImpl (o : ImplOptions) (opt : Option_) : ImplOptions :=
  match opt with
  | WithPartition partition => mkImplOptions partition
  | _ => o
  end.

Definition GetImplSpecificOptions (base : ImplOptions) (opts : list Option_)
  : ImplOptions :=
  foldl applyImpl base opts.

(** Without an embedder the vectors are nil. *)
Definition embedDocuments (emb : option Embedder) (docs : list Document)
  : result (list (list float64)) :=
  match emb with
  | None => Ok []
  | Some emb =>
      let texts := Content <$> docs in
      vectors ← wrapErr "[Indexer.Store] failed to embed documents" (emb texts);
      if decide (length vectors ≠ length docs) then
        Err (errorString ("[Indexer.Store] embedding result length mismatch: need "
                          +:+ fmt_d (Z.of_nat (length docs)) +:+ ", got "
                          +:+ fmt_d (Z.of_nat (length vectors))))
      else Ok vectors
  end.

(** The loop [for idx := 0; idx < result.IDs.Len(); idx++]. *)
Fixpoint collectIDs (res : UpsertResult) (indices : list nat) : result (list string) :=
  match indices with
  | [] => Ok []
  | idx :: rest =>
      idStr ← wrapErr "[Indexer.Store] failed to get id"
                      (IDs_GetAsString res (Z.of_nat idx));
      ids ← collectIDs res rest;
      Ok (idStr :: ids)
  end.

Definition upsertedIDs (res : UpsertResult) : result (list string) :=
  if decide (IDs_Len res < 0) then Err (runtimePanic "makeslice: cap out of range")
  else collectIDs res (seq 0 (Z.to_nat (IDs_Len res))).

Section Store.
Context {W : Type} {MW : MilvusWrite W}.

Definition upsertDocuments (i : Indexer) (docs : list Document)
    (vectors : list (list float64)) (partition : string) : IO W (list string) :=
  columns ← liftResult
    (wrapErr "[Indexer.Store] failed to convert documents"
       match DocumentConverter (config i) with
       | Some convert => convert docs vectors
       | None => Err (runtimePanic "invalid memory address or nil pointer dereference")
       end);
  let insertOpt := mkInsertOption (Collection (config i)) partition columns in
  res ← wrapIO "[Indexer.Store] failed to upsert documents"
               (Upsert (client i) insertOpt);
  liftResult (upsertedIDs res).

(** [Store], without the callbacks of the framework. *)
Definition Store (i : Indexer) (docs : list Document) (opts : list Option_)
  : IO W (list string) :=
  let co := GetCommonOptions (mkOptions [] (Embedding (config i))) opts in
  let io := GetImplSpecificOptions (mkImplOptions (PartitionName (config i))) opts in
  vectors ← liftResult (embedDocuments (Options_Embedding co) docs);
  upsertDocuments i docs vectors (Partition io).

End Store.

End Milvus2Indexer.


(** ** The SDK's search requests and results *)

(** [entity.Vector]: a dense query vector or a raw text for a server-side
    function. *)
Inductive Vector_ : Type :=
| FloatVector (v : list float32)
| Text (s : string).

(** A search parameter: a string, or the [%v] rendering of a [float64],
    which is kept symbolic. *)
Inductive SearchParam : Type :=
| ParamString (s : string)
| ParamFloat (f : float64).

Record GroupingConfig : Type := mkGroupingConfig {
  GroupByField : string;
  GroupSize : Z;
  StrictGroupSize : bool;
}.

(** What [WithGroupByField(f).WithGroupSize(n)] and
    [WithStrictGroupSize(true)] leave in a request. *)
Record Grouping_ : Type := mkGrouping {
  Grouping_Field : string;
  Grouping_Size : Z;
  Grouping_Strict : bool;
}.

Definition groupingOf (g : option GroupingConfig) : option Grouping_ :=
  (fun g => mkGrouping (GroupByField g) (GroupSize g) (StrictGroupSize g)) <$> g.

(** [milvusclient.NewSearchOption(collection, limit, vectors)] and its
    [With...] setters. *)
Record SearchOption : Type := mkSearchOption {
  Search_Collection : string;
  Search_Limit : Z;
  Search_Vectors : list Vector_;
  Search_ANNSField : string;
  Search_OutputFields : list string;
  Search_Params : gmap string SearchParam;
  Search_Partitions : list string;
  Search_Filter : string;
  Search_Grouping : option Grouping_;
  Search_ConsistencyLevel : option ConsistencyLevel;
}.

(** [milvusclient.NewQueryOption(collection)] and its setters. *)
Record QueryOption : Type := mkQueryOption {
  Query_Collection : string;
  Query_Filter : string;
  Query_OutputFields : list string;
  Query_Limit : Z;
  Query_Partitions : list string;
  Query_ConsistencyLevel : option ConsistencyLevel;
}.

(** [milvusclient.NewSearchIteratorOption(collection, vector)] and its
    setters. *)
Record SearchIteratorOption : Type := mkSearchIteratorOption {
  Iter_Collection : string;
  Iter_Vector : Vector_;
  Iter_ANNSField : string;
  Iter_BatchSize : Z;
  Iter_OutputFields : list string;
  Iter_Limit : Z;
  Iter_Params : gmap string SearchParam;
  Iter_Partitions : list string;
  Iter_Filter : string;
  Iter_Grouping : option Grouping_;
  Iter_ConsistencyLevel : option ConsistencyLevel;
}.

(** [milvusclient.NewAnnRequest(field, limit, vector)] and its setters. *)
Record AnnRequest : Type := mkAnnRequest {
  Ann_Field : string;
  Ann_Limit : Z;
  Ann_Vector : Vector_;
  Ann_Params : gmap string SearchParam;
  Ann_Filter : string;
  Ann_Grouping : option Grouping_;
}.

Inductive Reranker : Type :=
| NewRRFReranker
| NewWeightedReranker (weights : list float64).

(** [milvusclient.NewHybridSearchOption(collection, limit, requests...)] and
    its setters. *)
Record HybridSearchOption : Type := mkHybridSearchOption {
  Hybrid_Collection : string;
  Hybrid_Limit : Z;
  Hybrid_Requests : list AnnRequest;
  Hybrid_Reranker : option Reranker;
  Hybrid_OutputFields : list string;
  Hybrid_Partitions : list string;
  Hybrid_ConsistencyLevel : option ConsistencyLevel;
}.

(** A column of a result set, through the methods of [column.Column] that
    the converter calls. *)
Record ResultField : Type := mkResultField {
  ResultField_Name : string;
  ResultField_Get : Z -> result any;
  ResultField_GetAsString : Z -> result string;
}.

(** [milvusclient.ResultSet]. *)
Record ResultSet : Type := mkResultSet {
  ResultCount : Z;
  Scores : list float32;
  Fields : list ResultField;
}.

(** A [milvusclient.SearchIterator]: the answers of its successive [Next]
    calls; once they are used up, [Next] answers [io.EOF]. *)
Definition SearchIterator_ : Type := list (result ResultSet).

Definition Next (it : SearchIterator_) : result ResultSet * SearchIterator_ :=
  match it with
  | [] => (Err io_EOF, [])
  | r :: rest => (r, rest)
  end.

(** The search operations of [milvusclient]. *)
Class MilvusSearch (W : Type) : Type := {
  Search : Client -> SearchOption -> IO W (list ResultSet);
  Query : Client -> QueryOption -> IO W ResultSet;
  HybridSearch : Client -> HybridSearchOption -> IO W (list ResultSet);
  SearchIterator : Client -> SearchIteratorOption -> IO W SearchIterator_;
}.

(** ** Package [components/retriever/milvus2] *)

Module Milvus2Retriever.

(** Modelled from the spec: [VectorType] is declared with the package's
    constants, which are not among the sources; the README lists its two
    values, [DenseVector] being the default. *)
Inductive VectorType : Type :=
| DenseVector
| SparseVector.

#[global] Instance VectorType_eq_dec : EqDecision VectorType.
Proof. solve_decision. Defined.

Record ImplOptions : Type := mkImplOptions {
  Filter : string;
  Grouping : option GroupingConfig;
}.

(** [retriever.Options] of the framework: the common option the adapters
    read. *)
Record Options : Type := mkOptions {
  Options_TopK : option Z;
}.

(** A [retriever.Option]: a common option of the framework, or one of this
    package's implementation-specific options. *)
Inductive Option_ : Type :=
| WithTopK (k : Z)
| WithScoreThreshold (threshold : float64)
| WithFilter (filter : string)
| WithGrouping (groupByField : string) (groupSize : Z) (strict : bool).

(** [retriever.GetCommonOptions(base, opts...)]: the common options are
    applied to [base] in order. *)
Definition applyCommon (o : Options) (opt : Option_) : Options :=
  match opt with
  | WithTopK k => mkOptions (Some k)
  | _ => o
  end.

Definition GetCommonOptions (base : Options) (opts : list Option_) : Options :=
  foldl applyCommon base opts.

(** [retriever.GetImplSpecificOptions(base, opts...)]. *)
Definition applyImpl (o : ImplOptions) (opt : Option_) : ImplOptions :=
  match opt with
  | WithFilter filter => mkImplOptions filter (Grouping o)
  | WithGrouping groupByField groupSize strict =>
      mkImplOptions (Filter o) (Some (mkGroupingConfig groupByField groupSize strict))
  | _ => o
  end.

Definition GetImplSpecificOptions (base : ImplOptions) (opts : list Option_)
  : ImplOptions :=
  foldl applyImpl base opts.

Definition Converter : Type := ResultSet -> result (list Document).

(** [Mode] is the type of the [SearchMode] implementations; the package
    only tests the field against nil. *)
Record RetrieverConfig (Mode : Type) : Type := mkRetrieverConfig {
  Client_ : option Client;
  ClientConfig_ : option ClientConfig;
  Collection : string;
  Partitions : list string;
  VectorField : string;
  SparseVectorField : string;
  OutputFields : list string;
  TopK : Z;
  ConsistencyLevel_ : ConsistencyLevel;
  SearchMode : option Mode;
  DocumentConverter : option Converter;
  Embedding : option Embedder;
}.
Arguments mkRetrieverConfig {Mode}.
Arguments Client_ {Mode}.
Arguments ClientConfig_ {Mode}.
Arguments Collection {Mode}.
Arguments Partitions {Mode}.
Arguments VectorField {Mode}.
Arguments SparseVectorField {Mode}.
Arguments OutputFields {Mode}.
Arguments TopK {Mode}.
Arguments ConsistencyLevel_ {Mode}.
Arguments SearchMode {Mode}.
Arguments DocumentConverter {Mode}.
Arguments Embedding {Mode}.

Record Retriever (Mode : Type) : Type := mkRetriever {
  client : Client;
  config : RetrieverConfig Mode;
}.
Arguments mkRetriever {Mode}.
Arguments client {Mode}.
Arguments config {Mode}.

(** *** [defaultDocumentConverter] *)

Definition with_ID (id : string) (d : Document) : Document :=
  mkDocument id (Content d) (MetaData d).

Definition with_Content (content : string) (d : Document) : Document :=
  mkDocument (ID d) content (MetaData d).

Definition with_MetaData (m : gmap string any) (d : Document) : Document :=
  mkDocument (ID d) (Content d) m.

Section Converter.
Context {codec : Sonic}.

(** The body of [for _, field := range result.Fields] for row [i]. *)
Definition convertField (i : Z) (doc : Document) (field : ResultField) : Document :=
  match ResultField_Get field i with
  | Err _ => doc
  | Ok val =>
      if decide (ResultField_Name field = "id") then
        match val with
        | AnyString id => with_ID id doc
        | _ =>
            match ResultField_GetAsString field i with
            | Ok idStr => with_ID idStr doc
            | Err _ => doc
            end
        end
      else if decide (ResultField_Name field = defaultContentField) then
        match val with
        | AnyString content => with_Content content doc
        | _ =>
            match ResultField_GetAsString field i with
            | Ok contentStr => with_Content contentStr doc
            | Err _ => doc
            end
        end
      else if decide (ResultField_Name field = defaultMetadataField) then
        match val with
        | AnyBytes metaBytes =>
            match sonic_Unmarshal metaBytes with
            | Ok meta => with_MetaData (meta ∪ MetaData doc) doc
            | Err _ => doc
            end
        | _ => doc
        end
      else with_MetaData (<[ResultField_Name field := val]> (MetaData doc)) doc
  end.

(** The document of row [i]. *)
Definition convertRow (res : ResultSet) (i : nat) : Document :=
  let doc := mkDocument "" "" ∅ in
  let doc :=
    match Scores res !! i with
    | Some score => WithScore (to_float64 score) doc
    | None => doc
    end in
  foldl (convertField (Z.of_nat i)) doc (Fields res).

Definition defaultDocumentConverter : Converter :=
  fun res =>
    if decide (ResultCount res < 0)%Z then
      Err (runtimePanic "makeslice: cap out of range")
    else
      Ok (convertRow res <$> seq 0 (Z.to_nat (ResultCount res))).

(** *** [RetrieverConfig.validate] *)

Definition validate {Mode} (c : RetrieverConfig Mode) : result (RetrieverConfig Mode) :=
  if isNil (Client_ c) && isNil (ClientConfig_ c) then
    Err (errorString "[NewRetriever] milvus client or client config not provided")
  else if isNil (SearchMode c) then
    Err (errorString "[NewRetriever] search mode not provided")
  else
    Ok (mkRetrieverConfig (Client_ c) (ClientConfig_ c)
          (if decide (Collection c = "") then defaultCollection else Collection c)
          (Partitions c)
          (if decide (VectorField c = "") then defaultVectorField else VectorField c)
          (if decide (SparseVectorField c = "") then defaultSparseVectorField
           else SparseVectorField c)
          (if decide (length (OutputFields c) = 0%nat) then ["*"] else OutputFields c)
          (if decide (TopK c ≤ 0)%Z then defaultTopK else TopK c)
          (ConsistencyLevel_ c)
          (SearchMode c)
          (Some (default defaultDocumentConverter (DocumentConverter c)))
          (Embedding c)).

(** *** Construction: [NewRetriever] *)

Section Construction.
Context {W : Type} {M : Milvus W}.

Definition initClient {Mode} (conf : RetrieverConfig Mode) : IO W Client :=
  match Client_ conf with
  | Some cli => mret cli
  | None =>
      match ClientConfig_ conf with
      | None =>
          liftResult (Err (errorString "[NewRetriever] either Client or ClientConfig must be provided"))
      | Some cfg =>
          wrapIO "[NewRetriever] failed to create milvus client" (milvusclient_New cfg)
      end
  end.

Definition loadCollection {Mode} (cli : Client) (conf : RetrieverConfig Mode)
  : IO W unit :=
  hasCollection ← wrapIO "[NewRetriever] failed to check collection"
                         (HasCollection cli (Collection conf));
  if (hasCollection : bool) then
    loadState ← wrapIO "[NewRetriever] failed to get load state"
                       (GetLoadState cli (Collection conf));
    if decide ((loadState : LoadStateCode) ≠ LoadStateLoaded) then
      loadTask ← wrapIO "[NewRetriever] failed to load collection"
                        (LoadCollection cli (Collection conf));
      wrapIO "[NewRetriever] failed to await collection load" (Await loadTask)
    else mret tt
  else
    liftResult (Err (errorString ("[NewRetriever] collection "
                                  +:+ fmt_q (Collection conf) +:+ " not found"))).

Definition NewRetriever {Mode} (conf : RetrieverConfig Mode) : IO W (Retriever Mode) :=
  conf ← liftResult (validate conf);
  cli ← initClient conf;
  loadCollection cli conf;;
  mret (mkRetriever cli conf).

End Construction.

End Converter.

End Milvus2Retriever.

(** ** Package [components/retriever/milvus2/search_mode] *)

Module SearchMode.
Import Milvus2Retriever.

(** *** [EmbedQuery] *)

Definition EmbedQuery (emb : option Embedder) (query : string)
  : result (list float32) :=
  match emb with
  | None => Err (errorString "[Retriever] embedding not provided")
  | Some emb =>
      vectors ← wrapErr "[Retriever] failed to embed query" (emb [query]);
      match vectors with
      | [v] => Ok (to_float32_slice v)
      | _ =>
          Err (errorString ("[Retriever] invalid embedding result: expected 1, got "
                            +:+ fmt_d (Z.of_nat (length vectors))))
      end
  end.

(** *** The search modes *)

Record Approximate : Type := mkApproximate {
  Approximate_MetricType : MetricType;
}.

Record Range : Type := mkRange {
  Range_MetricType : MetricType;
  Radius : float64;
  RangeFilter : option float64;
}.

Record Sparse : Type := mkSparse {
  Sparse_MetricType : MetricType;
}.

Record SubRequest : Type := mkSubRequest {
  SubRequest_VectorField : string;
  SubRequest_MetricType : MetricType;
  SubRequest_TopK : Z;
  SubRequest_SearchParams : gmap string string;
  SubRequest_VectorType : VectorType;
}.

Record Hybrid : Type := mkHybrid {
  SubRequests : list SubRequest;
  Hybrid_Reranker_ : option Reranker;
  Hybrid_TopK : Z;
}.

Record Iterator : Type := mkIterator {
  Iterator_MetricType : MetricType;
  BatchSize : Z;
  SearchParams : gmap string string;
}.

Inductive Scalar : Type := mkScalar.

(** The implementations of the interface [milvus2.SearchMode]. *)
Inductive Mode : Type :=
| ModeApproximate (a : Approximate)
| ModeRange (r : Range)
| ModeSparse (s : Sparse)
| ModeHybrid (h : Hybrid)
| ModeIterator (i : Iterator)
| ModeScalar (s : Scalar).

Definition Config : Type := RetrieverConfig Mode.

Definition NewApproximate (metricType : MetricType) : Approximate :=
  mkApproximate (if decide (metricType = "") then L2 else metricType).

Definition NewRange (metricType : MetricType) (radius : float64) : Range :=
  mkRange (if decide (metricType = "") then L2 else metricType) radius None.

Definition WithRangeFilter (rangeFilter : float64) (r : Range) : Range :=
  mkRange (Range_MetricType r) (Radius r) (Some rangeFilter).

Definition NewSparse (metricType : MetricType) : Sparse :=
  mkSparse (if decide (metricType = "") then BM25 else metricType).

Definition NewHybrid (reranker : option Reranker) (subRequests : list SubRequest)
  : Hybrid :=
  mkHybrid subRequests reranker 0.

Definition NewIterator (metricType : MetricType) (batchSize : Z) : Iterator :=
  mkIterator (if decide (metricType = "") then L2 else metricType)
             (if decide (batchSize ≤ 0)%Z then 100 else batchSize) ∅.

Definition WithSearchParams (params : gmap string string) (i : Iterator) : Iterator :=
  mkIterator (Iterator_MetricType i) (BatchSize i) params.

Definition NewScalar : Scalar := mkScalar.

(** The limit every builder starts from:
    [co := GetCommonOptions(&retriever.Options{TopK: &conf.TopK}, opts...)],
    then [topK := conf.TopK; if co.TopK != nil { topK = *co.TopK }]. *)
Definition commonTopK (conf : Config) (opts : list Option_) : option Z :=
  Options_TopK (GetCommonOptions (mkOptions (Some (TopK conf))) opts).

Definition metricParam (mt : MetricType) (params : gmap string SearchParam)
  : gmap string SearchParam :=
  if decide (mt ≠ "") then <["metric_type" := ParamString mt]> params else params.

Definition consistencyOf (conf : Config) : option ConsistencyLevel :=
  if decide (ConsistencyLevel_ conf ≠ ConsistencyLevelDefault)
  then Some (ConsistencyLevel_ conf) else None.

(** [conf.DocumentConverter(ctx, res)]: a call through the function value. *)
Definition callDocumentConverter (conf : Config) (res : ResultSet)
  : result (list Document) :=
  match DocumentConverter conf with
  | Some f => f res
  | None => Err (runtimePanic "invalid memory address or nil pointer dereference")
  end.

(** *** Approximate *)

Definition Approximate_BuildSearchOption (a : Approximate) (conf : Config)
    (queryVector : list float32) (opts : list Option_) : result SearchOption :=
  let io := GetImplSpecificOptions (mkImplOptions "" None) opts in
  let topK := default (TopK conf) (commonTopK conf opts) in
  Ok (mkSearchOption (Collection conf) topK [FloatVector queryVector]
        (VectorField conf) (OutputFields conf)
        (metricParam (Approximate_MetricType a) ∅)
        (Partitions conf) (Filter io) (groupingOf (Grouping io))
        (consistencyOf conf)).

(** *** Range *)

Definition Range_BuildSearchOption (r : Range) (conf : Config)
    (queryVector : list float32) (opts : list Option_) : result SearchOption :=
  let io := GetImplSpecificOptions (mkImplOptions "" None) opts in
  let topK := default (TopK conf) (commonTopK conf opts) in
  let params := metricParam (Range_MetricType r) {["radius" := ParamFloat (Radius r)]} in
  let params :=
    match RangeFilter r with
    | Some f => <["range_filter" := ParamFloat f]> params
    | None => params
    end in
  Ok (mkSearchOption (Collection conf) topK [FloatVector queryVector]
        (VectorField conf) (OutputFields conf) params
        (Partitions conf) (Filter io) (groupingOf (Grouping io))
        (consistencyOf conf)).

(** *** Sparse *)

Definition Sparse_BuildSparseSearchOption (s : Sparse) (conf : Config)
    (query : string) (opts : list Option_) : result SearchOption :=
  let io := GetImplSpecificOptions (mkImplOptions "" None) opts in
  let topK := default (TopK conf) (commonTopK conf opts) in
  Ok (mkSearchOption (Collection conf) topK [Text query]
        (SparseVectorField conf) (OutputFields conf)
        (metricParam (Sparse_MetricType s) ∅)
        (Partitions conf) (Filter io) (groupingOf (Grouping io))
        (consistencyOf conf)).

(** *** Scalar *)

Definition Scalar_BuildQueryOption (s : Scalar) (conf : Config)
    (query : string) (opts : list Option_) : result QueryOption :=
  let io := GetImplSpecificOptions (mkImplOptions "" None) opts in
  let finalTopK := default (TopK conf) (commonTopK conf opts) in
  let expr := query in
  let expr :=
    if decide (Filter io ≠ "") then
      if decide (expr ≠ "") then "(" +:+ expr +:+ ") and (" +:+ Filter io +:+ ")"
      else Filter io
    else expr in
  Ok (mkQueryOption (Collection conf) expr (OutputFields conf) finalTopK
        (Partitions conf) (consistencyOf conf)).

(** *** Iterator *)

Definition Iterator_BuildSearchOption (i : Iterator) (conf : Config)
    (queryVector : list float32) (opts : list Option_) : result SearchOption :=
  Err (errorString "Iterator search mode requires BuildSearchIteratorOption").

Definition Iterator_BuildSearchIteratorOption (i : Iterator) (conf : Config)
    (queryVector : list float32) (opts : list Option_) : result SearchIteratorOption :=
  let io := GetImplSpecificOptions (mkImplOptions "" None) opts in
  let finalLimit := default (TopK conf) (commonTopK conf opts) in
  Ok (mkSearchIteratorOption (Collection conf) (FloatVector queryVector)
        (VectorField conf) (BatchSize i) (OutputFields conf) finalLimit
        ((ParamString <$> SearchParams i) ∪ metricParam (Iterator_MetricType i) ∅)
        (Partitions conf) (Filter io) (groupingOf (Grouping io))
        (consistencyOf conf)).

(** The loop [for { res, err := iterator.Next(ctx) ... }], by recursion on
    the answers that [Next] is going to give: it returns the outcome and
    what is left of the iterator. *)
Fixpoint iterate (conf : Config) (iterator : SearchIterator_)
    (allDocs : list Document) : result (list Document) * SearchIterator_ :=
  match iterator with
  | [] => (Ok allDocs, [])
  | Err err :: rest =>
      if errors_Is_EOF err then (Ok allDocs, rest)
      else (wrapErr "iterator next failed" (Err err), rest)
  | Ok res :: rest =>
      if decide (ResultCount res = 0) then (Ok allDocs, rest)
      else
        match callDocumentConverter conf res with
        | Err err => (wrapErr "failed to convert batch results" (Err err), rest)
        | Ok batchDocs => iterate conf rest (allDocs ++ batchDocs)
        end
  end.

(** *** Hybrid *)

Definition Hybrid_BuildSearchOption (h : Hybrid) (conf : Config)
    (queryVector : list float32) (opts : list Option_) : result SearchOption :=
  Err (errorString "Hybrid search mode requires BuildHybridSearchOption").

(** The body of [for _, req := range h.SubRequests]. *)
Definition buildAnnRequest (conf : Config) (io : ImplOptions)
    (queryVector : list float32) (query : string) (req : SubRequest)
  : result AnnRequest :=
  let field :=
    if decide (SubRequest_VectorField req = "") then
      if decide (SubRequest_VectorType req = SparseVector) then SparseVectorField conf
      else VectorField conf
    else SubRequest_VectorField req in
  let limit :=
    if decide (SubRequest_TopK req ≤ 0)%Z then TopK conf else SubRequest_TopK req in
  vector ←
    (if decide (SubRequest_VectorType req = SparseVector) then Ok (Text query)
     else if decide (length queryVector = 0%nat) then
       Err (errorString "dense vector SubRequest requires embedding, but query vector is empty")
     else Ok (FloatVector queryVector));
  Ok (mkAnnRequest field limit vector
        (metricParam (SubRequest_MetricType req)
                     (ParamString <$> SubRequest_SearchParams req))
        (Filter io) (groupingOf (Grouping io))).

Fixpoint buildAnnRequests (conf : Config) (io : ImplOptions)
    (queryVector : list float32) (query : string) (reqs : list SubRequest)
  : result (list AnnRequest) :=
  match reqs with
  | [] => Ok []
  | req :: rest =>
      annReq ← buildAnnRequest conf io queryVector query req;
      annRequests ← buildAnnRequests conf io queryVector query rest;
      Ok (annReq :: annRequests)
  end.

Definition Hybrid_BuildHybridSearchOption (h : Hybrid) (conf : Config)
    (queryVector : list float32) (query : string) (opts : list Option_)
  : result HybridSearchOption :=
  if decide (length (SubRequests h) < 2)%nat then
    Err (errorString "hybrid search requires at least 2 SubRequests; use Approximate or Sparse search mode for single-vector search")
  else
    let io := GetImplSpecificOptions (mkImplOptions "" None) opts in
    let co := GetCommonOptions (mkOptions (Some (TopK conf))) opts in
    let finalTopK := TopK conf in
    let finalTopK := if decide (Hybrid_TopK h > 0)%Z then Hybrid_TopK h else finalTopK in
    let finalTopK :=
      match Options_TopK co with
      | Some k => k
      | None => finalTopK
      end in
    annRequests ← buildAnnRequests conf io queryVector query (SubRequests h);
    Ok (mkHybridSearchOption (Collection conf) finalTopK annRequests
          (Hybrid_Reranker_ h) (OutputFields conf) (Partitions conf)
          (consistencyOf conf)).

(** *** The [Retrieve] methods *)

Section Retrieve.
Context {W : Type} {M : MilvusSearch W}.

(** [if len(result) == 0 { return []*schema.Document{}, nil };
     return conf.DocumentConverter(ctx, result[0])] *)
Definition convertFirst (conf : Config) (results : list ResultSet)
  : IO W (list Document) :=
  match results with
  | [] => mret []
  | r :: _ => liftResult (callDocumentConverter conf r)
  end.

Definition Approximate_Retrieve (a : Approximate) (cli : Client) (conf : Config)
    (query : string) (opts : list Option_) : IO W (list Document) :=
  if isNil (Embedding conf) then
    liftResult (Err (errorString "embedding is required for approximate search"))
  else
    queryVector ← liftResult (EmbedQuery (Embedding conf) query);
    searchOpt ← liftResult (wrapErr "failed to build search option"
                   (Approximate_BuildSearchOption a conf queryVector opts));
    results ← wrapIO "failed to search" (Search cli searchOpt);
    convertFirst conf results.

Definition Range_Retrieve (r : Range) (cli : Client) (conf : Config)
    (query : string) (opts : list Option_) : IO W (list Document) :=
  if isNil (Embedding conf) then
    liftResult (Err (errorString "embedding is required for range search"))
  else
    queryVector ← liftResult (EmbedQuery (Embedding conf) query);
    searchOpt ← liftResult (wrapErr "failed to build search option"
                   (Range_BuildSearchOption r conf queryVector opts));
    results ← wrapIO "failed to search" (Search cli searchOpt);
    convertFirst conf results.

Definition Sparse_Retrieve (s : Sparse) (cli : Client) (conf : Config)
    (query : string) (opts : list Option_) : IO W (list Document) :=
  searchOpt ← liftResult (wrapErr "failed to build sparse search option"
                 (Sparse_BuildSparseSearchOption s conf query opts));
  results ← wrapIO "failed to search" (Search cli searchOpt);
  convertFirst conf results.

Definition Scalar_Retrieve (s : Scalar) (cli : Client) (conf : Config)
    (query : string) (opts : list Option_) : IO W (list Document) :=
  queryOpt ← liftResult (wrapErr "failed to build query option"
                (Scalar_BuildQueryOption s conf query opts));
  res ← wrapIO "failed to query" (Query cli queryOpt);
  liftResult (callDocumentConverter conf res).

Definition Hybrid_Retrieve (h : Hybrid) (cli : Client) (conf : Config)
    (query : string) (opts : list Option_) : IO W (list Document) :=
  if isNil (Embedding conf) then
    liftResult (Err (errorString "embedding is required for hybrid search"))
  else
    queryVector ← liftResult (EmbedQuery (Embedding conf) query);
    searchOpt ← liftResult (wrapErr "failed to build hybrid search option"
                   (Hybrid_BuildHybridSearchOption h conf queryVector query opts));
    results ← wrapIO "failed to hybrid search" (HybridSearch cli searchOpt);
    convertFirst conf results.

Definition Iterator_Retrieve (i : Iterator) (cli : Client) (conf : Config)
    (query : string) (opts : list Option_) : IO W (list Document) :=
  if isNil (Embedding conf) then
    liftResult (Err (errorString "embedding is required for iterator search"))
  else
    queryVector ← liftResult (EmbedQuery (Embedding conf) query);
    iterOpt ← liftResult (wrapErr "failed to build search iterator option"
                 (Iterator_BuildSearchIteratorOption i conf queryVector opts));
    iterator ← wrapIO "failed to create search iterator" (SearchIterator cli iterOpt);
    liftResult (fst (iterate conf iterator [])).

(** The dispatch of [milvus2.SearchMode.Retrieve]. *)
Definition Retrieve (m : Mode) : Client -> Config -> string -> list Option_
    -> IO W (list Document) :=
  match m with
  | ModeApproximate a => Approximate_Retrieve a
  | ModeRange r => Range_Retrieve r
  | ModeSparse s => Sparse_Retrieve s
  | ModeHybrid h => Hybrid_Retrieve h
  | ModeIterator i => Iterator_Retrieve i
  | ModeScalar s => Scalar_Retrieve s
  end.

End Retrieve.

End SearchMode.

(** * Vocabulary of the statements, and worked examples *)

(** A codec for the worked examples: every metadata map is encoded as the
    empty byte string, which decodes to the empty map. *)
Definition exampleSonic : Sonic :=
  {| sonic_Marshal := fun _ => Ok []; sonic_Unmarshal := fun _ => Ok ∅ |}.

Definition exampleClientConfig : ClientConfig := mkClientConfig "localhost:19530".

Module IndexerExamples.
Import Milvus2Indexer.

(** A sparse-only configuration that sets neither the metric nor the
    method. *)
Definition sparseOnlyConfig : IndexerConfig :=
  mkIndexerConfig None (Some exampleClientConfig) "" "" "" ConsistencyLevelDefault
    false None (Some (mkSparseVectorConfig None "" "" "")) None None [] ∅.

(** What [validate] makes of [sparseOnlyConfig]. *)
Definition sparseOnlyValidated : IndexerConfig :=
  let sp := mkSparseVectorConfig None defaultSparseVectorField BM25 SparseMethodAuto in
  mkIndexerConfig None (Some exampleClientConfig) defaultCollection
    defaultDescription "" ConsistencyLevelDefault false None (Some sp)
    (Some (defaultDocumentConverter (codec := exampleSonic) None (Some sp)))
    None [bm25Fn defaultSparseVectorField] ∅.

(** A sparse vector with the single index [2^32], and one with three
    indices given out of order. *)
Definition one : float64 := S754_finite false 1 0.
Definition largeIndexVector : gmap Z float64 := {[ 4294967296 := one ]}.
Definition smallSparseVector : gmap Z float64 :=
  {[ 7 := one; 2 := S754_finite false 3 (-1); 40 := S754_zero false ]}.

(** A sparse configuration with precomputed vectors, and two documents:
    the first carries [smallSparseVector], the second no sparse vector. *)
Definition precomputedSparse : SparseVectorConfig :=
  mkSparseVectorConfig None defaultSparseVectorField IP SparseMethodPrecomputed.

Definition twoDocs : list Document :=
  [ WithSparseVector smallSparseVector
      (WithDenseVector [one] (mkDocument "a" "alpha" ∅));
    WithDenseVector [one; one] (mkDocument "b" "beta" ∅) ].

(** Two documents without vectors and without metadata. *)
Definition plainDocs : list Document :=
  [ mkDocument "a" "alpha" ∅; mkDocument "b" "beta" ∅ ].

(** The partition given for one call: the value of the last
    [WithPartition] among the options, if there is one; likewise the
    embedder of the last [WithEmbedding]. *)
Definition perCallPartition (opts : list Option_) : option string :=
  last (omap (λ o, match o with WithPartition p => Some p | _ => None end) opts).

Definition perCallEmbedding (opts : list Option_) : option (option Embedder) :=
  last (omap (λ o, match o with WithEmbedding emb => Some emb | _ => None end) opts).

(** A backend for writes that behaves like [MW] and logs the option of
    every [Upsert]. *)
Definition recordingWrite {W} (MW : MilvusWrite W)
  : MilvusWrite (W * list InsertOption) :=
  {| Upsert cli opt :=
       λ s, let '(r, w') := Upsert cli opt s.1 in (r, (w', s.2 ++ [opt])) |}.

(** The answer of an [Upsert] that reports the ids [ids]. *)
Definition reportsIDs (res : UpsertResult) (ids : list string) : Prop :=
  IDs_Len res = Z.of_nat (length ids) ∧
  ∀ j s, ids !! j = Some s → IDs_GetAsString res (Z.of_nat j) = Ok s.

(** A backend that stores nothing and reports the values of the first
    column as the ids. *)
Definition idColumn (ids : list string) : UpsertResult :=
  mkUpsertResult (Z.of_nat (length ids))
    (λ i, if decide (0 ≤ i) then
            match ids !! Z.to_nat i with
            | Some s => Ok s
            | None => Err (errorString "index out of range")
            end
          else Err (errorString "index out of range")).

Definition echoWrite : MilvusWrite unit :=
  {| Upsert cli opt :=
       λ w, (Ok (idColumn match Insert_Columns opt with
                          | NewColumnVarChar _ vals :: _ => vals
                          | _ => []
                          end), w) |}.

(** An embedder that returns the vector [{1, 1}] for every text, and an
    indexer for dense vectors that uses it. *)
Definition onesEmbedder : Embedder := λ texts, Ok ((λ _, [one; one]) <$> texts).

Definition denseIndexer : Indexer :=
  let v := mkVectorConfig 2 L2 None defaultVectorField in
  mkIndexer (mkClient 0)
    (mkIndexerConfig (Some (mkClient 0)) None defaultCollection defaultDescription
       "main" ConsistencyLevelDefault false (Some v) None
       (Some (defaultDocumentConverter (codec := exampleSonic) (Some v) None))
       (Some onesEmbedder) [] ∅).

End IndexerExamples.

Module SearchModeExamples.
Import Milvus2Retriever SearchMode.

(** The configuration, the query vector [{0.1, 0.2, 0.3}] and the hybrid
    mode of the repository's test "test with custom TopK override": the
    configured [TopK] is 10, the mode's own [TopK] is 50. *)
Definition conf10 : Config :=
  mkRetrieverConfig None None "test_collection" [] "vector" "" ["id"; "content"]
    10 ConsistencyLevelDefault None None None.

Definition queryVector3 : list float32 :=
  [ S754_finite false 13421773 (-27); S754_finite false 13421773 (-26);
    S754_finite false 10066330 (-25) ].

Definition hybridTop50 : Hybrid :=
  mkHybrid [ mkSubRequest "vector" L2 10 ∅ DenseVector;
             mkSubRequest "vector2" IP 5 ∅ DenseVector ]
           (Some NewRRFReranker) 50.

(** The [TopK] given for one call: the value of the last [WithTopK] among
    the options, if there is one. *)
Definition perCallTopK (opts : list Option_) : option Z :=
  last (omap (λ o, match o with WithTopK k => Some k | _ => None end) opts).

(** An answer of [Next] that carries a batch: no error, a non-zero
    [ResultCount], and documents that the converter accepts. *)
Definition batchOf (conf : Config) (r : result ResultSet) (docs : list Document)
  : Prop :=
  ∃ res, r = Ok res ∧ ResultCount res ≠ 0 ∧ callDocumentConverter conf res = Ok docs.

(** An answer of [Next] that ends the traversal: [io.EOF] (possibly
    wrapped), or a batch whose [ResultCount] is 0. *)
Definition stopsIteration (r : result ResultSet) : Prop :=
  match r with
  | Err err => errors_Is_EOF err = true
  | Ok res => ResultCount res = 0
  end.

(** A backend whose searches are scripted: the world is the iterator the
    next [SearchIterator] call hands out; the other searches find nothing. *)
Definition scriptedSearch : MilvusSearch SearchIterator_ :=
  {| Search := λ _ _ w, (Ok [], w);
     Query := λ _ _ w, (Ok (mkResultSet 0 [] []), w);
     HybridSearch := λ _ _ w, (Ok [], w);
     SearchIterator := λ _ _ w, (Ok w, []) |}.

Definition docNamed (id : string) : Document := mkDocument id "" ∅.

(** A converter that names one document per row after the row count of
    its batch, an embedder that returns one vector, and a configuration
    using both. *)
Definition countingConverter : Converter :=
  λ res, Ok (replicate (Z.to_nat (ResultCount res))
                       (docNamed (fmt_d (ResultCount res)))).

Definition unitEmbedder : Embedder := λ texts, Ok [[S754_finite false 1 0]].

Definition iterConf : Config :=
  mkRetrieverConfig None (Some exampleClientConfig) "docs" [] "vector"
    "sparse_vector" ["*"] 10 ConsistencyLevelDefault
    (Some (ModeIterator (NewIterator "" 0))) (Some countingConverter)
    (Some unitEmbedder).

(** Two batches, an empty batch, and one more batch that is never asked
    for. *)
Definition twoBatches : SearchIterator_ :=
  [ Ok (mkResultSet 2 [] []); Ok (mkResultSet 1 [] []);
    Ok (mkResultSet 0 [] []); Ok (mkResultSet 3 [] []) ].

(** The same configuration with another embedder. *)
Definition with_Embedding (emb : option Embedder) (conf : Config) : Config :=
  mkRetrieverConfig (Client_ conf) (ClientConfig_ conf) (Collection conf)
    (Partitions conf) (VectorField conf) (SparseVectorField conf)
    (OutputFields conf) (TopK conf) (ConsistencyLevel_ conf) (SearchMode conf)
    (DocumentConverter conf) emb.

(** The modes that search with the embedding of the query. *)
Definition embedsQuery (m : Mode) : bool :=
  match m with
  | ModeApproximate _ | ModeRange _ | ModeHybrid _ | ModeIterator _ => true
  | ModeSparse _ | ModeScalar _ => false
  end.

(** The documents of a search: those of the first result set. *)
Definition firstResultSet (conf : Config) (results : list ResultSet)
  : result (list Document) :=
  match head results with
  | Some r => callDocumentConverter conf r
  | None => Ok []
  end.

End SearchModeExamples.

Module RetrieverExamples.
Import Milvus2Retriever.

(** Field [g] may write the metadata key [key] of row [i]: it bears that
    name, or it is the metadata field and its JSON object has the key. *)
Definition writesKey {codec : Sonic} (i : Z) (key : string) (g : ResultField) : Prop :=
  ResultField_Name g = key ∨
  (ResultField_Name g = defaultMetadataField ∧
   ∃ b meta, ResultField_Get g i = Ok (AnyBytes b) ∧
             sonic_Unmarshal b = Ok meta ∧ key ∈ dom meta).

(** A VarChar column and an Int64 column of a result set; the latter has
    no string form. *)
Definition outOfRange {A} : result A := Err (errorString "index out of range").

Definition varCharColumn (name : string) (vals : list string) : ResultField :=
  mkResultField name
    (λ i, if decide (0 ≤ i) then
            match vals !! Z.to_nat i with
            | Some s => Ok (AnyString s)
            | None => outOfRange
            end
          else outOfRange)
    (λ i, if decide (0 ≤ i) then
            match vals !! Z.to_nat i with
            | Some s => Ok s
            | None => outOfRange
            end
          else outOfRange).

Definition int64Column (name : string) (vals : list Z) : ResultField :=
  mkResultField name
    (λ i, if decide (0 ≤ i) then
            match vals !! Z.to_nat i with
            | Some z => Ok (AnyInt z)
            | None => outOfRange
            end
          else outOfRange)
    (λ _, Err (errorString "not a string column")).

(** Two rows with an id, a content and a page number; one score only. *)
Definition twoRows : ResultSet :=
  mkResultSet 2 [S754_finite false 3 (-2)]
    [ varCharColumn "id" ["a"; "b"];
      varCharColumn "content" ["alpha"; "beta"];
      int64Column "page" [4; 9] ].

(** One row with a score and an output field named [_score]. *)
Definition scoreShadowed : ResultSet :=
  mkResultSet 1 [S754_finite false 3 (-2)] [ varCharColumn "_score" ["oops"] ].

(** A JSON column of a result set. *)
Definition jsonColumn (name : string) (vals : list bytes) : ResultField :=
  mkResultField name
    (λ i, if decide (0 ≤ i) then
            match vals !! Z.to_nat i with
            | Some b => Ok (AnyBytes b)
            | None => outOfRange
            end
          else outOfRange)
    (λ _, Err (errorString "not a string column")).

(** The field [f] of a result set gives back what the column [col] of an
    upsert holds: it has the column's name and, row by row, its values. *)
Definition readsBack (col : Column) (f : ResultField) : Prop :=
  match col with
  | NewColumnVarChar name vals =>
      ResultField_Name f = name ∧
      ∀ (i : nat) s, vals !! i = Some s →
        ResultField_Get f (Z.of_nat i) = Ok (AnyString s)
  | NewColumnJSONBytes name vals =>
      ResultField_Name f = name ∧
      ∀ (i : nat) b, vals !! i = Some b →
        ResultField_Get f (Z.of_nat i) = Ok (AnyBytes b)
  | _ => False
  end.

End RetrieverExamples.

(** ** Recording the calls on the backend *)

(** One call on the backend with its answer. *)
Inductive Event : Type :=
| EvNew (cfg : ClientConfig) (r : result Client)
| EvHasCollection (cli : Client) (collection : string) (r : result bool)
| EvCreateCollection (cli : Client) (opt : CreateCollectionOption) (r : result unit)
| EvGetLoadState (cli : Client) (collection : string) (r : result LoadStateCode)
| EvDescribeIndex (cli : Client) (collection field : string) (r : result unit)
| EvCreateIndex (cli : Client) (collection field : string) (idx : Index)
    (r : result Task)
| EvLoadCollection (cli : Client) (collection : string) (r : result Task)
| EvAwait (task : Task) (r : result unit).

(** The same call, with its answer appended to the log kept beside the
    world. *)
Definition recorded {W A} (ev : result A → Event) (m : IO W A)
  : IO (W * list Event) A :=
  λ s, let '(r, w') := m s.1 in (r, (w', s.2 ++ [ev r])).

(** A backend that behaves like [M] and logs every call. *)
Definition recording {W} (M : Milvus W) : Milvus (W * list Event) :=
  {| milvusclient_New cfg := recorded (EvNew cfg) (milvusclient_New cfg);
     HasCollection cli name := recorded (EvHasCollection cli name) (HasCollection cli name);
     CreateCollection cli opt := recorded (EvCreateCollection cli opt) (CreateCollection cli opt);
     GetLoadState cli name := recorded (EvGetLoadState cli name) (GetLoadState cli name);
     DescribeIndex cli coll field :=
       recorded (EvDescribeIndex cli coll field) (DescribeIndex cli coll field);
     CreateIndex cli coll field idx :=
       recorded (EvCreateIndex cli coll field idx) (CreateIndex cli coll field idx);
     LoadCollection cli name := recorded (EvLoadCollection cli name) (LoadCollection cli name);
     Await task := recorded (EvAwait task) (Await task) |}.

(** [m], started with any log, ends with that log followed by events [evs]
    such that [P r evs] for its result [r]. *)
Definition emits {W A} (m : IO (W * list Event) A)
    (P : result A → list Event → Prop) : Prop :=
  ∀ w log r w' log',
    m (w, log) = (r, (w', log')) → ∃ evs, log' = log ++ evs ∧ P r evs.

Definition isNew (ev : Event) : Prop :=
  match ev with
  | EvNew _ _ => True
  | _ => False
  end.

Definition isCreateCollection (ev : Event) : Prop :=
  match ev with
  | EvCreateCollection _ _ _ => True
  | _ => False
  end.

(** The calls made while a collection is indexed and loaded. *)
Definition isLoadWork (ev : Event) : Prop :=
  match ev with
  | EvDescribeIndex _ _ _ _ | EvCreateIndex _ _ _ _ _
  | EvLoadCollection _ _ _ | EvAwait _ _ => True
  | _ => False
  end.

(** The component's client is the one it was given, and no client was
    created; or it is the one created from the [ClientConfig]. *)
Definition clientChosen (given : option Client) (cfg : option ClientConfig)
    (cli : Client) (log : list Event) : Prop :=
  match given with
  | Some c => cli = c ∧ ∀ ev, ev ∈ log → ¬ isNew ev
  | None => ∃ cf, cfg = Some cf ∧ EvNew cf (Ok cli) ∈ log
  end.

(** The backend has said that the collection exists, and nothing was
    created; or it has said that the collection does not exist, and the
    creation that followed has succeeded. *)
Definition existenceEstablished (cli : Client) (coll : string) (log : list Event)
  : Prop :=
  (EvHasCollection cli coll (Ok true) ∈ log ∧
   (EvHasCollection cli coll (Ok false) ∉ log) ∧
   ∀ ev, ev ∈ log → ¬ isCreateCollection ev) ∨
  (EvHasCollection cli coll (Ok false) ∈ log ∧
   ∃ opt, CreateCollection_Name opt = coll ∧
          EvCreateCollection cli opt (Ok ()) ∈ log).

(** The backend has said that the collection is loaded, or has loaded it
    and the load has been awaited with success. *)
Definition loadEstablished (cli : Client) (coll : string) (log : list Event)
  : Prop :=
  EvGetLoadState cli coll (Ok LoadStateLoaded) ∈ log ∨
  ∃ task, EvLoadCollection cli coll (Ok task) ∈ log ∧ EvAwait task (Ok ()) ∈ log.

(** The index asked for: the one of the configured builder, or the
    default one, for the configured metric. *)
Definition indexOf (builder : option (MetricType → Index))
    (dflt : MetricType → Index) (mt : MetricType) : Index :=
  match builder with
  | Some b => b mt
  | None => dflt mt
  end.

(** The calls that make sure that [field] has an index, with the outcome
    [r]: the index is described and found; or it is not found, and its
    creation is refused; or it is not found, its creation is started, and
    the outcome is that of awaiting the creation. *)
Definition indexEnsured (cli : Client) (coll field : string) (idx : Index)
    (r : result unit) (evs : list Event) : Prop :=
  (r = Ok () ∧ evs = [EvDescribeIndex cli coll field (Ok ())]) ∨
  (∃ e r1, evs = [EvDescribeIndex cli coll field (Err e);
                  EvCreateIndex cli coll field idx r1] ∧
           (∀ task, r1 ≠ Ok task) ∧ ∃ e', r = Err e') ∨
  (∃ e task r2, evs = [EvDescribeIndex cli coll field (Err e);
                       EvCreateIndex cli coll field idx (Ok task);
                       EvAwait task r2] ∧
                (r = Ok () ↔ r2 = Ok ())).

(** The calls that make sure that the configured vector fields have an
    index, with the outcome [r]: the dense field first; the sparse field
    only when the dense one is settled. *)
Definition indexesEnsured (cli : Client) (conf : Milvus2Indexer.IndexerConfig)
    (r : result unit) (evs : list Event) : Prop :=
  ∃ rD evsD evsS,
    evs = evsD ++ evsS ∧
    match Milvus2Indexer.Vector conf with
    | Some v =>
        indexEnsured cli (Milvus2Indexer.Collection conf)
          (Milvus2Indexer.Vector_VectorField v)
          (indexOf (Milvus2Indexer.Vector_IndexBuilder v) Milvus2Indexer.NewAutoIndex
                   (Milvus2Indexer.Vector_MetricType v))
          rD evsD
    | None => rD = Ok () ∧ evsD = []
    end ∧
    match rD with
    | Err _ => r = rD ∧ evsS = []
    | Ok _ =>
        match Milvus2Indexer.Sparse conf with
        | Some sp =>
            indexEnsured cli (Milvus2Indexer.Collection conf)
              (Milvus2Indexer.Sparse_VectorField sp)
              (indexOf (Milvus2Indexer.Sparse_IndexBuilder sp)
                       Milvus2Indexer.NewSparseInvertedIndexBuilder
                       (Milvus2Indexer.Sparse_MetricType sp))
              r evsS
        | None => r = Ok () ∧ evsS = []
        end
    end.

Definition isGetLoadState (ev : Event) : Prop :=
  match ev with
  | EvGetLoadState _ _ _ => True
  | _ => False
  end.

(** An in-memory backend: the collections that exist, those that are
    loaded, the indexed fields, and the number of tasks handed out. *)
Record Store : Type := mkStore {
  collections : gset string;
  loadedCollections : gset string;
  indexedFields : gset (string * string);
  tasks : nat;
}.

Definition inMemory : Milvus Store :=
  {| milvusclient_New cfg := λ st, (Ok (mkClient 0), st);
     HasCollection cli name := λ st, (Ok (bool_decide (name ∈ collections st)), st);
     CreateCollection cli opt := λ st,
       (Ok (), mkStore ({[CreateCollection_Name opt]} ∪ collections st)
                       (loadedCollections st) (indexedFields st) (tasks st));
     GetLoadState cli name := λ st,
       (Ok (if bool_decide (name ∈ loadedCollections st) then LoadStateLoaded
            else LoadStateNotLoad), st);
     DescribeIndex cli coll field := λ st,
       (if bool_decide ((coll, field) ∈ indexedFields st) then Ok ()
        else Err (errorString "index not found"), st);
     CreateIndex cli coll field idx := λ st,
       (Ok (mkTask (tasks st)),
        mkStore (collections st) (loadedCollections st)
                ({[(coll, field)]} ∪ indexedFields st) (S (tasks st)));
     LoadCollection cli name := λ st,
       (Ok (mkTask (tasks st)),
        mkStore (collections st) ({[name]} ∪ loadedCollections st)
                (indexedFields st) (S (tasks st)));
     Await task := λ st, (Ok (), st) |}.

Definition emptyStore : Store := mkStore ∅ ∅ ∅ 0.

Definition exampleLimits : SchemaLimits :=
  {| defaultMaxIDLen := 512; defaultMaxContentLen := 65535 |}.

(** [NewIndexer] for the sparse-only configuration on the in-memory
    backend, started empty and recording. *)
Definition indexerRun : result Milvus2Indexer.Indexer * (Store * list Event) :=
  Milvus2Indexer.NewIndexer (codec := exampleSonic) (limits := exampleLimits)
    (M := recording inMemory) IndexerExamples.sparseOnlyConfig (emptyStore, []).

(** * Properties *)

Module IndexerProofs.
Import Milvus2Indexer IndexerExamples.

Section Validate.
Context {codec : Sonic}.

Lemma addDefaultBM25Function_Sparse c :
  Sparse (addDefaultBM25Function c) = Sparse c.
Proof.
  unfold addDefaultBM25Function.
  destruct (Sparse c) as [sp|] eqn:E; [|done].
  repeat case_match; simpl; done.
Qed.

(** What a successful [validate] returns, field by field. *)
Lemma validate_Ok c c' :
  validate c = Ok c' →
  Sparse c' = sparseDefaults <$> Sparse c ∧
  Vector c' = denseDefaults <$> Vector c ∧
  Functions c' =
    match sparseDefaults <$> Sparse c with
    | Some sp =>
        if decide (Method sp = SparseMethodAuto) then
          if hasSparseFunc (Functions c) (Sparse_VectorField sp) then Functions c
          else Functions c ++ [bm25Fn (Sparse_VectorField sp)]
        else Functions c
    | None => Functions c
    end.
Proof.
  unfold validate. intros Hv.
  repeat (case_match; try discriminate); simplify_eq; simpl in *;
    unfold addDefaultBM25Function, with_DocumentConverter, with_Functions in *;
    simpl in *;
    destruct (Sparse c) as [sp|]; simpl in *; try discriminate;
    repeat (case_match; simpl in *; try discriminate; simplify_eq); done.
Qed.

(** C1: with a sparse section whose [Method] is empty, a successful
    [validate] resolves [Method] to [SparseMethodAuto] when the resolved
    metric is [BM25] and to [SparseMethodPrecomputed] otherwise; an empty
    metric is first defaulted to [BM25], so that a section setting neither
    resolves to [SparseMethodAuto]; a non-empty [Method] is kept. *)
Theorem validate_resolves_sparse_method (c c' : IndexerConfig) (sp : SparseVectorConfig) :
  Sparse c = Some sp →
  validate c = Ok c' →
  ∃ sp', Sparse c' = Some sp' ∧
    Sparse_MetricType sp' =
      (if decide (Sparse_MetricType sp = "") then BM25 else Sparse_MetricType sp) ∧
    (Method sp = "" →
       Method sp' = if decide (Sparse_MetricType sp' = BM25)
                    then SparseMethodAuto else SparseMethodPrecomputed) ∧
    (Method sp = "" → Sparse_MetricType sp = "" → Method sp' = SparseMethodAuto) ∧
    (Method sp ≠ "" → Method sp' = Method sp).
Proof.
  intros Hsp Hv. apply validate_Ok in Hv as (Hs & _ & _).
  rewrite Hsp in Hs. simpl in Hs.
  exists (sparseDefaults sp). split; [done|].
  unfold sparseDefaults; simpl.
  repeat split; intros; repeat case_decide; try done.
Qed.

Lemma hasSparseFunc_true fns field :
  hasSparseFunc fns field = true ↔
  ∃ fn, fn ∈ fns ∧ field ∈ OutputFieldNames fn.
Proof.
  unfold hasSparseFunc. rewrite existsb_exists. split.
  - intros (fn & Hin & Hout). apply existsb_exists in Hout as (o & Ho & Heq).
    apply bool_decide_eq_true in Heq. subst o.
    exists fn. split; by apply list_elem_of_In.
  - intros (fn & Hin & Hout). exists fn. split; [by apply list_elem_of_In|].
    apply existsb_exists. exists field. split; [by apply list_elem_of_In|].
    by apply bool_decide_eq_true.
Qed.

(** C2: after a successful [validate] with a sparse section whose method is
    [SparseMethodAuto], some function of [Functions] outputs the sparse
    field; the BM25 function [bm25_auto] (content field in, sparse field
    out) is appended to the user's functions exactly when none of them
    outputs that field, and they are kept as they are otherwise; with
    [SparseMethodPrecomputed] no function is added. *)
Theorem validate_default_bm25_function (c c' : IndexerConfig) (sp' : SparseVectorConfig) :
  validate c = Ok c' →
  Sparse c' = Some sp' →
  let field := Sparse_VectorField sp' in
  let supplied := ∃ fn, fn ∈ Functions c ∧ field ∈ OutputFieldNames fn in
  (Method sp' = SparseMethodAuto →
     (∃ fn, fn ∈ Functions c' ∧ field ∈ OutputFieldNames fn) ∧
     (¬ supplied →
        Functions c' =
          Functions c ++ [mkFunction "bm25_auto" FunctionTypeBM25
                                     [defaultContentField] [field]]) ∧
     (supplied → Functions c' = Functions c)) ∧
  (Method sp' = SparseMethodPrecomputed → Functions c' = Functions c).
Proof.
  intros Hv Hsp field supplied.
  apply validate_Ok in Hv as (Hs & _ & Hf).
  rewrite Hsp in Hs. rewrite <- Hs in Hf. subst field supplied.
  split.
  - intros Hauto. rewrite decide_True in Hf by done.
    destruct (hasSparseFunc (Functions c) (Sparse_VectorField sp')) eqn:Hhas.
    + pose proof (proj1 (hasSparseFunc_true _ _) Hhas) as Hex.
      rewrite Hf. split; [done|]. split; [intros Hn; by destruct Hn | done].
    + assert (Hno : ¬ ∃ fn, fn ∈ Functions c
                       ∧ Sparse_VectorField sp' ∈ OutputFieldNames fn).
      { intros Hex. apply hasSparseFunc_true in Hex. congruence. }
      rewrite Hf. split; [|split; [done | intros Hex; by destruct Hno]].
      exists (bm25Fn (Sparse_VectorField sp')). split.
      * apply elem_of_app. right. apply list_elem_of_singleton. done.
      * simpl. apply list_elem_of_singleton. done.
  - intros Hpre. rewrite decide_False in Hf; [done|].
    rewrite Hpre. discriminate.
Qed.

End Validate.

Lemma validate_resolves_sparse_method_witness :
  Sparse sparseOnlyConfig = Some (mkSparseVectorConfig None "" "" "") ∧
  validate (codec := exampleSonic) sparseOnlyConfig = Ok sparseOnlyValidated ∧
  ∃ sp', Sparse sparseOnlyValidated = Some sp' ∧
    Sparse_MetricType sp' = BM25 ∧
    (("" : string) = "" →
       Method sp' = if decide (Sparse_MetricType sp' = BM25)
                    then SparseMethodAuto else SparseMethodPrecomputed) ∧
    (("" : string) = "" → ("" : string) = "" → Method sp' = SparseMethodAuto) ∧
    (("" : string) ≠ "" → Method sp' = "").
Proof.
  split; [reflexivity|]. split; [reflexivity|].
  exact (validate_resolves_sparse_method (codec := exampleSonic) sparseOnlyConfig
           sparseOnlyValidated (mkSparseVectorConfig None "" "" "")
           eq_refl eq_refl).
Defined.

Lemma validate_default_bm25_function_witness :
  validate (codec := exampleSonic) sparseOnlyConfig = Ok sparseOnlyValidated ∧
  Functions sparseOnlyValidated =
    [mkFunction "bm25_auto" FunctionTypeBM25 [defaultContentField]
                [defaultSparseVectorField]].
Proof.
  split; [reflexivity|].
  pose proof (validate_default_bm25_function (codec := exampleSonic) sparseOnlyConfig
                sparseOnlyValidated
                (mkSparseVectorConfig None defaultSparseVectorField BM25 SparseMethodAuto)
                eq_refl eq_refl) as [Hauto _].
  destruct (Hauto eq_refl) as (_ & Happend & _).
  apply Happend. intros (fn & Hin & _). inversion Hin.
Defined.

Section SparseEmbedding.

Lemma fillSparse_negative sv indices :
  (∃ k, k ∈ indices ∧ k < 0) → ∃ e, fillSparse sv indices = Err e.
Proof.
  induction indices as [|idx rest IH]; intros (k & Hin & Hneg).
  - inversion Hin.
  - simpl. case_decide; [eauto|].
    apply elem_of_cons in Hin as [->|Hin]; [lia|].
    destruct IH as [e He]; [eauto|]. rewrite He. simpl. eauto.
Qed.

Lemma fillSparse_nonneg sv indices :
  (∀ k, k ∈ indices → 0 ≤ k) →
  fillSparse sv indices =
    Ok (uint32 <$> indices,
        (λ k, to_float32 (default (S754_zero false) (sv !! k))) <$> indices).
Proof.
  induction indices as [|idx rest IH]; intros Hall; [done|].
  simpl. rewrite decide_False by (specialize (Hall idx); set_solver by lia).
  rewrite IH by (intros; apply Hall; set_solver). done.
Qed.

Lemma uint32_small k : 0 ≤ k < 2 ^ 32 → uint32 k = k.
Proof. intros. unfold uint32. by apply Z.mod_small. Qed.

Lemma strictly_ascending (l : list Z) :
  StronglySorted Z.le l → NoDup l → StronglySorted Z.lt l.
Proof.
  induction 1 as [|x l Hs IH Hx]; intros Hnd; [constructor|].
  apply NoDup_cons in Hnd as [Hx' Hnd].
  constructor; [by apply IH|].
  apply Forall_forall. intros y Hy.
  pose proof (proj1 (Forall_forall _ _) Hx y Hy).
  assert (x ≠ y) by (intros ->; done). lia.
Qed.

(** C3, amended: whatever the order in which the map is traversed, an empty
    map gives the embedding with no entries; a map with a negative key gives
    an error; a map whose keys all lie in [[0, 2^32)] gives the map's keys
    in strictly ascending order, each with the [float32] of its weight. *)
Theorem toMilvusSparseEmbedding_sorted (sv : gmap Z float64) (keys : list Z) :
  keys ≡ₚ elements (dom sv) →
  (sv = ∅ → toMilvusSparseEmbedding_range keys sv = Ok (mkSparseEmbedding [] [])) ∧
  ((∃ k, k ∈ dom sv ∧ k < 0) →
     ∃ e, toMilvusSparseEmbedding_range keys sv = Err e) ∧
  ((∀ k, k ∈ dom sv → 0 ≤ k < 2 ^ 32) →
     ∃ emb, toMilvusSparseEmbedding_range keys sv = Ok emb ∧
       StronglySorted Z.lt (positions emb) ∧
       positions emb ≡ₚ elements (dom sv) ∧
       length (values emb) = length (positions emb) ∧
       ∀ i k, positions emb !! i = Some k →
         ∃ w, sv !! k = Some w ∧ values emb !! i = Some (to_float32 w)).
Proof.
  intros Hperm.
  assert (Hsorted : merge_sort Z.le keys ≡ₚ elements (dom sv)).
  { by rewrite merge_sort_Permutation. }
  split; [|split].
  - intros ->. unfold toMilvusSparseEmbedding_range.
    rewrite decide_True by apply map_size_empty. done.
  - intros (k & Hk & Hneg). unfold toMilvusSparseEmbedding_range.
    rewrite decide_False.
    + destruct (fillSparse_negative sv (merge_sort Z.le keys)) as [e He].
      * exists k. split; [|done]. rewrite Hsorted. by apply elem_of_elements.
      * rewrite He. simpl. eauto.
    + intros Hsize. apply map_size_empty_iff in Hsize. subst sv. set_solver.
  - intros Hrange. unfold toMilvusSparseEmbedding_range.
    set (indices := merge_sort Z.le keys) in *.
    assert (Hin : ∀ k, k ∈ indices → 0 ≤ k < 2 ^ 32).
    { intros k Hk. apply Hrange. rewrite Hsorted in Hk. by apply elem_of_elements. }
    assert (Hid : uint32 <$> indices = indices).
    { rewrite <- (list_fmap_id indices) at 2. apply list_fmap_ext.
      intros i k Hk. apply uint32_small, Hin. by eapply list_elem_of_lookup_2. }
    assert (Hres : (if decide (size sv = 0%nat) then NewSliceSparseEmbedding [] []
                    else '(uint32Indices, vals) ← fillSparse sv indices;
                         NewSliceSparseEmbedding uint32Indices vals)
                   = Ok (mkSparseEmbedding indices
                           ((λ k, to_float32 (default (S754_zero false) (sv !! k)))
                              <$> indices))).
    { case_decide as Hsize.
      - apply map_size_empty_iff in Hsize. subst sv.
        rewrite dom_empty_L, elements_empty in Hsorted.
        apply Permutation_nil_r in Hsorted. rewrite Hsorted. done.
      - rewrite fillSparse_nonneg by (intros; by apply Hin).
        simpl. rewrite Hid. unfold NewSliceSparseEmbedding.
        rewrite decide_True by (by rewrite length_fmap). done. }
    rewrite Hres. eexists. split; [done|]. simpl.
    split; [|split; [done|split; [by rewrite length_fmap|]]].
    + apply strictly_ascending.
      * apply StronglySorted_merge_sort; apply _.
      * rewrite Hsorted. apply NoDup_elements.
    + intros i k Hk.
      assert (Hdom : k ∈ dom sv).
      { apply elem_of_elements. rewrite <- Hsorted. by eapply list_elem_of_lookup_2. }
      apply elem_of_dom in Hdom as [w Hw]. exists w. split; [done|].
      rewrite list_lookup_fmap, Hk. cbn [fmap option_fmap option_map].
      unfold float64 in *. by rewrite Hw.
Qed.

End SparseEmbedding.

(** C3 as stated does not hold: the index [2^32], an [int] of a 64-bit
    platform, is not negative, yet the embedding holds position [0] instead
    of the key. *)
Lemma toMilvusSparseEmbedding_wraps_large_index :
  (∀ k, k ∈ dom largeIndexVector → 0 ≤ k) ∧
  (∃ emb, toMilvusSparseEmbedding largeIndexVector = Ok emb ∧ positions emb = [0]) ∧
  ¬ (∃ emb, toMilvusSparseEmbedding largeIndexVector = Ok emb ∧
            positions emb ≡ₚ elements (dom largeIndexVector)).
Proof.
  split; [|split].
  - intros k Hk. unfold largeIndexVector in Hk.
    rewrite dom_singleton_L in Hk. apply elem_of_singleton in Hk. lia.
  - eexists. split; [vm_compute; reflexivity | reflexivity].
  - intros (emb & Hemb & Hperm).
    assert (Hpos : positions emb = [0]).
    { vm_compute in Hemb. by injection Hemb as <-. }
    rewrite Hpos in Hperm. unfold largeIndexVector in Hperm.
    rewrite dom_singleton_L, elements_singleton in Hperm.
    apply Permutation_singleton_r in Hperm. discriminate.
Qed.

Lemma toMilvusSparseEmbedding_sorted_witness :
  ∃ emb, toMilvusSparseEmbedding smallSparseVector = Ok emb ∧
         positions emb = [2; 7; 40].
Proof.
  pose proof (toMilvusSparseEmbedding_sorted smallSparseVector
                (elements (dom smallSparseVector))) as H.
  destruct H as (_ & _ & Hok); [reflexivity|].
  destruct Hok as (emb & Hemb & _).
  - intros k Hk. unfold smallSparseVector in Hk.
    rewrite !dom_insert_L, dom_singleton_L in Hk. set_unfold. lia.
  - exists emb. split; [exact Hemb|].
    unfold toMilvusSparseEmbedding in Hemb.
    vm_compute in Hemb. by injection Hemb as <-.
Defined.

End IndexerProofs.

Module SearchModeProofs.
Import Milvus2Retriever SearchMode SearchModeExamples.

(** ** The filter expression of the scalar mode *)

(** C6: the expression of [Scalar.BuildQueryOption] is
    ["(" + query + ") and (" + filter + ")"] when the query and the filter
    of the options are both non-empty, the filter alone when only the filter
    is non-empty, and the query unchanged otherwise. *)
Theorem Scalar_BuildQueryOption_expr (s : Scalar) (conf : Config) (query : string)
    (opts : list Option_) :
  let filter := Filter (GetImplSpecificOptions (mkImplOptions "" None) opts) in
  ∃ opt, Scalar_BuildQueryOption s conf query opts = Ok opt ∧
    (query ≠ "" → filter ≠ "" →
       Query_Filter opt = "(" +:+ query +:+ ") and (" +:+ filter +:+ ")") ∧
    (query = "" → filter ≠ "" → Query_Filter opt = filter) ∧
    (filter = "" → Query_Filter opt = query).
Proof.
  intros filter. unfold Scalar_BuildQueryOption. eexists. split; [done|].
  fold filter. simpl. repeat split; intros; repeat case_decide; done.
Qed.

(** The filter of the options is the one of the last [WithFilter]. *)
Lemma GetImplSpecificOptions_last_filter base opts f :
  Filter (GetImplSpecificOptions base (opts ++ [WithFilter f])) = f.
Proof. unfold GetImplSpecificOptions. by rewrite foldl_app. Qed.

(** ** The builders that refuse *)

Lemma buildAnnRequests_dense_empty conf io query reqs :
  (∃ req, req ∈ reqs ∧ SubRequest_VectorType req ≠ SparseVector) →
  ∃ e, buildAnnRequests conf io [] query reqs = Err e.
Proof.
  induction reqs as [|req rest IH]; intros (r & Hin & Hdense).
  - inversion Hin.
  - simpl. unfold buildAnnRequest.
    destruct (decide (SubRequest_VectorType req = SparseVector)) as [Hsp|Hd].
    + apply elem_of_cons in Hin as [->|Hin]; [done|].
      destruct IH as [e He]; [eauto|]. simpl. rewrite He. simpl. eauto.
    + simpl. eauto.
Qed.

(** C9: [Hybrid.BuildHybridSearchOption] returns an error with fewer than
    two sub-requests, and with an empty query vector as soon as one
    sub-request is a dense one; [Hybrid.BuildSearchOption] and
    [Iterator.BuildSearchOption] return an error whatever they are given. *)
Theorem hybrid_iterator_builders_refuse :
  (∀ h conf queryVector query opts,
     (length (SubRequests h) < 2)%nat →
     ∃ e, Hybrid_BuildHybridSearchOption h conf queryVector query opts = Err e) ∧
  (∀ h conf query opts req,
     req ∈ SubRequests h → SubRequest_VectorType req ≠ SparseVector →
     ∃ e, Hybrid_BuildHybridSearchOption h conf [] query opts = Err e) ∧
  (∀ h conf queryVector opts,
     ∃ e, Hybrid_BuildSearchOption h conf queryVector opts = Err e) ∧
  (∀ i conf queryVector opts,
     ∃ e, Iterator_BuildSearchOption i conf queryVector opts = Err e).
Proof.
  repeat split.
  - intros h conf qv q opts Hlen. unfold Hybrid_BuildHybridSearchOption.
    rewrite decide_True by done. eauto.
  - intros h conf q opts req Hin Hdense. unfold Hybrid_BuildHybridSearchOption.
    case_decide; [eauto|].
    destruct (buildAnnRequests_dense_empty conf
                (GetImplSpecificOptions (mkImplOptions "" None) opts) q
                (SubRequests h)) as [e He]; [eauto|].
    rewrite He. simpl. eauto.
  - intros. unfold Hybrid_BuildSearchOption. eauto.
  - intros. unfold Iterator_BuildSearchOption. eauto.
Qed.

(** ** The iterator mode *)

Lemma iterate_batches conf pre batches : ∀ rest acc,
  Forall2 (batchOf conf) pre batches →
  iterate conf (pre ++ rest) acc = iterate conf rest (acc ++ concat batches).
Proof.
  intros rest acc Hb. revert acc.
  induction Hb as [|r docs pre batches (res & -> & Hcount & Hconv) _ IH]; intros acc.
  - simpl. by rewrite app_nil_r.
  - simpl. rewrite decide_False by done. rewrite Hconv.
    rewrite IH. by rewrite <- app_assoc.
Qed.

Lemma iterate_stop conf stop rest acc :
  stopsIteration stop → iterate conf (stop :: rest) acc = (Ok acc, rest).
Proof.
  destruct stop as [res|err]; simpl; intros Hstop.
  - by rewrite decide_True.
  - by rewrite Hstop.
Qed.

(** One turn of the loop, in terms of [Next]. *)
Lemma iterate_Next conf iterator allDocs :
  iterate conf iterator allDocs =
    match Next iterator with
    | (Err err, rest) =>
        if errors_Is_EOF err then (Ok allDocs, rest)
        else (wrapErr "iterator next failed" (Err err), rest)
    | (Ok res, rest) =>
        if decide (ResultCount res = 0) then (Ok allDocs, rest)
        else
          match callDocumentConverter conf res with
          | Err err => (wrapErr "failed to convert batch results" (Err err), rest)
          | Ok batchDocs => iterate conf rest (allDocs ++ batchDocs)
          end
    end.
Proof. destruct iterator as [|[res|err] rest]; reflexivity. Qed.

Section IteratorRetrieve.
Context {W : Type} {M : MilvusSearch W}.

Lemma Iterator_Retrieve_run i cli conf query opts w queryVector iterOpt cursor w' :
  EmbedQuery (Embedding conf) query = Ok queryVector →
  Iterator_BuildSearchIteratorOption i conf queryVector opts = Ok iterOpt →
  SearchIterator cli iterOpt w = (Ok cursor, w') →
  Iterator_Retrieve i cli conf query opts w = (fst (iterate conf cursor []), w').
Proof.
  intros Hq Hopt Hit. unfold Iterator_Retrieve.
  destruct (Embedding conf) as [e|] eqn:He; [|discriminate].
  cbn [isNil]. unfold mbind, IO_bind, liftResult, wrapIO.
  rewrite Hq. cbn beta iota. rewrite Hopt. cbn beta iota delta [wrapErr].
  rewrite Hit. reflexivity.
Qed.

(** C5: [Iterator.Retrieve] fails when the configured [Embedding] is nil.
    Otherwise, once the query is embedded and the backend has handed out
    its iterator, let the answers of [Next] begin with the batches [pre]
    (no error, non-zero count, converted to [batches]):
    - if the next answer is [io.EOF] or a batch of count 0, or if there is
      no further answer, the result is the concatenation of [batches] in
      order, and [Next] has been called exactly once after the last batch;
    - if the next answer is another error, or a batch that the converter
      refuses, the result is an error and no documents. *)
Theorem Iterator_Retrieve_concatenates (i : Iterator) (cli : Client) (conf : Config)
    (query : string) (opts : list Option_) (w : W) :
  (Embedding conf = None →
     ∃ err, Iterator_Retrieve i cli conf query opts w = (Err err, w)) ∧
  ∀ queryVector iterOpt pre rest w' batches,
    EmbedQuery (Embedding conf) query = Ok queryVector →
    Iterator_BuildSearchIteratorOption i conf queryVector opts = Ok iterOpt →
    SearchIterator cli iterOpt w = (Ok (pre ++ rest), w') →
    Forall2 (batchOf conf) pre batches →
    ((rest = [] ∨ ∃ stop, head rest = Some stop ∧ stopsIteration stop) →
       Iterator_Retrieve i cli conf query opts w = (Ok (concat batches), w') ∧
       iterate conf (pre ++ rest) [] = (Ok (concat batches), tail rest)) ∧
    (∀ err, head rest = Some (Err err) → errors_Is_EOF err = false →
       ∃ err', Iterator_Retrieve i cli conf query opts w = (Err err', w') ∧
               iterate conf (pre ++ rest) [] = (Err err', tail rest)) ∧
    (∀ res err, head rest = Some (Ok res) → ResultCount res ≠ 0 →
       callDocumentConverter conf res = Err err →
       ∃ err', Iterator_Retrieve i cli conf query opts w = (Err err', w') ∧
               iterate conf (pre ++ rest) [] = (Err err', tail rest)).
Proof.
  split.
  - intros Hnil. unfold Iterator_Retrieve. rewrite Hnil. simpl.
    unfold liftResult. eauto.
  - intros queryVector iterOpt pre rest w' batches Hq Hopt Hit Hb.
    rewrite (Iterator_Retrieve_run _ _ _ _ _ _ _ _ _ _ Hq Hopt Hit).
    rewrite (iterate_batches _ _ _ rest [] Hb). simpl.
    split; [|split].
    + intros [->|(stop & Hhd & Hstop)]; [done|].
      destruct rest as [|r rest]; [discriminate|]. injection Hhd as ->.
      by rewrite iterate_stop.
    + intros err Hhd Hnot.
      destruct rest as [|r rest]; [discriminate|]. injection Hhd as ->.
      simpl. rewrite Hnot. destruct err; simpl in *; try discriminate; eauto.
    + intros res err Hhd Hcount Hconv.
      destruct rest as [|r rest]; [discriminate|]. injection Hhd as ->.
      simpl. rewrite decide_False by done. rewrite Hconv.
      destruct err; simpl; eauto.
Qed.

End IteratorRetrieve.

(** The scripted traversal: three documents from the first two batches,
    the fourth answer untouched. *)
Lemma Iterator_Retrieve_concatenates_witness :
  Iterator_Retrieve (M := scriptedSearch) (NewIterator "" 0) (mkClient 0) iterConf
      "query" [] twoBatches
    = (Ok [docNamed "2"; docNamed "2"; docNamed "1"], []) ∧
  iterate iterConf twoBatches []
    = (Ok [docNamed "2"; docNamed "2"; docNamed "1"], [Ok (mkResultSet 3 [] [])]).
Proof.
  pose proof (Iterator_Retrieve_concatenates (M := scriptedSearch)
                (NewIterator "" 0) (mkClient 0) iterConf "query" [] twoBatches)
    as [_ Hrun].
  destruct (Hrun (to_float32_slice [S754_finite false 1 0])
              (mkSearchIteratorOption "docs"
                 (FloatVector (to_float32_slice [S754_finite false 1 0]))
                 "vector" 100 ["*"] 10 {["metric_type" := ParamString "L2"]}
                 [] "" None None)
              [Ok (mkResultSet 2 [] []); Ok (mkResultSet 1 [] [])]
              [Ok (mkResultSet 0 [] []); Ok (mkResultSet 3 [] [])]
              []
              [[docNamed "2"; docNamed "2"]; [docNamed "1"]])
    as (Hend & _ & _).
  - reflexivity.
  - vm_compute. reflexivity.
  - reflexivity.
  - constructor; [|constructor; [|constructor]];
      (eexists; split; [reflexivity|]; split; [discriminate | reflexivity]).
  - apply Hend. right. eexists. split; reflexivity.
Defined.

(** ** The result limit *)

Lemma perCallTopK_snoc opts o :
  perCallTopK (opts ++ [o]) =
    match o with
    | WithTopK k => Some k
    | _ => perCallTopK opts
    end.
Proof.
  unfold perCallTopK. rewrite omap_app. simpl.
  destruct o; simpl; rewrite ?app_nil_r; try done.
  by rewrite last_snoc.
Qed.

Lemma GetCommonOptions_TopK base opts :
  Options_TopK (GetCommonOptions base opts) =
    match perCallTopK opts with
    | Some k => Some k
    | None => Options_TopK base
    end.
Proof.
  unfold GetCommonOptions.
  induction opts as [|o opts IH] using rev_ind; [done|].
  rewrite foldl_app, perCallTopK_snoc. simpl.
  destruct o; simpl; try exact IH. done.
Qed.

(** The limit every builder computes from the options of the call. *)
Lemma commonTopK_default conf opts :
  default (TopK conf) (commonTopK conf opts) = default (TopK conf) (perCallTopK opts).
Proof.
  unfold commonTopK. rewrite GetCommonOptions_TopK. simpl.
  by destruct (perCallTopK opts).
Qed.

(** Approximate, range, sparse, scalar and iterator modes: the [TopK] of the
    call if there is one, the configured [TopK] otherwise. *)
Lemma single_vector_modes_limit conf opts :
  let limit := default (TopK conf) (perCallTopK opts) in
  (∀ a qv, Search_Limit <$> Approximate_BuildSearchOption a conf qv opts = Ok limit) ∧
  (∀ r qv, Search_Limit <$> Range_BuildSearchOption r conf qv opts = Ok limit) ∧
  (∀ s q, Search_Limit <$> Sparse_BuildSparseSearchOption s conf q opts = Ok limit) ∧
  (∀ s q, Query_Limit <$> Scalar_BuildQueryOption s conf q opts = Ok limit) ∧
  (∀ i qv, Iter_Limit <$> Iterator_BuildSearchIteratorOption i conf qv opts = Ok limit).
Proof.
  intros limit. subst limit.
  repeat split; intros; simpl; by rewrite commonTopK_default.
Qed.

(** [RetrieverConfig.validate] leaves a positive [TopK]. *)
Lemma validate_TopK_positive {codec : Sonic} {Mode} (c c' : RetrieverConfig Mode) :
  validate c = Ok c' →
  0 < TopK c' ∧ (0 < TopK c → TopK c' = TopK c) ∧ (TopK c ≤ 0 → TopK c' = defaultTopK).
Proof.
  unfold validate. intros Hv.
  repeat (case_match; try discriminate); simplify_eq; simpl;
    unfold defaultTopK; repeat split; intros; lia.
Qed.

(** The hybrid mode: the limit is again the [TopK] of the call or the
    configured one; the mode's own [TopK] does not enter it. *)
Lemma Hybrid_limit_ignores_mode_TopK h conf qv query opts opt :
  Hybrid_BuildHybridSearchOption h conf qv query opts = Ok opt →
  Hybrid_Limit opt = default (TopK conf) (perCallTopK opts).
Proof.
  unfold Hybrid_BuildHybridSearchOption. intros Hb.
  case_decide; [discriminate|].
  destruct (buildAnnRequests _ _ _ _ _) as [reqs|e]; [|discriminate].
  simpl in Hb. injection Hb as <-. simpl.
  rewrite GetCommonOptions_TopK. simpl. by destruct (perCallTopK opts).
Qed.

(** C10 at the failing input, the one of the repository's test "test with
    custom TopK override": a hybrid mode whose [TopK] is 50, a
    configuration whose [TopK] is 10 and no option for the call; the limit
    sent to the backend is 10, not the mode's 50. *)
Theorem Hybrid_TopK_is_overridden :
  Hybrid_TopK hybridTop50 = 50 ∧
  TopK conf10 = 10 ∧
  perCallTopK [] = None ∧
  ∃ opt, Hybrid_BuildHybridSearchOption hybridTop50 conf10 queryVector3 "" [] = Ok opt ∧
         Hybrid_Limit opt = 10.
Proof.
  repeat split. eexists. split; [vm_compute; reflexivity | reflexivity].
Qed.

End SearchModeProofs.

Module ConversionProofs.
Import Milvus2Indexer.

(** ** [EmbedQuery] *)

Lemma EmbedQuery_Ok emb query out :
  SearchMode.EmbedQuery emb query = Ok out ↔
  ∃ e v, emb = Some e ∧ e [query] = Ok [v] ∧ out = to_float32 <$> v.
Proof.
  unfold SearchMode.EmbedQuery. split.
  - destruct emb as [e|]; [|discriminate].
    destruct (e [query]) as [vs|err] eqn:He; simpl.
    + destruct vs as [|v [|? ?]]; try discriminate.
      intros [= <-]. by exists e, v.
    + destruct err; discriminate.
  - intros (e & v & -> & He & ->). by rewrite He.
Qed.

Lemma EmbedQuery_Err emb query :
  (∃ err, SearchMode.EmbedQuery emb query = Err err) ↔
  emb = None ∨
  ∃ e, emb = Some e ∧
    ((∃ err, e [query] = Err err) ∨
     (∃ vs, e [query] = Ok vs ∧ length vs ≠ 1%nat)).
Proof.
  unfold SearchMode.EmbedQuery. split.
  - intros [err Herr]. destruct emb as [e|]; [right|by left].
    exists e. split; [done|].
    destruct (e [query]) as [vs|err'] eqn:He; [right|left; eauto].
    exists vs. split; [done|].
    destruct vs as [|v [|? ?]]; simpl in *; try done.
  - intros [->|(e & -> & [[err He]|(vs & He & Hlen)])]; [eauto| |].
    + rewrite He. destruct err; simpl; eauto.
    + rewrite He. simpl. destruct vs as [|v [|? ?]]; simpl in *; eauto. done.
Qed.

(** ** The indexer's converter *)

Section IndexerConverter.
Context {codec : Sonic}.

Lemma convertDocs_vecs dvf svf vectors n docs : ∀ idx acc acc',
  dvf ≠ "" →
  convertDocs dvf svf vectors n idx docs acc = Ok acc' →
  vecs acc' =
    vecs acc ++ imap (λ j doc, to_float32_slice (sourceVecOf vectors n (idx + j) doc)) docs.
Proof.
  induction docs as [|doc rest IH]; intros idx acc acc' Hd Hc.
  - simpl in *. injection Hc as <-. rewrite app_nil_r.
    reflexivity.
  - cbn [convertDocs] in Hc.
    destruct (decide (dvf ≠ "")) as [_|]; [|done].
    destruct (decide (length (sourceVecOf vectors n idx doc) = 0%nat));
      [discriminate|]. simpl in Hc.
    destruct (if decide (svf ≠ "") then _ else _) as [sv'|]; [|discriminate].
    simpl in Hc.
    destruct (wrapErr _ (sonic_Marshal _)) as [md|]; [|discriminate].
    simpl in Hc. apply IH in Hc; [|done]. simpl in Hc. rewrite Hc.
    rewrite <- app_assoc. f_equal. simpl. f_equal.
    + by rewrite Nat.add_0_r.
    + apply imap_ext. intros j d _. simpl. do 2 f_equal. lia.
Qed.

Lemma convertDocs_missing dvf svf vectors n docs : ∀ idx acc,
  dvf ≠ "" →
  (∃ j doc, docs !! j = Some doc ∧ sourceVecOf vectors n (idx + j) doc = []) →
  ∃ e, convertDocs dvf svf vectors n idx docs acc = Err e.
Proof.
  induction docs as [|doc rest IH]; intros idx acc Hd (j & d & Hj & Hempty).
  - done.
  - cbn [convertDocs].
    destruct (decide (dvf ≠ "")) as [_|]; [|done].
    destruct (decide (length (sourceVecOf vectors n idx doc) = 0%nat)) as [|Hne];
      [simpl; eauto|].
    simpl.
    destruct (if decide (svf ≠ "") then _ else _) as [sv'|]; [|simpl; eauto].
    simpl.
    destruct (wrapErr _ (sonic_Marshal _)) as [md|]; [|simpl; eauto].
    simpl. apply IH; [done|].
    destruct j as [|j]; simpl in Hj.
    + injection Hj as ->. rewrite Nat.add_0_r in Hempty.
      rewrite Hempty in Hne. done.
    + exists j, d. split; [done|].
      replace (S idx + j)%nat with (idx + S j)%nat by lia. done.
Qed.


End IndexerConverter.

End ConversionProofs.

Module RetrieverProofs.
Import Milvus2Retriever RetrieverExamples.

Section ResultConverter.
Context {codec : Sonic}.

Lemma convertField_ID i d g :
  ResultField_Name g ≠ "id" → ID (convertField i d g) = ID d.
Proof. intros Hn. unfold convertField. repeat case_match; done. Qed.

Lemma convertField_Content i d g :
  ResultField_Name g ≠ defaultContentField →
  Content (convertField i d g) = Content d.
Proof. intros Hn. unfold convertField. repeat case_match; done. Qed.

Lemma convertField_MetaData i d g key :
  ¬ writesKey i key g →
  MetaData (convertField i d g) !! key = MetaData d !! key.
Proof.
  intros Hw. unfold convertField.
  destruct (ResultField_Get g i) as [val|] eqn:Hget; [|done].
  repeat case_decide; try (repeat case_match; done).
  - destruct val; try done.
    destruct (sonic_Unmarshal b) as [meta|] eqn:Hun; [|done]. simpl.
    rewrite lookup_union_r; [done|].
    apply not_elem_of_dom. intros Hin. apply Hw. right.
    split; [done|]. eauto.
  - simpl. rewrite lookup_insert_ne; [done|].
    intros Heq. apply Hw. by left.
Qed.

Lemma foldl_convertField_ID i fs : ∀ d,
  (∀ g, g ∈ fs → ResultField_Name g ≠ "id") →
  ID (foldl (convertField i) d fs) = ID d.
Proof.
  induction fs as [|g fs IH]; intros d Hfs; [done|].
  simpl. rewrite IH by (intros; apply Hfs; set_solver).
  apply convertField_ID, Hfs. set_solver.
Qed.

Lemma foldl_convertField_Content i fs : ∀ d,
  (∀ g, g ∈ fs → ResultField_Name g ≠ defaultContentField) →
  Content (foldl (convertField i) d fs) = Content d.
Proof.
  induction fs as [|g fs IH]; intros d Hfs; [done|].
  simpl. rewrite IH by (intros; apply Hfs; set_solver).
  apply convertField_Content, Hfs. set_solver.
Qed.

Lemma foldl_convertField_MetaData i fs key : ∀ d,
  (∀ g, g ∈ fs → ¬ writesKey i key g) →
  MetaData (foldl (convertField i) d fs) !! key = MetaData d !! key.
Proof.
  induction fs as [|g fs IH]; intros d Hfs; [done|].
  simpl. rewrite IH by (intros; apply Hfs; set_solver).
  apply convertField_MetaData, Hfs. set_solver.
Qed.

(** C8, amended: for a result set with a non-negative [ResultCount], the
    default converter returns [ResultCount] documents, the [i]-th one made
    from row [i].  Provided no field of the row writes the metadata key
    [_score], the document carries the score [float64(Scores[i])] when [i]
    is below [len(Scores)], as the framework keeps it: under that key of
    [MetaData], where [Score()] reads it; and it has no such key
    otherwise.  For a field whose value for the row is [val], provided no
    later field writes the same target,
    - the field [id] gives the document its [ID] (the string [val], or
      the string form of the value),
    - the content field gives it its [Content] in the same way,
    - every key of the JSON object held by the metadata field is a key
      of [MetaData] with the same value,
    - any other field is stored in [MetaData] under its name. *)
Theorem defaultDocumentConverter_rows (res : ResultSet) :
  0 ≤ ResultCount res →
  ∃ docs, defaultDocumentConverter res = Ok docs ∧
    length docs = Z.to_nat (ResultCount res) ∧
    ∀ (i : nat) (doc : Document), docs !! i = Some doc →
      ((∀ g, g ∈ Fields res → ¬ writesKey (Z.of_nat i) docMetaDataKeyScore g) →
       MetaData doc !! docMetaDataKeyScore
         = (λ score, AnyFloat (to_float64 score)) <$> (Scores res !! i) ∧
       ∀ score, Scores res !! i = Some score → Score doc = to_float64 score) ∧
      ∀ before field after val,
        Fields res = before ++ field :: after →
        ResultField_Get field (Z.of_nat i) = Ok val →
        (ResultField_Name field = "id" →
         (∀ g, g ∈ after → ResultField_Name g ≠ "id") →
         ∀ s, val = AnyString s ∨
              ((∀ s', val ≠ AnyString s') ∧
               ResultField_GetAsString field (Z.of_nat i) = Ok s) →
              ID doc = s) ∧
        (ResultField_Name field = defaultContentField →
         (∀ g, g ∈ after → ResultField_Name g ≠ defaultContentField) →
         ∀ s, val = AnyString s ∨
              ((∀ s', val ≠ AnyString s') ∧
               ResultField_GetAsString field (Z.of_nat i) = Ok s) →
              Content doc = s) ∧
        (ResultField_Name field = defaultMetadataField →
         ∀ b meta k v,
           val = AnyBytes b → sonic_Unmarshal b = Ok meta → meta !! k = Some v →
           (∀ g, g ∈ after → ¬ writesKey (Z.of_nat i) k g) →
           MetaData doc !! k = Some v) ∧
        (ResultField_Name field ≠ "id" →
         ResultField_Name field ≠ defaultContentField →
         ResultField_Name field ≠ defaultMetadataField →
         (∀ g, g ∈ after → ¬ writesKey (Z.of_nat i) (ResultField_Name field) g) →
         MetaData doc !! ResultField_Name field = Some val).
Proof.
  intros Hcount. unfold defaultDocumentConverter.
  rewrite decide_False by lia. eexists. split; [done|].
  split; [by rewrite length_fmap, length_seq|].
  intros i doc Hdoc.
  rewrite list_lookup_fmap in Hdoc.
  destruct (seq 0 (Z.to_nat (ResultCount res)) !! i) as [j|] eqn:Hseq;
    [|discriminate].
  apply lookup_seq in Hseq as [-> _]. simpl in Hdoc. injection Hdoc as <-.
  unfold convertRow. split.
  - intros Hnone.
    assert (Hkey : MetaData (foldl (convertField (Z.of_nat i))
                      match Scores res !! i with
                      | Some score => WithScore (to_float64 score) (mkDocument "" "" ∅)
                      | None => mkDocument "" "" ∅
                      end (Fields res)) !! docMetaDataKeyScore
                   = (λ score, AnyFloat (to_float64 score)) <$> (Scores res !! i)).
    { rewrite foldl_convertField_MetaData by done.
      destruct (Scores res !! i) as [score|]; simpl; [|done].
      by rewrite lookup_insert_eq. }
    split; [exact Hkey|].
    intros score Hscore. unfold Score. rewrite Hkey, Hscore. done.
  - intros before field after val Hfields Hget. rewrite Hfields.
    rewrite foldl_app. simpl.
    set (d := foldl (convertField (Z.of_nat i)) _ before).
    assert (Hdiff : defaultContentField ≠ "id" ∧ defaultMetadataField ≠ "id"
                    ∧ defaultMetadataField ≠ defaultContentField) by done.
    destruct Hdiff as (Hci & Hmi & Hmc).
    split; [|split; [|split]].
    + intros Hname Hafter s Hval. rewrite foldl_convertField_ID by done.
      unfold convertField. rewrite Hget, decide_True by done.
      destruct Hval as [->|[Hns Hstr]]; [done|].
      rewrite Hstr. destruct val; try done. by destruct (Hns s0).
    + intros Hname Hafter s Hval. rewrite foldl_convertField_Content by done.
      unfold convertField. rewrite Hget, Hname.
      rewrite decide_False by done. rewrite decide_True by done.
      destruct Hval as [->|[Hns Hstr]]; [done|].
      rewrite Hstr. destruct val; try done. by destruct (Hns s0).
    + intros Hname b meta k v -> Hun Hk Hafter.
      rewrite foldl_convertField_MetaData by done.
      unfold convertField. rewrite Hget, Hname.
      rewrite !decide_False by done. rewrite decide_True by done.
      rewrite Hun. simpl. by apply lookup_union_Some_l.
    + intros Hni Hnc Hnm Hafter.
      rewrite foldl_convertField_MetaData by done.
      unfold convertField. rewrite Hget.
      rewrite !decide_False by done. simpl. by rewrite lookup_insert_eq.
Qed.

End ResultConverter.

(** C8 as stated does not hold: the row has a score, [0 < len(Scores)],
    but its field [_score] is written into [MetaData] after the score, so
    the document carries the field's value where the framework keeps the
    score, and [Score()] gives 0. *)
Lemma defaultDocumentConverter_score_overwritten :
  (0 < length (Scores scoreShadowed))%nat ∧
  Scores scoreShadowed !! 0%nat = Some (S754_finite false 3 (-2)) ∧
  ∃ doc, defaultDocumentConverter (codec := exampleSonic) scoreShadowed = Ok [doc] ∧
    MetaData doc !! docMetaDataKeyScore = Some (AnyString "oops") ∧
    Score doc = S754_zero false ∧
    Score doc ≠ to_float64 (S754_finite false 3 (-2)).
Proof.
  split; [simpl; lia|]. split; [reflexivity|].
  eexists. split; [vm_compute; reflexivity|].
  split; [vm_compute; reflexivity|].
  split; [vm_compute; reflexivity|].
  vm_compute. discriminate.
Qed.

Lemma defaultDocumentConverter_rows_witness :
  ∃ docs, defaultDocumentConverter (codec := exampleSonic) twoRows = Ok docs ∧
          length docs = 2%nat ∧
          ∃ doc, docs !! 0%nat = Some doc ∧
                 Score doc = to_float64 (S754_finite false 3 (-2)).
Proof.
  destruct (defaultDocumentConverter_rows (codec := exampleSonic) twoRows)
    as (docs & Hdocs & Hlen & Hrows).
  - simpl. lia.
  - exists docs. split; [exact Hdocs|]. split; [exact Hlen|].
    destruct docs as [|doc docs]; [discriminate Hlen|].
    exists doc. split; [reflexivity|].
    destruct (Hrows 0%nat doc eq_refl) as [Hscore _].
    apply Hscore; [|reflexivity].
    intros g Hg [Hname|(Hname & _)];
      unfold twoRows in Hg; simpl in Hg;
      repeat (apply elem_of_cons in Hg as [->|Hg]; [discriminate Hname|]);
      by apply elem_of_nil in Hg.
Defined.

End RetrieverProofs.

Module ConstructionProofs.

(** ** Runs of backend calls and what they log *)

Section Runs.
Context {S : Type}.

Lemma bind_run {A B} (m : IO S A) (k : A → IO S B) s r s' :
  (m ≫= k) s = (r, s') →
  (∃ e, m s = (Err e, s') ∧ r = Err e) ∨
  (∃ a s1, m s = (Ok a, s1) ∧ k a s1 = (r, s')).
Proof.
  unfold mbind, IO_bind. destruct (m s) as [[a|e] s1]; intros Hrun.
  - right. eauto.
  - left. injection Hrun as <- <-. eauto.
Qed.

Lemma wrapIO_run {A} msg (m : IO S A) s r s' :
  wrapIO msg m s = (r, s') → ∃ r0, m s = (r0, s') ∧ r = wrapErr msg r0.
Proof.
  unfold wrapIO. destruct (m s) as [r0 s1]. intros [= <- <-]. eauto.
Qed.

End Runs.

Lemma wrapErr_Ok {A} msg (r0 : result A) a : wrapErr msg r0 = Ok a → r0 = Ok a.
Proof. destruct r0 as [|[]]; simpl; congruence. Qed.

Lemma wrapErr_Err {A} msg (r0 : result A) e : r0 = Err e → ∃ e', wrapErr msg r0 = Err e'.
Proof. intros ->. destruct e; simpl; eauto. Qed.

Section Emits.
Context {W : Type}.

Lemma emits_consequence {A} (m : IO (W * list Event) A) (P Q : result A → list Event → Prop) :
  emits m P → (∀ r evs, P r evs → Q r evs) → emits m Q.
Proof.
  intros Hm HPQ w log r w' log' Hrun.
  destruct (Hm _ _ _ _ _ Hrun) as (evs & -> & HP). eauto.
Qed.

Lemma emits_ret {A} (a : A) :
  emits (W := W) (mret a) (λ r evs, r = Ok a ∧ evs = []).
Proof.
  intros w log r w' log' [= <- <- <-]. exists []. by rewrite app_nil_r.
Qed.

Lemma emits_liftResult {A} (r0 : result A) :
  emits (W := W) (liftResult r0) (λ r evs, r = r0 ∧ evs = []).
Proof.
  intros w log r w' log' [= <- <- <-]. exists []. by rewrite app_nil_r.
Qed.

Lemma emits_recorded {A} (ev : result A → Event) (m : IO W A) :
  emits (recorded ev m) (λ r evs, evs = [ev r]).
Proof.
  intros w log r w' log'. unfold recorded. simpl.
  destruct (m w) as [r0 w1]. intros [= <- <- <-]. eauto.
Qed.

Lemma emits_wrapIO {A} msg (m : IO (W * list Event) A) P :
  emits m P → emits (wrapIO msg m) (λ r evs, ∃ r0, r = wrapErr msg r0 ∧ P r0 evs).
Proof.
  intros Hm w log r w' log' Hrun.
  apply wrapIO_run in Hrun as (r0 & Hrun & ->).
  destruct (Hm _ _ _ _ _ Hrun) as (evs & -> & HP). eauto.
Qed.

Lemma emits_tryIO {A} (m : IO (W * list Event) A) P :
  emits m P → emits (tryIO m) (λ r evs, ∃ r0, r = Ok r0 ∧ P r0 evs).
Proof.
  intros Hm w log r w' log'. unfold tryIO.
  destruct (m (w, log)) as [r0 [w1 log1]] eqn:Hrun. intros [= <- <- <-].
  destruct (Hm _ _ _ _ _ Hrun) as (evs & -> & HP). eauto.
Qed.

Lemma emits_bind {A B} (m : IO (W * list Event) A) (k : A → IO (W * list Event) B)
    (P : result A → list Event → Prop) (Q : A → result B → list Event → Prop) :
  emits m P → (∀ a, emits (k a) (Q a)) →
  emits (m ≫= k)
    (λ r evs,
       (∃ e, r = Err e ∧ P (Err e) evs) ∨
       (∃ a evs1 evs2, evs = evs1 ++ evs2 ∧ P (Ok a) evs1 ∧ Q a r evs2)).
Proof.
  intros Hm Hk w log r w' log' Hrun.
  apply bind_run in Hrun as [(e & Hrun & ->)|(a & [w1 log1] & Hrun & Hrun')].
  - destruct (Hm _ _ _ _ _ Hrun) as (evs & -> & HP).
    exists evs. split; [done|]. left. eauto.
  - destruct (Hm _ _ _ _ _ Hrun) as (evs1 & -> & HP).
    destruct (Hk a _ _ _ _ _ Hrun') as (evs2 & -> & HQ).
    exists (evs1 ++ evs2). rewrite app_assoc. split; [done|]. right. eauto 10.
Qed.

End Emits.

Section IndexerConstruction.
Import Milvus2Indexer.
Context {codec : Sonic} {limits : SchemaLimits} {W : Type} (B : Milvus W).

Lemma initClient_emits conf :
  emits (initClient (M := recording B) conf)
    (λ r evs,
       match Client_ conf with
       | Some cli => r = Ok cli ∧ evs = []
       | None =>
           match ClientConfig_ conf with
           | Some cfg => ∃ r0, evs = [EvNew cfg r0] ∧ (∀ cli, r = Ok cli → r0 = Ok cli)
           | None => evs = [] ∧ ∃ e, r = Err e
           end
       end).
Proof.
  unfold initClient. destruct (Client_ conf) as [cli|].
  - apply emits_ret.
  - destruct (ClientConfig_ conf) as [cfg|].
    + eapply emits_consequence; [apply emits_wrapIO, emits_recorded|].
      intros r evs (r0 & -> & ->). exists r0. split; [done|].
      intros cli. apply wrapErr_Ok.
    + eapply emits_consequence; [apply emits_liftResult|].
      intros r evs [-> ->]. eauto.
Qed.

Lemma createIndexOn_emits cli coll field idx msg1 msg2 :
  emits (described ← tryIO (DescribeIndex (Milvus := recording B) cli coll field);
         match (described : result unit) with
         | Ok _ => mret ()
         | Err _ =>
             createTask ← wrapIO msg1
                 (CreateIndex (Milvus := recording B) cli coll field idx);
             wrapIO msg2 (Await (Milvus := recording B) createTask)
         end)
    (λ r evs, ∀ ev, ev ∈ evs → isLoadWork ev).
Proof.
  eapply emits_consequence.
  - eapply emits_bind with (Q := λ _ _ evs, ∀ ev, ev ∈ evs → isLoadWork ev);
      [apply emits_tryIO, emits_recorded|].
    intros [?|derr].
    + eapply emits_consequence; [apply emits_ret|]. intros ? ? [_ ->]. set_solver.
    + eapply emits_consequence.
      * eapply emits_bind; [apply emits_wrapIO, emits_recorded|].
        intros task. apply emits_wrapIO, emits_recorded.
      * intros r evs [(e & _ & r1 & _ & ->)
                     |(task & evs3 & evs4 & -> & (r1 & _ & ->) & (r2 & _ & ->))];
          set_unfold; naive_solver.
  - intros r evs [(e & _ & r0 & ? & _)|(d & evs1 & evs2 & -> & (r0 & _ & ->) & Hk)];
      [done|].
    intros ev [?|?]%elem_of_app; [set_unfold; naive_solver | eauto].
Qed.

Lemma createVectorIndex_emits cli field v coll :
  emits (createVectorIndex (M := recording B) cli field v coll)
    (λ r evs, ∀ ev, ev ∈ evs → isLoadWork ev).
Proof. unfold createVectorIndex. apply createIndexOn_emits. Qed.

Lemma createSparseIndex_emits cli sp coll :
  emits (createSparseIndex (M := recording B) cli sp coll)
    (λ r evs, ∀ ev, ev ∈ evs → isLoadWork ev).
Proof. unfold createSparseIndex. apply createIndexOn_emits. Qed.

Lemma createIndex_emits cli conf :
  emits (createIndex (M := recording B) cli conf)
    (λ r evs, ∀ ev, ev ∈ evs → isLoadWork ev).
Proof.
  unfold createIndex. eapply emits_consequence.
  - eapply emits_bind with
      (P := λ r evs, ∀ ev, ev ∈ evs → isLoadWork ev)
      (Q := λ _ r evs, ∀ ev, ev ∈ evs → isLoadWork ev).
    + destruct (Vector conf) as [v|]; [apply createVectorIndex_emits|].
      eapply emits_consequence; [apply emits_ret|]. intros r evs [_ ->]. set_solver.
    + intros _. destruct (Sparse conf) as [sp|]; [apply createSparseIndex_emits|].
      eapply emits_consequence; [apply emits_ret|]. intros r evs [_ ->]. set_solver.
  - intros r evs [(e & _ & Hp)|(a & evs1 & evs2 & -> & Hp & Hq)]; [done|].
    intros ev [?|?]%elem_of_app; eauto.
Qed.

Lemma createCollection_emits cli conf :
  emits (createCollection (M := recording B) cli conf)
    (λ r evs,
       (evs = [] ∧ ∃ e, r = Err e) ∨
       ∃ opt r0, CreateCollection_Name opt = Collection conf ∧
                 evs = [EvCreateCollection cli opt r0] ∧
                 (r = Ok () → r0 = Ok ())).
Proof.
  unfold createCollection. eapply emits_consequence.
  - eapply emits_bind; [apply emits_liftResult|].
    intros sch. apply emits_wrapIO, emits_recorded.
  - intros r evs [(e & -> & _ & ->)|(sch & evs1 & evs2 & -> & [_ ->] & r0 & -> & ->)].
    + left. eauto.
    + right. eexists _, r0. split; [|split; [reflexivity | apply wrapErr_Ok]].
      reflexivity.
Qed.

Lemma loadPart_emits cli conf (loadState : LoadStateCode) :
  emits (if decide (loadState ≠ LoadStateLoaded) then
           createIndex (M := recording B) cli conf;;
           loadTask ← wrapIO "[NewIndexer] failed to load collection"
               (LoadCollection (Milvus := recording B) cli (Collection conf));
           wrapIO "[NewIndexer] failed to await collection load"
               (Await (Milvus := recording B) loadTask)
         else mret ())
    (λ r evs,
       (∀ ev, ev ∈ evs → isLoadWork ev) ∧
       (r = Ok () → loadState ≠ LoadStateLoaded →
          ∃ task, EvLoadCollection cli (Collection conf) (Ok task) ∈ evs ∧
                  EvAwait task (Ok ()) ∈ evs)).
Proof.
  case_decide as Hst.
  - eapply emits_consequence.
    + eapply emits_bind; [apply createIndex_emits|]. intros u.
      eapply emits_bind; [apply emits_wrapIO, emits_recorded|].
      intros task. apply emits_wrapIO, emits_recorded.
    + intros r evs [(e & -> & Hi)|(u & evs1 & evs2 & -> & Hi & Hrest)];
        simpl in *.
      { split; [done|]. discriminate. }
      destruct Hrest as [(e & -> & r0 & _ & ->)
                        |(task & evs3 & evs4 & -> & (r0 & Hr0 & ->) & (r1 & -> & ->))].
      { split; [|discriminate]. intros ev [?|?]%elem_of_app; [eauto|].
        set_unfold. naive_solver. }
      split.
      * intros ev [?|?]%elem_of_app; [eauto|]. set_unfold. naive_solver.
      * intros Hok _. apply wrapErr_Ok in Hok as ->.
        symmetry in Hr0. apply wrapErr_Ok in Hr0 as ->.
        exists task. set_solver.
  - eapply emits_consequence; [apply emits_ret|].
    intros r evs [-> ->]. split; [set_solver|]. intros _ Hne. by destruct Hne.
Qed.

Lemma isLoadWork_not_New ev : isLoadWork ev → ¬ isNew ev.
Proof. destruct ev; simpl; tauto. Qed.

Lemma isLoadWork_not_HasCollection ev cli coll r :
  isLoadWork ev → ev ≠ EvHasCollection cli coll r.
Proof. destruct ev; simpl; try tauto; discriminate. Qed.

Lemma isLoadWork_not_CreateCollection ev : isLoadWork ev → ¬ isCreateCollection ev.
Proof. destruct ev; simpl; tauto. Qed.

Lemma initCollection_emits cli conf :
  emits (initCollection (M := recording B) cli conf)
    (λ r evs,
       (∀ ev, ev ∈ evs → ¬ isNew ev) ∧
       (r = Ok () →
          existenceEstablished cli (Collection conf) evs ∧
          loadEstablished cli (Collection conf) evs) ∧
       (∀ cli' coll' v,
          EvHasCollection cli' coll' (Ok false) ∈ evs →
          Vector conf = Some v → Dimension v ≤ 0 →
          (∃ e, r = Err e) ∧ ∀ ev, ev ∈ evs → ¬ isCreateCollection ev)).
Proof.
  unfold initCollection. eapply emits_consequence.
  - eapply emits_bind; [apply emits_wrapIO, emits_recorded|]. intros has.
    eapply emits_bind with
      (P := λ r evs,
         if has then r = Ok () ∧ evs = []
         else (evs = [] ∧ ∃ e, r = Err e) ∨
              ((∀ v, Vector conf = Some v → 0 < Dimension v) ∧
               ∃ opt r0, CreateCollection_Name opt = Collection conf ∧
                         evs = [EvCreateCollection cli opt r0] ∧
                         (r = Ok () → r0 = Ok ()))).
    + destruct has; [apply emits_ret|].
      destruct (Vector conf) as [v|] eqn:Hv.
      * case_decide as Hdim.
        -- eapply emits_consequence; [apply emits_liftResult|].
           intros r evs [-> ->]. left. eauto.
        -- eapply emits_consequence; [apply createCollection_emits|].
           intros r evs [?|?]; [by left|right]. split; [|done].
           intros v' [= <-]. lia.
      * eapply emits_consequence; [apply createCollection_emits|].
        intros r evs [?|?]; [by left|right]. split; [|done]. intros v' [=].
    + intros u. eapply emits_bind; [apply emits_wrapIO, emits_recorded|].
      intros loadState. apply loadPart_emits.
  - intros r evs Hpost. simpl in Hpost.
    destruct Hpost as [(e & -> & r0 & Hr0 & ->)
                      |(has & evs1 & evs2 & -> & (r0 & Hr0 & ->) & Hpost)].
    { split; [|split].
      - intros ev ->%list_elem_of_singleton. tauto.
      - discriminate.
      - intros cli' coll' v [= _ _ <-]%list_elem_of_singleton. discriminate. }
    symmetry in Hr0. apply wrapErr_Ok in Hr0 as ->.
    destruct Hpost as [(e & -> & HB)|(u & evs3 & evs4 & -> & HB & Hpost)].
    { destruct has; [by destruct HB|].
      split; [|split].
      - intros ev Hev. destruct HB as [[-> _]|(_ & opt & r0 & _ & -> & _)];
          set_unfold; naive_solver.
      - discriminate.
      - intros cli' coll' v _ Hv Hdim. split; [eauto|].
        destruct HB as [[-> _]|(Hpos & _)].
        + set_unfold. naive_solver.
        + specialize (Hpos v Hv). lia. }
    destruct Hpost as [(e & -> & r0 & Hr0 & ->)
                      |(st & evs5 & evs6 & -> & (r0 & Hr0 & ->) & Hwork & Hload)].
    { split; [|split].
      - intros ev Hev. destruct has.
        + destruct HB as [_ ->]. set_unfold. naive_solver.
        + destruct HB as [[-> _]|(_ & opt & r1 & _ & -> & _)];
            set_unfold; naive_solver.
      - discriminate.
      - intros cli' coll' v Hin Hv Hdim. destruct has.
        + destruct HB as [_ ->]. set_unfold. naive_solver.
        + destruct HB as [[_ [e' [=]]]|(Hpos & _)]. specialize (Hpos v Hv). lia. }
    symmetry in Hr0. apply wrapErr_Ok in Hr0 as ->.
    assert (Hnew6 : ∀ ev, ev ∈ evs6 → ¬ isNew ev)
      by (intros; by apply isLoadWork_not_New, Hwork).
    split; [|split].
    + intros ev Hev. destruct has.
      * destruct HB as [_ ->]. set_unfold. naive_solver.
      * destruct HB as [[_ [e' [=]]]|(_ & opt & r1 & _ & -> & _)].
        set_unfold. naive_solver.
    + intros ->. split.
      * destruct has; [left|right].
        -- destruct HB as [_ ->]. split; [set_solver|]. split.
           ++ intros Hin.
              apply elem_of_app in Hin as [Hin|Hin]; [set_solver|].
              apply elem_of_app in Hin as [Hin|Hin]; [set_solver|].
              apply elem_of_app in Hin as [Hin|Hin]; [set_solver|].
              by eapply isLoadWork_not_HasCollection; [apply Hwork, Hin|].
           ++ intros ev Hev.
              apply elem_of_app in Hev as [Hev|Hev];
                [apply list_elem_of_singleton in Hev as ->; simpl; tauto|].
              apply elem_of_app in Hev as [Hev|Hev]; [set_solver|].
              apply elem_of_app in Hev as [Hev|Hev];
                [apply list_elem_of_singleton in Hev as ->; simpl; tauto|].
              by apply isLoadWork_not_CreateCollection, Hwork.
        -- destruct HB as [[_ [e' [=]]]|(_ & opt & r1 & Hname & -> & Hr1)].
           destruct u. rewrite (Hr1 eq_refl). split; [set_solver|].
           exists opt. split; [done|set_solver].
      * destruct (decide (st = LoadStateLoaded)) as [->|Hst]; [left; set_solver|].
        right. destruct (Hload eq_refl Hst) as (task & ? & ?).
        exists task. set_solver.
    + intros cli' coll' v Hin Hv Hdim. destruct has.
      * destruct HB as [_ ->]. exfalso.
        apply elem_of_app in Hin as [Hin|Hin]; [set_solver|].
        apply elem_of_app in Hin as [Hin|Hin]; [set_solver|].
        apply elem_of_app in Hin as [Hin|Hin]; [set_solver|].
        by eapply isLoadWork_not_HasCollection; [apply Hwork, Hin|].
      * destruct HB as [[_ [e' [=]]]|(Hpos & _)]. specialize (Hpos v Hv). lia.
Qed.

Lemma validate_Client conf conf' :
  validate conf = Ok conf' →
  Client_ conf' = Client_ conf ∧ ClientConfig_ conf' = ClientConfig_ conf ∧
  Vector conf' = denseDefaults <$> Vector conf ∧
  ¬ (Client_ conf = None ∧ ClientConfig_ conf = None).
Proof.
  unfold validate. intros Hv.
  destruct (Client_ conf) as [cli|] eqn:Hc, (ClientConfig_ conf) as [cfg|] eqn:Hcfg;
    simpl in Hv; try discriminate;
    repeat (case_match; try discriminate); simplify_eq; simpl;
    unfold addDefaultBM25Function, with_DocumentConverter, with_Functions in *;
    simpl in *; repeat (case_match; simpl in *; simplify_eq);
    repeat split; try done; intros [? ?]; discriminate.
Qed.

Lemma existenceEstablished_after_New cli coll evs1 evs :
  (∀ ev, ev ∈ evs1 → isNew ev) →
  existenceEstablished cli coll evs → existenceEstablished cli coll (evs1 ++ evs ++ []).
Proof.
  intros Hnew [(Htrue & Hfalse & Hnc)|[? (opt & ? & ?)]]; [left|right].
  - split; [set_solver|]. rewrite app_nil_r. split.
    + intros [Hin|Hin]%elem_of_app; [|done]. exact (Hnew _ Hin).
    + intros ev [Hev|Hev]%elem_of_app; [|by apply Hnc].
      apply Hnew in Hev. destruct ev; simpl in *; tauto.
  - split; [set_solver|]. exists opt. set_solver.
Qed.

Lemma loadEstablished_mono cli coll evs1 evs evs2 :
  loadEstablished cli coll evs → loadEstablished cli coll (evs1 ++ evs ++ evs2).
Proof.
  intros [?|(task & ? & ?)]; [left; set_solver|right]. exists task. set_solver.
Qed.

Lemma NewIndexer_emits conf :
  emits (NewIndexer (M := recording B) conf)
    (λ r evs,
       (Client_ conf = None → ClientConfig_ conf = None → ∃ e, r = Err e) ∧
       (∀ idx, r = Ok idx →
          validate conf = Ok (config idx) ∧
          clientChosen (Client_ conf) (ClientConfig_ conf) (client idx) evs ∧
          existenceEstablished (client idx) (Collection (config idx)) evs ∧
          loadEstablished (client idx) (Collection (config idx)) evs) ∧
       (∀ cli coll v,
          EvHasCollection cli coll (Ok false) ∈ evs →
          Vector conf = Some v → Dimension v ≤ 0 →
          (∃ e, r = Err e) ∧ ∀ ev, ev ∈ evs → ¬ isCreateCollection ev)).
Proof.
  unfold NewIndexer. eapply emits_consequence.
  - eapply emits_bind; [apply emits_liftResult|]. intros conf'.
    eapply emits_bind; [apply initClient_emits|]. intros cli.
    eapply emits_bind; [apply initCollection_emits|]. intros u.
    apply emits_ret.
  - intros r evs Hpost. simpl in Hpost.
    destruct Hpost as [(e & -> & Hv & ->)
                      |(conf' & evs0 & evs1 & -> & [Hv ->] & Hpost)].
    { split; [eauto|]. split; [discriminate|]. intros ? ? ? Hin. inversion Hin. }
    symmetry in Hv. pose proof (validate_Client _ _ Hv) as (Hcli & Hcfg & Hvec & Hsome).
    rewrite Hcli, Hcfg in Hpost.
    assert (Hdim : ∀ v, Vector conf = Some v → Dimension v ≤ 0 →
                   ∃ v', Vector conf' = Some v' ∧ Dimension v' ≤ 0).
    { intros v Hvc Hd. rewrite Hvec, Hvc. simpl. eauto. }
    destruct Hpost as [(e & -> & Hclient)
                      |(cli & evs2 & evs3 & -> & Hclient & Hpost)].
    { split; [eauto|]. split; [discriminate|].
      intros cli coll v Hin _ _. exfalso.
      destruct (Client_ conf); [destruct Hclient as [_ ->]; set_solver|].
      destruct (ClientConfig_ conf).
      - destruct Hclient as (r0 & -> & _). set_unfold. naive_solver.
      - destruct Hclient as [-> _]. set_solver. }
    assert (Hnocreate : ∀ ev, ev ∈ evs2 → ¬ isCreateCollection ev).
    { intros ev Hev. destruct (Client_ conf); [destruct Hclient as [_ ->]; set_solver|].
      destruct (ClientConfig_ conf).
      - destruct Hclient as (r0 & -> & _). set_unfold. naive_solver.
      - destruct Hclient as [-> _]. set_solver. }
    assert (Hnohas : ∀ c n b, EvHasCollection c n b ∉ evs2).
    { intros c n b Hev. destruct (Client_ conf); [destruct Hclient as [_ ->]; set_solver|].
      destruct (ClientConfig_ conf).
      - destruct Hclient as (r0 & -> & _). set_unfold. naive_solver.
      - destruct Hclient as [-> _]. set_solver. }
    destruct Hpost as [(e & -> & Hnew & _ & Hfalse)
                      |(u & evs4 & evs5 & -> & (Hnew & Hok & Hfalse) & [-> ->])].
    { split; [eauto|]. split; [discriminate|].
      intros c n v Hin Hvc Hd. destruct (Hdim v Hvc Hd) as (v' & Hv' & Hd').
      assert (Hin' : EvHasCollection c n (Ok false) ∈ evs3).
      { set_unfold. destruct Hin as [Hin|[Hin|Hin]]; [done| |done].
        by destruct (Hnohas _ _ _ Hin). }
      destruct (Hfalse c n v' Hin' Hv' Hd') as [_ Hnc].
      split; [eauto|]. intros ev Hev. set_unfold.
      destruct Hev as [?|[?|?]]; [done|eauto|eauto]. }
    split; [|split].
    + intros Hc1 Hc2. by destruct Hsome.
    + intros idx [= <-]. simpl. split; [done|].
      destruct u. destruct (Hok eq_refl) as [Hex Hld].
      split; [|split].
      * unfold clientChosen.
        destruct (Client_ conf) as [c|].
        -- destruct Hclient as [[= ->] ->]. split; [done|].
           intros ev Hev. apply Hnew. set_solver.
        -- destruct (ClientConfig_ conf) as [cf|].
           ++ destruct Hclient as (r0 & -> & Hr0). rewrite (Hr0 cli eq_refl).
              exists cf. split; [done|set_solver].
           ++ by destruct Hsome.
      * simpl. apply existenceEstablished_after_New; [|done].
        intros ev Hev. destruct (Client_ conf); [destruct Hclient as [_ ->]; set_solver|].
        destruct (ClientConfig_ conf).
        -- destruct Hclient as (r0 & -> & _).
           apply list_elem_of_singleton in Hev as ->. exact I.
        -- destruct Hclient as [-> _]. set_solver.
      * simpl. by apply loadEstablished_mono.
    + intros c n v Hin Hvc Hd. destruct (Hdim v Hvc Hd) as (v' & Hv' & Hd').
      assert (Hin' : EvHasCollection c n (Ok false) ∈ evs4).
      { set_unfold. destruct Hin as [Hin|[Hin|[Hin|Hin]]]; try done.
        by destruct (Hnohas _ _ _ Hin). }
      destruct (Hfalse c n v' Hin' Hv' Hd') as [[e [=]] _].
Qed.

Lemma NewIndexer_reuses_client conf cli :
  Client_ conf = Some cli →
  emits (NewIndexer (M := recording B) conf) (λ r evs, ∀ ev, ev ∈ evs → ¬ isNew ev).
Proof.
  intros Hgiven. unfold NewIndexer. eapply emits_consequence.
  - eapply emits_bind; [apply emits_liftResult|]. intros conf'.
    eapply emits_bind; [apply initClient_emits|]. intros cli'.
    eapply emits_bind; [apply initCollection_emits|]. intros u.
    apply emits_ret.
  - intros r evs Hpost. simpl in Hpost.
    destruct Hpost as [(e & -> & Hv & ->)
                      |(conf' & evs0 & evs1 & -> & [Hv ->] & Hpost)];
      [set_solver|].
    symmetry in Hv. pose proof (validate_Client _ _ Hv) as (Hcli & _).
    rewrite Hcli, Hgiven in Hpost.
    destruct Hpost as [(e & -> & _ & ->)
                      |(cli' & evs2 & evs3 & -> & [_ ->] & Hpost)];
      [set_solver|].
    destruct Hpost as [(e & -> & Hnew & _)
                      |(u & evs4 & evs5 & -> & (Hnew & _) & [_ ->])].
    + intros ev Hev. apply Hnew. set_solver.
    + intros ev Hev. apply Hnew. set_solver.
Qed.

End IndexerConstruction.

Section RetrieverConstruction.
Import Milvus2Retriever.
Context {codec : Sonic} {W : Type} (B : Milvus W) {Mode : Type}.

Lemma retriever_initClient_emits (conf : RetrieverConfig Mode) :
  emits (initClient (M := recording B) conf)
    (λ r evs,
       match Client_ conf with
       | Some cli => r = Ok cli ∧ evs = []
       | None =>
           match ClientConfig_ conf with
           | Some cfg => ∃ r0, evs = [EvNew cfg r0] ∧ (∀ cli, r = Ok cli → r0 = Ok cli)
           | None => evs = [] ∧ ∃ e, r = Err e
           end
       end).
Proof.
  unfold initClient. destruct (Client_ conf) as [cli|].
  - apply emits_ret.
  - destruct (ClientConfig_ conf) as [cfg|].
    + eapply emits_consequence; [apply emits_wrapIO, emits_recorded|].
      intros r evs (r0 & -> & ->). exists r0. split; [done|].
      intros cli. apply wrapErr_Ok.
    + eapply emits_consequence; [apply emits_liftResult|].
      intros r evs [-> ->]. eauto.
Qed.

Lemma loadCollection_emits cli (conf : RetrieverConfig Mode) :
  emits (loadCollection (M := recording B) cli conf)
    (λ r evs,
       (∀ ev, ev ∈ evs → ¬ isNew ev ∧ ¬ isCreateCollection ev) ∧
       (r = Ok () →
          EvHasCollection cli (Collection conf) (Ok true) ∈ evs ∧
          loadEstablished cli (Collection conf) evs) ∧
       (∀ cli' coll', EvHasCollection cli' coll' (Ok false) ∈ evs → ∃ e, r = Err e)).
Proof.
  unfold loadCollection. eapply emits_consequence.
  - eapply emits_bind with
      (Q := λ (has : bool) r evs,
         if has then
           (∃ e r0, r = Err e ∧ evs = [EvGetLoadState cli (Collection conf) r0]
                    ∧ ∀ st, r0 ≠ Ok st) ∨
           (r = Ok () ∧ evs = [EvGetLoadState cli (Collection conf) (Ok LoadStateLoaded)]) ∨
           (∃ st r1, evs = [EvGetLoadState cli (Collection conf) (Ok st);
                            EvLoadCollection cli (Collection conf) r1]
                     ∧ (∃ e, r = Err e) ∧ ∀ task, r1 ≠ Ok task) ∨
           (∃ st task r2, evs = [EvGetLoadState cli (Collection conf) (Ok st);
                                 EvLoadCollection cli (Collection conf) (Ok task);
                                 EvAwait task r2]
                          ∧ (r = Ok () → r2 = Ok ())
                          ∧ (r2 ≠ Ok () → ∃ e, r = Err e))
         else evs = [] ∧ ∃ e, r = Err e);
      [apply emits_wrapIO, emits_recorded|].
    intros [|].
    + eapply emits_consequence.
      * eapply emits_bind with
          (Q := λ (st : LoadStateCode) r evs,
             (st = LoadStateLoaded ∧ r = Ok () ∧ evs = []) ∨
             (∃ r1, evs = [EvLoadCollection cli (Collection conf) r1]
                    ∧ (∃ e, r = Err e) ∧ ∀ task, r1 ≠ Ok task) ∨
             (∃ task r2, evs = [EvLoadCollection cli (Collection conf) (Ok task);
                                EvAwait task r2]
                         ∧ (r = Ok () → r2 = Ok ())
                         ∧ (r2 ≠ Ok () → ∃ e, r = Err e)));
          [apply emits_wrapIO, emits_recorded|].
        intros st. case_decide as Hst.
        -- eapply emits_consequence.
           ++ eapply emits_bind; [apply emits_wrapIO, emits_recorded|].
              intros task. apply emits_wrapIO, emits_recorded.
           ++ intros r evs [(e & -> & r1 & Hr1 & ->)
                           |(task & evs1 & evs2 & -> & (r1 & Hr1 & ->) & (r2 & -> & ->))].
              ** right. left. exists r1. split; [done|]. split; [eauto|].
                 intros task ->. discriminate.
              ** right. right. symmetry in Hr1. apply wrapErr_Ok in Hr1 as ->.
                 exists task, r2. split; [done|]. split; [apply wrapErr_Ok|].
                 intros Hne. destruct r2 as [[]|e]; [done|].
                 by apply (wrapErr_Err _ (Err e) e).
        -- eapply emits_consequence; [apply emits_ret|].
           intros r evs [-> ->]. left. split; [|done].
           destruct (decide (st = LoadStateLoaded)); [done|]. by destruct Hst.
      * intros r evs [(e & -> & r0 & Hr0 & ->)
                     |(st & evs1 & evs2 & -> & (r0 & Hr0 & ->) & HQ)].
        { left. exists e, r0. split; [done|]. split; [done|].
          intros st ->. discriminate. }
        symmetry in Hr0. apply wrapErr_Ok in Hr0 as ->.
        destruct HQ as [(-> & -> & ->)|[(r1 & -> & He & Hr1)|(task & r2 & -> & ? & ?)]].
        -- right. left. done.
        -- right. right. left. exists st, r1. done.
        -- right. right. right. exists st, task, r2. done.
    + eapply emits_consequence; [apply emits_liftResult|].
      intros r evs [-> ->]. eauto.
  - intros r evs [(e & -> & r0 & Hr0 & ->)
                 |(has & evs1 & evs2 & -> & (r0 & Hr0 & ->) & HQ)].
    { split; [|split].
      - intros ev ->%list_elem_of_singleton. simpl. tauto.
      - discriminate.
      - eauto. }
    symmetry in Hr0. apply wrapErr_Ok in Hr0 as ->.
    destruct has.
    + destruct HQ as [(e & r0 & -> & -> & _)
                     |[[-> ->]
                      |[(st & r1 & -> & He & _)|(st & task & r2 & -> & Hok & Herr)]]].
      * split; [|split]; [|discriminate|eauto].
        intros ev Hev. set_unfold. naive_solver.
      * split; [|split].
        -- intros ev Hev. set_unfold. naive_solver.
        -- intros _. split; [set_solver|]. left. set_solver.
        -- intros c n Hin. set_unfold. naive_solver.
      * split; [|split]; [| |done].
        -- intros ev Hev. set_unfold. naive_solver.
        -- destruct He as [e ->]. discriminate.
      * split; [|split].
        -- intros ev Hev. set_unfold. naive_solver.
        -- intros Hr. rewrite (Hok Hr). split; [set_solver|].
           right. exists task. set_solver.
        -- intros c n Hin. set_unfold. naive_solver.
    + destruct HQ as [-> He]. split; [|split]; [|destruct He as [e ->]; discriminate|done].
      intros ev Hev. set_unfold. naive_solver.
Qed.

Lemma retriever_validate_Client (conf conf' : RetrieverConfig Mode) :
  validate conf = Ok conf' →
  Client_ conf' = Client_ conf ∧ ClientConfig_ conf' = ClientConfig_ conf ∧
  ¬ (Client_ conf = None ∧ ClientConfig_ conf = None).
Proof.
  unfold validate. intros Hv.
  destruct (Client_ conf) as [cli|] eqn:Hc, (ClientConfig_ conf) as [cfg|] eqn:Hcfg;
    simpl in Hv; try discriminate;
    destruct (isNil (SearchMode conf)); try discriminate;
    injection Hv as <-; simpl; repeat split; try done; intros [? ?]; discriminate.
Qed.

Lemma NewRetriever_emits (conf : RetrieverConfig Mode) :
  emits (NewRetriever (M := recording B) conf)
    (λ r evs,
       (Client_ conf = None → ClientConfig_ conf = None → ∃ e, r = Err e) ∧
       (∀ ret, r = Ok ret →
          validate conf = Ok (config ret) ∧
          clientChosen (Client_ conf) (ClientConfig_ conf) (client ret) evs ∧
          EvHasCollection (client ret) (Collection (config ret)) (Ok true) ∈ evs ∧
          loadEstablished (client ret) (Collection (config ret)) evs) ∧
       (∀ cli coll, EvHasCollection cli coll (Ok false) ∈ evs → ∃ e, r = Err e) ∧
       (∀ ev, ev ∈ evs → ¬ isCreateCollection ev)).
Proof.
  unfold NewRetriever. eapply emits_consequence.
  - eapply emits_bind; [apply emits_liftResult|]. intros conf'.
    eapply emits_bind; [apply retriever_initClient_emits|]. intros cli.
    eapply emits_bind; [apply loadCollection_emits|]. intros u.
    apply emits_ret.
  - intros r evs Hpost. simpl in Hpost.
    destruct Hpost as [(e & -> & Hv & ->)
                      |(conf' & evs0 & evs1 & -> & [Hv ->] & Hpost)].
    { split; [eauto|]. split; [discriminate|]. split; [eauto|]. set_solver. }
    symmetry in Hv.
    pose proof (retriever_validate_Client _ _ Hv) as (Hcli & Hcfg & Hsome).
    rewrite Hcli, Hcfg in Hpost.
    assert (Hev2 : ∀ evs2 (r : result Client),
               match Client_ conf with
               | Some cli => r = Ok cli ∧ evs2 = []
               | None =>
                   match ClientConfig_ conf with
                   | Some cfg => ∃ r0, evs2 = [EvNew cfg r0]
                                       ∧ (∀ cli, r = Ok cli → r0 = Ok cli)
                   | None => evs2 = [] ∧ ∃ e, r = Err e
                   end
               end →
               ∀ ev, ev ∈ evs2 → isNew ev).
    { intros evs2 r0 Hc ev Hev. destruct (Client_ conf); [destruct Hc as [_ ->]; set_solver|].
      destruct (ClientConfig_ conf).
      - destruct Hc as (r1 & -> & _).
        apply list_elem_of_singleton in Hev as ->. exact I.
      - destruct Hc as [-> _]. set_solver. }
    destruct Hpost as [(e & -> & Hclient)
                      |(cli & evs2 & evs3 & -> & Hclient & Hpost)].
    { pose proof (Hev2 _ _ Hclient) as Hn.
      split; [eauto|]. split; [discriminate|]. split; [eauto|].
      intros ev Hev. simpl in Hev. apply Hn in Hev. destruct ev; simpl in *; tauto. }
    pose proof (Hev2 _ _ Hclient) as Hn.
    assert (Hnohas : ∀ c n b, EvHasCollection c n b ∉ evs2).
    { intros c n b Hin. exact (Hn _ Hin). }
    assert (Hnocreate : ∀ ev, ev ∈ evs2 → ¬ isCreateCollection ev).
    { intros ev Hev. apply Hn in Hev. destruct ev; simpl in *; tauto. }
    destruct Hpost as [(e & -> & Hkind & _ & Hfalse)
                      |(u & evs4 & evs5 & -> & (Hkind & Hok & Hfalse) & [-> ->])].
    { split; [eauto|]. split; [discriminate|]. split; [eauto|].
      intros ev Hev. set_unfold. destruct Hev as [?|[?|?]]; [done|eauto|].
      by apply Hkind. }
    split; [|split; [|split]].
    + intros Hc1 Hc2. by destruct Hsome.
    + intros ret [= <-]. simpl. split; [done|].
      destruct u. destruct (Hok eq_refl) as [Hex Hld].
      split; [|split].
      * unfold clientChosen.
        destruct (Client_ conf) as [c|].
        -- destruct Hclient as [[= ->] ->]. split; [done|].
           intros ev Hev. apply Hkind. set_solver.
        -- destruct (ClientConfig_ conf) as [cf|].
           ++ destruct Hclient as (r0 & -> & Hr0). rewrite (Hr0 cli eq_refl).
              exists cf. split; [done|set_solver].
           ++ by destruct Hsome.
      * set_solver.
      * by apply loadEstablished_mono.
    + intros c n Hin. exfalso.
      assert (Hin' : EvHasCollection c n (Ok false) ∈ evs4).
      { set_unfold. destruct Hin as [Hin|[Hin|[Hin|Hin]]]; try done.
        by destruct (Hnohas _ _ _ Hin). }
      destruct (Hfalse c n Hin') as [e [=]].
    + intros ev Hev. set_unfold. destruct Hev as [?|[?|[?|?]]]; [done|eauto| |done].
      by apply Hkind.
Qed.

Lemma NewRetriever_reuses_client (conf : RetrieverConfig Mode) cli :
  Client_ conf = Some cli →
  emits (NewRetriever (M := recording B) conf) (λ r evs, ∀ ev, ev ∈ evs → ¬ isNew ev).
Proof.
  intros Hgiven. unfold NewRetriever. eapply emits_consequence.
  - eapply emits_bind; [apply emits_liftResult|]. intros conf'.
    eapply emits_bind; [apply retriever_initClient_emits|]. intros cli'.
    eapply emits_bind; [apply loadCollection_emits|]. intros u.
    apply emits_ret.
  - intros r evs Hpost. simpl in Hpost.
    destruct Hpost as [(e & -> & Hv & ->)
                      |(conf' & evs0 & evs1 & -> & [Hv ->] & Hpost)];
      [set_solver|].
    symmetry in Hv. pose proof (retriever_validate_Client _ _ Hv) as (Hcli & _).
    rewrite Hcli, Hgiven in Hpost.
    destruct Hpost as [(e & -> & _ & ->)
                      |(cli' & evs2 & evs3 & -> & [_ ->] & Hpost)];
      [set_solver|].
    destruct Hpost as [(e & -> & Hkind & _)
                      |(u & evs4 & evs5 & -> & (Hkind & _) & [_ ->])].
    + intros ev Hev. apply Hkind. set_solver.
    + intros ev Hev. apply Hkind. set_solver.
Qed.

End RetrieverConstruction.



End ConstructionProofs.
(** * Further properties of the indexer *)

Module IndexerExtras.
Import Milvus2Indexer.

Section ValidateMore.
Context {codec : Sonic}.

(** The configuration that a successful [validate] returns, in full. *)
Lemma validate_result c c' :
  validate c = Ok c' →
  let vector := denseDefaults <$> Vector c in
  let sparse := sparseDefaults <$> Sparse c in
  c' = mkIndexerConfig (Client_ c) (ClientConfig_ c)
         (if decide (Collection c = "") then defaultCollection else Collection c)
         (if decide (Description c = "") then defaultDescription else Description c)
         (PartitionName c) (ConsistencyLevel_ c) (EnableDynamicSchema c)
         vector sparse
         (Some (default (defaultDocumentConverter vector sparse) (DocumentConverter c)))
         (Embedding c)
         (match sparse with
          | Some sp =>
              if decide (Method sp = SparseMethodAuto) then
                if hasSparseFunc (Functions c) (Sparse_VectorField sp) then Functions c
                else Functions c ++ [bm25Fn (Sparse_VectorField sp)]
              else Functions c
          | None => Functions c
          end)
         (FieldParams c).
Proof.
  unfold validate. intros Hv.
  destruct (isNil (Client_ c) && isNil (ClientConfig_ c)); [discriminate|].
  destruct (isNil (Vector c) && isNil (Sparse c)); [discriminate|].
  injection Hv as <-.
  generalize (denseDefaults <$> Vector c). intros vector.
  destruct (Sparse c) as [sp|]; cbn [fmap option_fmap option_map].
  - generalize (sparseDefaults sp). intros sp'.
    unfold addDefaultBM25Function. simpl.
    destruct (decide (Method sp' = SparseMethodAuto)); simpl.
    + destruct (hasSparseFunc _ _); simpl; by destruct (DocumentConverter c).
    + by destruct (DocumentConverter c).
  - simpl. by destruct (DocumentConverter c).
Qed.

Lemma validate_fails_iff c :
  (∃ e, validate c = Err e) ↔
  (Client_ c = None ∧ ClientConfig_ c = None) ∨ (Vector c = None ∧ Sparse c = None).
Proof.
  unfold validate.
  destruct (Client_ c), (ClientConfig_ c), (Vector c), (Sparse c); simpl;
    split; try (intros [e [=]]); try (intros [[[=] ?]|[? ?]]; discriminate);
    try (intros [[? [=]]|[? ?]]; discriminate); eauto; naive_solver.
Qed.

Lemma denseDefaults_idem v : denseDefaults (denseDefaults v) = denseDefaults v.
Proof.
  unfold denseDefaults. simpl. f_equal; repeat case_decide; done.
Qed.

Lemma sparseDefaults_idem sp : sparseDefaults (sparseDefaults sp) = sparseDefaults sp.
Proof.
  unfold sparseDefaults. simpl. f_equal; repeat case_decide; done.
Qed.

Lemma hasSparseFunc_app fns fns' field :
  hasSparseFunc (fns ++ fns') field = hasSparseFunc fns field || hasSparseFunc fns' field.
Proof. unfold hasSparseFunc. apply existsb_app. Qed.

Lemma hasSparseFunc_bm25Fn field : hasSparseFunc [bm25Fn field] field = true.
Proof. unfold hasSparseFunc. simpl. by rewrite bool_decide_eq_true_2. Qed.

Lemma validate_keeps_vectors c c' :
  validate c = Ok c' →
  (Vector c ≠ None ∨ Sparse c ≠ None) ∧
  (Vector c' = None → Vector c = None) ∧ (Sparse c' = None → Sparse c = None).
Proof.
  intros Hv.
  assert (Hn : ¬ ∃ e, validate c = Err e) by (intros [e' He']; congruence).
  rewrite validate_fails_iff in Hn.
  pose proof (validate_result _ _ Hv) as Hc'.
  cbn -[hasSparseFunc bm25Fn defaultDocumentConverter] in Hc'. subst c'. simpl.
  destruct (Vector c), (Sparse c); naive_solver.
Qed.

(** X1: validating a validated configuration changes nothing: no default
    is applied twice, the converter is kept and no second [bm25_auto]
    function is appended. *)
Theorem validate_idempotent (c c' : IndexerConfig) :
  validate c = Ok c' → validate c' = Ok c'.
Proof.
  intros Hv. pose proof (validate_result _ _ Hv) as Hc'.
  cbn -[denseDefaults sparseDefaults hasSparseFunc bm25Fn defaultDocumentConverter] in Hc'.
  assert (Hok : ∃ c'', validate c' = Ok c'').
  { destruct (validate c') as [c''|e] eqn:Hv'; [eauto|].
    assert (Hf : ∃ e, validate c' = Err e) by eauto.
    apply validate_fails_iff in Hf.
    assert (Hn : ¬ ∃ e, validate c = Err e) by (intros [e' He']; congruence).
    rewrite validate_fails_iff in Hn.
    rewrite Hc' in Hf. simpl in Hf. exfalso. apply Hn.
    destruct Hf as [?|[Hvn Hsn]]; [by left|right].
    destruct (Vector c), (Sparse c); simpl in *; done. }
  destruct Hok as [c'' Hv']. rewrite Hv'. f_equal.
  pose proof (validate_result _ _ Hv') as Hc''.
  cbn -[denseDefaults sparseDefaults hasSparseFunc bm25Fn defaultDocumentConverter] in Hc''.
  rewrite Hc''. clear Hc'' Hv'. subst c'.
  cbn -[denseDefaults sparseDefaults hasSparseFunc bm25Fn defaultDocumentConverter].
  f_equal.
  - repeat case_decide; done.
  - repeat case_decide; done.
  - destruct (Vector c); cbn [fmap option_fmap option_map];
      [by rewrite denseDefaults_idem | done].
  - destruct (Sparse c); cbn [fmap option_fmap option_map];
      [by rewrite sparseDefaults_idem | done].
  - destruct (Sparse c) as [sp|]; cbn [fmap option_fmap option_map]; [|done].
    rewrite sparseDefaults_idem.
    destruct (decide (Method (sparseDefaults sp) = SparseMethodAuto)); [|done].
    destruct (hasSparseFunc (Functions c) _) eqn:Hhas.
    + by rewrite Hhas.
    + by rewrite hasSparseFunc_app, hasSparseFunc_bm25Fn, orb_true_r.
Qed.

(** X2: [validate] fails exactly when neither a client nor a client
    configuration is given, or neither a dense nor a sparse vector
    configuration.  What it returns otherwise names everything: the
    collection, the description, the fields, the metrics and the sparse
    method are non-empty and a converter is set; and whatever the caller
    has set is kept: non-empty names, the partition, the embedder, a given
    converter, and the given functions as a prefix of the functions. *)
Theorem validate_outcome (c : IndexerConfig) :
  match validate c with
  | Err _ =>
      (Client_ c = None ∧ ClientConfig_ c = None) ∨ (Vector c = None ∧ Sparse c = None)
  | Ok c' =>
      (Client_ c ≠ None ∨ ClientConfig_ c ≠ None) ∧
      (Vector c ≠ None ∨ Sparse c ≠ None) ∧
      Collection c' ≠ "" ∧ Description c' ≠ "" ∧
      (∀ v', Vector c' = Some v' →
         Vector_MetricType v' ≠ "" ∧ Vector_VectorField v' ≠ "") ∧
      (∀ sp', Sparse c' = Some sp' →
         Sparse_VectorField sp' ≠ "" ∧ Sparse_MetricType sp' ≠ "" ∧ Method sp' ≠ "") ∧
      DocumentConverter c' ≠ None ∧
      Client_ c' = Client_ c ∧ ClientConfig_ c' = ClientConfig_ c ∧
      (Collection c ≠ "" → Collection c' = Collection c) ∧
      (Description c ≠ "" → Description c' = Description c) ∧
      PartitionName c' = PartitionName c ∧
      ConsistencyLevel_ c' = ConsistencyLevel_ c ∧
      EnableDynamicSchema c' = EnableDynamicSchema c ∧
      Embedding c' = Embedding c ∧
      FieldParams c' = FieldParams c ∧
      (∀ f, DocumentConverter c = Some f → DocumentConverter c' = Some f) ∧
      (∀ v, Vector c = Some v → ∃ v', Vector c' = Some v' ∧
         Dimension v' = Dimension v ∧ Vector_IndexBuilder v' = Vector_IndexBuilder v ∧
         (Vector_MetricType v ≠ "" → Vector_MetricType v' = Vector_MetricType v) ∧
         (Vector_VectorField v ≠ "" → Vector_VectorField v' = Vector_VectorField v)) ∧
      (∀ sp, Sparse c = Some sp → ∃ sp', Sparse c' = Some sp' ∧
         Sparse_IndexBuilder sp' = Sparse_IndexBuilder sp ∧
         (Sparse_VectorField sp ≠ "" → Sparse_VectorField sp' = Sparse_VectorField sp) ∧
         (Sparse_MetricType sp ≠ "" → Sparse_MetricType sp' = Sparse_MetricType sp) ∧
         (Method sp ≠ "" → Method sp' = Method sp)) ∧
      (Vector c = None ↔ Vector c' = None) ∧
      (Sparse c = None ↔ Sparse c' = None) ∧
      Functions c `prefix_of` Functions c'
  end.
Proof.
  destruct (validate c) as [c'|e] eqn:Hv.
  - assert (Hn : ¬ ∃ e, validate c = Err e) by (intros [e' He']; congruence).
    rewrite validate_fails_iff in Hn.
    pose proof (validate_result _ _ Hv) as Hc'.
    cbn -[hasSparseFunc bm25Fn defaultDocumentConverter] in Hc'. subst c'.
    clear Hv. cbn -[hasSparseFunc bm25Fn defaultDocumentConverter].
    split; [destruct (Client_ c), (ClientConfig_ c); naive_solver|].
    split; [destruct (Vector c), (Sparse c); naive_solver|].
    split; [case_decide; [by compute|done]|].
    split; [case_decide; [by compute|done]|].
    split.
    { intros v' Hv'. destruct (Vector c) as [v|]; [|done].
      injection Hv' as <-. simpl. split; (case_decide; [by compute|done]). }
    split.
    { intros sp' Hsp'. destruct (Sparse c) as [sp|]; [|done].
      injection Hsp' as <-. simpl.
      repeat split; repeat case_decide; try done; by compute. }
    split; [done|]. do 2 (split; [done|]).
    split; [intros; by rewrite decide_False|].
    split; [intros; by rewrite decide_False|].
    do 5 (split; [done|]).
    split; [by intros f ->|].
    split.
    { intros v ->. eexists. split; [done|]. simpl.
      repeat split; intros; by rewrite decide_False. }
    split.
    { intros sp ->. eexists. split; [done|]. simpl.
      repeat split; intros; by rewrite decide_False. }
    split; [by destruct (Vector c)|]. split; [by destruct (Sparse c)|].
    destruct (Sparse c) as [sp|]; simpl; [|done].
    repeat case_match; try done; by apply prefix_app_r.
  - apply validate_fails_iff. eauto.
Qed.

End ValidateMore.

Lemma validate_idempotent_witness :
  validate (codec := exampleSonic) IndexerExamples.sparseOnlyConfig
    = Ok IndexerExamples.sparseOnlyValidated ∧
  validate (codec := exampleSonic) IndexerExamples.sparseOnlyValidated
    = Ok IndexerExamples.sparseOnlyValidated.
Proof.
  split; [reflexivity|].
  exact (validate_idempotent (codec := exampleSonic) IndexerExamples.sparseOnlyConfig
           IndexerExamples.sparseOnlyValidated eq_refl).
Defined.

(** ** The schema of a new collection *)

Section SchemaOf.
Context {codec : Sonic} {limits : SchemaLimits}.

Lemma applyParams_shape conf f name :
  Field_Name (applyParams conf f name) = Field_Name f ∧
  Field_DataType (applyParams conf f name) = Field_DataType f ∧
  Field_IsPrimaryKey (applyParams conf f name) = Field_IsPrimaryKey f.
Proof. unfold applyParams. by destruct (FieldParams conf !! name). Qed.

Lemma applyParams_TypeParams conf f name :
  Field_TypeParams (applyParams conf f name)
    = default ∅ (FieldParams conf !! name) ∪ Field_TypeParams f.
Proof.
  unfold applyParams. destruct (FieldParams conf !! name); simpl; [done|].
  by rewrite (left_id_L ∅ (∪)).
Qed.

(** X3: [buildSchema] fails exactly when the configuration has neither a
    dense nor a sparse vector.  Otherwise the schema has the fields [id]
    (VarChar, the one primary key), [content] (VarChar) and [metadata]
    (JSON), then the dense field when there is a dense configuration, then
    the sparse field when there is a sparse one, in this order.  The type
    parameters of a field are those that [FieldParams] lists under the
    field's name, over the ones the schema sets itself: [max_length] with
    the length limit for [id] and [content], and [dim] with the configured
    dimension for the dense field; so an entry [max_length] or [dim] of
    [FieldParams] replaces the limit or the dimension.  The schema carries
    the configured functions and the dynamic-schema flag unchanged. *)
Theorem buildSchema_fields (conf : IndexerConfig) :
  let params name := default ∅ (FieldParams conf !! name) in
  match buildSchema conf with
  | Err _ => Vector conf = None ∧ Sparse conf = None
  | Ok sch =>
      (Vector conf ≠ None ∨ Sparse conf ≠ None) ∧
      (λ f, (Field_Name f, Field_DataType f, Field_IsPrimaryKey f, Field_TypeParams f))
        <$> Schema_Fields sch =
        [ (defaultIDField, FieldTypeVarChar, true,
           params defaultIDField ∪ {[TypeParamMaxLength := fmt_d defaultMaxIDLen]});
          (defaultContentField, FieldTypeVarChar, false,
           params defaultContentField
             ∪ {[TypeParamMaxLength := fmt_d defaultMaxContentLen]});
          (defaultMetadataField, FieldTypeJSON, false, params defaultMetadataField) ]
        ++ match Vector conf with
           | Some v => [ (Vector_VectorField v, FieldTypeFloatVector, false,
                          params (Vector_VectorField v)
                            ∪ {[TypeParamDim := fmt_d (Dimension v)]}) ]
           | None => []
           end
        ++ match Sparse conf with
           | Some sp => [ (Sparse_VectorField sp, FieldTypeSparseVector, false,
                           params (Sparse_VectorField sp)) ]
           | None => []
           end ∧
      (∀ f, f ∈ Schema_Fields sch →
         (∀ limit, FieldParams conf !! Field_Name f = None →
            Field_TypeParams f !! TypeParamMaxLength = Some limit →
            limit = fmt_d defaultMaxIDLen ∨ limit = fmt_d defaultMaxContentLen) ∧
         (∀ fp v, FieldParams conf !! Field_Name f = Some fp →
            fp !! TypeParamMaxLength = Some v →
            Field_TypeParams f !! TypeParamMaxLength = Some v) ∧
         (∀ fp v, FieldParams conf !! Field_Name f = Some fp →
            fp !! TypeParamDim = Some v →
            Field_TypeParams f !! TypeParamDim = Some v)) ∧
      Schema_Functions sch = Functions conf ∧
      Schema_EnableDynamicField sch = EnableDynamicSchema conf
  end.
Proof.
  intros params.
  assert (Hshape : match buildSchema conf with
    | Err _ => Vector conf = None ∧ Sparse conf = None
    | Ok sch =>
      (Vector conf ≠ None ∨ Sparse conf ≠ None) ∧
      (λ f, (Field_Name f, Field_DataType f, Field_IsPrimaryKey f, Field_TypeParams f))
        <$> Schema_Fields sch =
        [ (defaultIDField, FieldTypeVarChar, true,
           params defaultIDField ∪ {[TypeParamMaxLength := fmt_d defaultMaxIDLen]});
          (defaultContentField, FieldTypeVarChar, false,
           params defaultContentField
             ∪ {[TypeParamMaxLength := fmt_d defaultMaxContentLen]});
          (defaultMetadataField, FieldTypeJSON, false, params defaultMetadataField) ]
        ++ match Vector conf with
           | Some v => [ (Vector_VectorField v, FieldTypeFloatVector, false,
                          params (Vector_VectorField v)
                            ∪ {[TypeParamDim := fmt_d (Dimension v)]}) ]
           | None => []
           end
        ++ match Sparse conf with
           | Some sp => [ (Sparse_VectorField sp, FieldTypeSparseVector, false,
                           params (Sparse_VectorField sp)) ]
           | None => []
           end ∧
      Schema_Functions sch = Functions conf ∧
      Schema_EnableDynamicField sch = EnableDynamicSchema conf
    end).
  { unfold buildSchema.
    destruct (Vector conf) as [v|], (Sparse conf) as [sp|];
      cbn -[applyParams WithMaxLength WithDim]; try done.
    all: split; [naive_solver|].
    all: split; [|done].
    all: repeat match goal with
           | |- context [applyParams ?c ?f ?n] =>
               let H := fresh in
               pose proof (applyParams_shape c f n) as H;
               destruct H as (-> & -> & ->);
               rewrite (applyParams_TypeParams c f n)
           end.
    all: simpl; unfold params; rewrite ?insert_empty, ?(right_id_L ∅ (∪)); done. }
  destruct (buildSchema conf) as [sch|e]; [|done].
  destruct Hshape as (Hsome & Hfields & Hfns & Hdyn).
  split; [done|]. split; [done|]. split; [|done].
  intros f Hf.
  assert (Hin : (Field_Name f, Field_DataType f, Field_IsPrimaryKey f, Field_TypeParams f)
                ∈ (λ f, (Field_Name f, Field_DataType f, Field_IsPrimaryKey f,
                         Field_TypeParams f)) <$> Schema_Fields sch).
  { apply list_elem_of_fmap. by exists f. }
  rewrite Hfields in Hin.
  assert (Hform : ∃ base : gmap string string,
            Field_TypeParams f = params (Field_Name f) ∪ base ∧
            ∀ limit, base !! TypeParamMaxLength = Some limit →
              limit = fmt_d defaultMaxIDLen ∨ limit = fmt_d defaultMaxContentLen).
  { rewrite !elem_of_app, !elem_of_cons in Hin.
    destruct Hin as [[Hin|[Hin|[Hin|Hin]]]|[Hin|Hin]].
    - injection Hin as -> _ _ ->. eexists. split; [done|].
      intros limit Hl. rewrite lookup_singleton_eq in Hl. left. congruence.
    - injection Hin as -> _ _ ->. eexists. split; [done|].
      intros limit Hl. rewrite lookup_singleton_eq in Hl. right. congruence.
    - injection Hin as -> _ _ ->. exists ∅.
      split; [by rewrite (right_id_L ∅ (∪))|]. intros limit Hl. done.
    - by apply elem_of_nil in Hin.
    - destruct (Vector conf) as [v|]; [|by apply elem_of_nil in Hin].
      apply list_elem_of_singleton in Hin. injection Hin as -> _ _ ->.
      eexists. split; [done|]. intros limit Hl.
      rewrite lookup_singleton_ne in Hl by done. done.
    - destruct (Sparse conf) as [sp|]; [|by apply elem_of_nil in Hin].
      apply list_elem_of_singleton in Hin. injection Hin as -> _ _ ->.
      exists ∅. split; [by rewrite (right_id_L ∅ (∪))|]. intros limit Hl. done. }
  destruct Hform as (base & Htp & Hbase). unfold params in Htp.
  split; [|split].
  - intros limit Hnone Hl. rewrite Htp, Hnone in Hl. simpl in Hl.
    rewrite (left_id_L ∅ (∪)) in Hl. by apply Hbase.
  - intros fp v Hfp Hv. rewrite Htp, Hfp. simpl. by apply lookup_union_Some_l.
  - intros fp v Hfp Hv. rewrite Htp, Hfp. simpl. by apply lookup_union_Some_l.
Qed.

(** X4: a configuration that [validate] accepts always
    has a schema, and with the sparse method [Auto] the schema carries a
    function whose output is the sparse field of the schema. *)
Theorem buildSchema_after_validate (c c' : IndexerConfig) :
  validate c = Ok c' →
  ∃ sch, buildSchema c' = Ok sch ∧
    ∀ sp, Sparse c' = Some sp → Method sp = SparseMethodAuto →
      (∃ f, f ∈ Schema_Fields sch ∧ Field_Name f = Sparse_VectorField sp ∧
            Field_DataType f = FieldTypeSparseVector) ∧
      ∃ fn, fn ∈ Schema_Functions sch ∧ Sparse_VectorField sp ∈ OutputFieldNames fn.
Proof.
  intros Hv.
  destruct (validate_keeps_vectors _ _ Hv) as (Hvs & HV & HS).
  assert (Hsch : match buildSchema c' with
                 | Err _ => Vector c' = None ∧ Sparse c' = None
                 | Ok sch =>
                     (λ f, (Field_Name f, Field_DataType f)) <$> Schema_Fields sch =
                       [ (defaultIDField, FieldTypeVarChar);
                         (defaultContentField, FieldTypeVarChar);
                         (defaultMetadataField, FieldTypeJSON) ]
                       ++ match Vector c' with
                          | Some v => [ (Vector_VectorField v, FieldTypeFloatVector) ]
                          | None => []
                          end
                       ++ match Sparse c' with
                          | Some sp => [ (Sparse_VectorField sp, FieldTypeSparseVector) ]
                          | None => []
                          end ∧
                     Schema_Functions sch = Functions c'
                 end).
  { unfold buildSchema.
    destruct (Vector c') as [v|], (Sparse c') as [sp|];
      cbn -[applyParams]; try done.
    all: split; [|done].
    all: repeat match goal with
           | |- context [applyParams ?c ?f ?n] =>
               let H := fresh in
               pose proof (applyParams_shape c f n) as H;
               destruct H as (-> & -> & _)
           end; done. }
  destruct (buildSchema c') as [sch|e].
  - exists sch. split; [done|]. intros sp Hsp Hauto.
    destruct Hsch as (Hfields & Hfns). split.
    + rewrite Hsp in Hfields.
      assert (Hin : (Sparse_VectorField sp, FieldTypeSparseVector)
                    ∈ (λ f, (Field_Name f, Field_DataType f)) <$> Schema_Fields sch).
      { rewrite Hfields. set_solver. }
      apply list_elem_of_fmap in Hin as (f & [=] & Hf). eauto.
    + rewrite Hfns.
      pose proof (validate_result _ _ Hv) as Hc'.
      cbn -[hasSparseFunc bm25Fn defaultDocumentConverter sparseDefaults] in Hc'.
      assert (HF : Functions c' =
                match Sparse c' with
                | Some sp =>
                    if decide (Method sp = SparseMethodAuto) then
                      if hasSparseFunc (Functions c) (Sparse_VectorField sp)
                      then Functions c
                      else Functions c ++ [bm25Fn (Sparse_VectorField sp)]
                    else Functions c
                | None => Functions c
                end) by (by rewrite Hc').
      rewrite Hsp, decide_True in HF by done. rewrite HF.
      destruct (hasSparseFunc (Functions c) (Sparse_VectorField sp)) eqn:Hhas.
      * unfold hasSparseFunc in Hhas.
        apply existsb_exists in Hhas as (fn & Hfn & Hout).
        apply existsb_exists in Hout as (o & Ho & Heq).
        apply bool_decide_eq_true in Heq as <-.
        exists fn. split; by apply list_elem_of_In.
      * exists (bm25Fn (Sparse_VectorField sp)). split; [set_solver|].
        simpl. set_solver.
  - exfalso. destruct Hsch as [Hv0 Hs0].
    destruct Hvs as [Hne|Hne]; apply Hne; [by apply HV | by apply HS].
Qed.

End SchemaOf.

Lemma buildSchema_after_validate_witness :
  ∃ sch, buildSchema (limits := exampleLimits) IndexerExamples.sparseOnlyValidated = Ok sch ∧
    ∃ fn, fn ∈ Schema_Functions sch ∧ defaultSparseVectorField ∈ OutputFieldNames fn.
Proof.
  destruct (buildSchema_after_validate (codec := exampleSonic) (limits := exampleLimits)
              IndexerExamples.sparseOnlyConfig IndexerExamples.sparseOnlyValidated
              eq_refl) as (sch & Hsch & Hauto).
  exists sch. split; [exact Hsch|].
  exact (proj2 (Hauto (mkSparseVectorConfig None defaultSparseVectorField BM25
                         SparseMethodAuto) eq_refl eq_refl)).
Defined.

(** ** Sparse embeddings *)

Section SparseMore.

Lemma merge_sort_Permutation_eq (l1 l2 : list Z) :
  l1 ≡ₚ l2 → merge_sort Z.le l1 = merge_sort Z.le l2.
Proof.
  intros Hp. apply (StronglySorted_unique Z.le).
  - apply StronglySorted_merge_sort; apply _.
  - apply StronglySorted_merge_sort; apply _.
  - by rewrite !merge_sort_Permutation.
Qed.

Lemma toMilvusSparseEmbedding_negative (sv : gmap Z float64) k :
  k ∈ dom sv → k < 0 → ∃ e, toMilvusSparseEmbedding sv = Err e.
Proof.
  intros Hk Hneg. unfold toMilvusSparseEmbedding, toMilvusSparseEmbedding_range.
  rewrite decide_False.
  - destruct (IndexerProofs.fillSparse_negative sv
                (merge_sort Z.le (elements (dom sv)))) as [e He].
    + exists k. split; [|done]. rewrite merge_sort_Permutation.
      by apply elem_of_elements.
    + rewrite He. simpl. eauto.
  - intros Hsize. apply map_size_empty_iff in Hsize. subst sv. set_solver.
Qed.

(** X5: the embedding does not depend on the order in which the map is
    traversed: every enumeration of the keys gives the same result, errors
    included. *)
Theorem toMilvusSparseEmbedding_any_order (sv : gmap Z float64) (keys : list Z) :
  keys ≡ₚ elements (dom sv) →
  toMilvusSparseEmbedding_range keys sv = toMilvusSparseEmbedding sv.
Proof.
  intros Hp. unfold toMilvusSparseEmbedding, toMilvusSparseEmbedding_range.
  by rewrite (merge_sort_Permutation_eq _ _ Hp).
Qed.

(** X6: [toMilvusSparseEmbedding] fails exactly when the map has a negative
    key.  Otherwise the embedding has one entry for every key of the map:
    going through the keys in strictly ascending order, the position is the
    key narrowed to [uint32] and the value is the [float32] of the key's
    weight. *)
Theorem toMilvusSparseEmbedding_outcome (sv : gmap Z float64) :
  match toMilvusSparseEmbedding sv with
  | Err _ => ∃ k, k ∈ dom sv ∧ k < 0
  | Ok emb =>
      (∀ k, k ∈ dom sv → 0 ≤ k) ∧
      length (positions emb) = size sv ∧
      length (values emb) = size sv ∧
      ∃ sorted,
        StronglySorted Z.lt sorted ∧ sorted ≡ₚ elements (dom sv) ∧
        positions emb = uint32 <$> sorted ∧
        ∀ i k, sorted !! i = Some k →
          ∃ w, sv !! k = Some w ∧ values emb !! i = Some (to_float32 w)
  end.
Proof.
  unfold toMilvusSparseEmbedding, toMilvusSparseEmbedding_range.
  set (sorted := merge_sort Z.le (elements (dom sv))).
  assert (Hperm : sorted ≡ₚ elements (dom sv)) by apply merge_sort_Permutation.
  assert (Hss : StronglySorted Z.lt sorted).
  { apply IndexerProofs.strictly_ascending.
    - apply StronglySorted_merge_sort; apply _.
    - rewrite Hperm. apply NoDup_elements. }
  assert (Hlen : length sorted = size sv).
  { by rewrite Hperm, <- size_dom. }
  case_decide as Hsize.
  - apply map_size_empty_iff in Hsize. subst sv. simpl.
    split; [set_solver|]. split; [done|]. split; [done|].
    exists []. split; [constructor|]. split; [by rewrite dom_empty_L, elements_empty|].
    done.
  - destruct (decide (Forall (λ k, 0 ≤ k) sorted)) as [Hall|Hex].
    + rewrite Forall_forall in Hall.
      rewrite IndexerProofs.fillSparse_nonneg by done. simpl.
      unfold NewSliceSparseEmbedding.
      rewrite decide_True by (by rewrite !length_fmap). simpl.
      split.
      { intros k Hk. apply Hall. rewrite Hperm. by apply elem_of_elements. }
      rewrite !length_fmap. split; [done|]. split; [done|].
      exists sorted. split; [done|]. split; [done|]. split; [done|].
      intros i k Hk.
      assert (Hdom : k ∈ dom sv).
      { apply elem_of_elements. rewrite <- Hperm. by eapply list_elem_of_lookup_2. }
      apply elem_of_dom in Hdom as [w Hw]. exists w. split; [done|].
      rewrite list_lookup_fmap, Hk. cbn [fmap option_fmap option_map].
      unfold float64 in *. by rewrite Hw.
    + apply not_Forall_Exists in Hex; [|apply _].
      apply Exists_exists in Hex as (k & Hk & Hneg). simpl in Hneg.
      destruct (IndexerProofs.fillSparse_negative sv sorted) as [e He].
      { exists k. split; [done|lia]. }
      rewrite He. simpl. exists k. split; [|lia].
      apply elem_of_elements. by rewrite <- Hperm.
Qed.

End SparseMore.

Lemma toMilvusSparseEmbedding_any_order_witness :
  toMilvusSparseEmbedding_range
      (reverse (elements (dom IndexerExamples.smallSparseVector)))
      IndexerExamples.smallSparseVector
    = toMilvusSparseEmbedding IndexerExamples.smallSparseVector.
Proof.
  apply (toMilvusSparseEmbedding_any_order IndexerExamples.smallSparseVector).
  apply reverse_Permutation.
Defined.

(** ** The columns of the default converter *)

Section ColumnsOf.
Context {codec : Sonic}.

Lemma convertDocs_columns dvf svf vectors n docs : ∀ idx acc acc',
  convertDocs dvf svf vectors n idx docs acc = Ok acc' →
  ids acc' = ids acc ++ (ID <$> docs) ∧
  contents acc' = contents acc ++ (Content <$> docs) ∧
  (∃ mds, metadatas acc' = metadatas acc ++ mds ∧
     Forall2 (λ doc md, sonic_Marshal (MetaData doc) = Ok md) docs mds) ∧
  (if decide (svf ≠ "") then
     ∃ embs, sparseVecs acc' = sparseVecs acc ++ embs ∧
       Forall2 (λ doc emb, toMilvusSparseEmbedding (Document_SparseVector doc) = Ok emb)
               docs embs
   else sparseVecs acc' = sparseVecs acc).
Proof.
  induction docs as [|doc rest IH]; intros idx acc acc' Hc.
  - simpl in Hc. injection Hc as <-. rewrite !app_nil_r.
    split; [done|]. split; [done|]. split; [exists []; by rewrite app_nil_r|].
    case_decide; [exists []; by rewrite app_nil_r | done].
  - cbn [convertDocs] in Hc.
    destruct (if decide (dvf ≠ "") then _ else _) as [vecs'|]; [|discriminate].
    cbn [mbind result_bind] in Hc.
    destruct (if decide (svf ≠ "") then _ else _) as [sv'|] eqn:Hsv in Hc;
      [|discriminate].
    cbn [mbind result_bind] in Hc.
    destruct (wrapErr _ (sonic_Marshal _)) as [md|] eqn:Hmd; [|discriminate].
    cbn [mbind result_bind] in Hc.
    apply ConstructionProofs.wrapErr_Ok in Hmd.
    apply IH in Hc as (Hids & Hcs & (mds & Hmds & Hall) & Hsp). simpl in *.
    split; [by rewrite Hids, <- app_assoc|].
    split; [by rewrite Hcs, <- app_assoc|].
    split.
    { exists (md :: mds). rewrite Hmds, <- app_assoc. split; [done|]. by constructor. }
    destruct (decide (svf ≠ "")) as [Hne|Heq].
    + destruct (wrapErr _ (toMilvusSparseEmbedding _)) as [se|] eqn:Hse;
        [|discriminate].
      apply ConstructionProofs.wrapErr_Ok in Hse. simpl in Hsv.
      injection Hsv as <-. destruct Hsp as (embs & Hembs & Hall').
      exists (se :: embs). rewrite Hembs, <- app_assoc. split; [done|].
      by constructor.
    + injection Hsv as <-. done.
Qed.

Lemma defaultDocumentConverter_scalar_columns vector sparse docs vectors columns :
  defaultDocumentConverter vector sparse docs vectors = Ok columns →
  ∃ mds,
    take 3 columns =
      [ NewColumnVarChar defaultIDField (ID <$> docs);
        NewColumnVarChar defaultContentField (Content <$> docs);
        NewColumnJSONBytes defaultMetadataField mds ] ∧
    Forall2 (λ doc md, sonic_Marshal (MetaData doc) = Ok md) docs mds.
Proof.
  unfold defaultDocumentConverter. intros Hc.
  destruct (convertDocs _ _ vectors (length docs) 0 docs _) as [acc|] eqn:Hconv;
    [|discriminate].
  cbn [mbind result_bind] in Hc. injection Hc as <-.
  pose proof (convertDocs_columns _ _ _ _ _ _ _ _ Hconv)
    as (Hids & Hcs & (mds & Hmds & Hall) & _).
  simpl in Hids, Hcs, Hmds. rewrite Hids, Hcs, Hmds.
  exists mds. split; [|done]. by repeat case_decide.
Qed.

(** X7: what the default converter returns.  The columns are [id] with the
    documents' IDs, [content] with their contents and [metadata] with the
    encoding of each document's metadata, one row per document and in the
    documents' order; then, when a dense field is configured, one column of
    that name with one vector per document, its dimension being the length
    of the first vector (0 without documents); then, only when the sparse
    method is [Precomputed], one column of the sparse field's name with the
    embedding of each document's sparse vector. *)
Theorem defaultDocumentConverter_columns (vector : option VectorConfig)
    (sparse : option SparseVectorConfig) (docs : list Document)
    (vectors : list (list float64)) (columns : list Column) :
  defaultDocumentConverter vector sparse docs vectors = Ok columns →
  ∃ mds dense sparseCols,
    columns =
      [ NewColumnVarChar defaultIDField (ID <$> docs);
        NewColumnVarChar defaultContentField (Content <$> docs);
        NewColumnJSONBytes defaultMetadataField mds ] ++ dense ++ sparseCols ∧
    Forall2 (λ doc md, sonic_Marshal (MetaData doc) = Ok md) docs mds ∧
    match vector with
    | Some v =>
        if decide (Vector_VectorField v = "") then dense = []
        else ∃ vecs,
          dense = [ NewColumnFloatVector (Vector_VectorField v)
                      (match vecs with
                       | v0 :: _ => Z.of_nat (length v0)
                       | [] => 0
                       end) vecs ] ∧
          length vecs = length docs
    | None => dense = []
    end ∧
    match sparse with
    | Some sp =>
        if decide (Method sp = SparseMethodPrecomputed ∧ Sparse_VectorField sp ≠ "")
        then ∃ embs,
          sparseCols = [ NewColumnSparseVectors (Sparse_VectorField sp) embs ] ∧
          Forall2 (λ doc emb,
                     toMilvusSparseEmbedding (Document_SparseVector doc) = Ok emb)
                  docs embs
        else sparseCols = []
    | None => sparseCols = []
    end.
Proof.
  unfold defaultDocumentConverter.
  set (svf := match sparse with
              | Some sp => if decide (Method sp = SparseMethodPrecomputed)
                           then Sparse_VectorField sp else ""
              | None => ""
              end).
  set (dvf := match vector with Some v => Vector_VectorField v | None => "" end).
  intros Hc.
  destruct (convertDocs dvf svf vectors (length docs) 0 docs _) as [acc|] eqn:Hconv;
    [|discriminate].
  cbn [mbind result_bind] in Hc. injection Hc as <-.
  pose proof (convertDocs_columns _ _ _ _ _ _ _ _ Hconv)
    as (Hids & Hcs & (mds & Hmds & Hall) & Hsp).
  simpl in Hids, Hcs, Hmds, Hsp. rewrite Hids, Hcs, Hmds.
  exists mds,
    (if decide (dvf ≠ "") then
       [NewColumnFloatVector dvf
          (match vecs acc with v0 :: _ => Z.of_nat (length v0) | [] => 0 end)
          (vecs acc)]
     else []),
    (if decide (svf ≠ "") then [NewColumnSparseVectors svf (sparseVecs acc)] else []).
  split; [by repeat case_decide|]. split; [done|]. split.
  - destruct vector as [v|]; subst dvf; simpl in *.
    + destruct (decide (Vector_VectorField v = "")) as [Heq|Hne].
      * by rewrite decide_False by (intros ?; done).
      * rewrite decide_True by done. eexists. split; [done|].
        apply ConversionProofs.convertDocs_vecs in Hconv; [|done].
        simpl in Hconv. by rewrite Hconv, length_imap.
    + done.
  - destruct sparse as [sp|]; subst svf; simpl in *.
    + destruct (decide (Method sp = SparseMethodPrecomputed)) as [Hm|Hm].
      * destruct (decide (Sparse_VectorField sp ≠ "")) as [Hf|Hf].
        -- rewrite decide_True by done. destruct Hsp as (embs & -> & Hembs). eauto.
        -- by rewrite decide_False by tauto.
      * rewrite (decide_False (P := _ ∧ _)) by tauto. done.
    + done.
Qed.

Lemma convertDocs_negative_sparse dvf svf vectors n docs : ∀ idx acc,
  svf ≠ "" →
  (∃ doc k, doc ∈ docs ∧ k ∈ dom (Document_SparseVector doc) ∧ k < 0) →
  ∃ e, convertDocs dvf svf vectors n idx docs acc = Err e.
Proof.
  induction docs as [|doc rest IH]; intros idx acc Hne (d & k & Hd & Hk & Hneg).
  - by apply elem_of_nil in Hd.
  - cbn [convertDocs].
    destruct (if decide (dvf ≠ "") then _ else _) as [vecs'|]; [|simpl; eauto].
    cbn [mbind result_bind].
    rewrite decide_True by done.
    destruct (toMilvusSparseEmbedding (Document_SparseVector doc)) as [se|e] eqn:Hse.
    + simpl. destruct (wrapErr _ (sonic_Marshal _)) as [md|]; [|simpl; eauto].
      simpl. apply IH; [done|].
      apply elem_of_cons in Hd as [->|Hd]; [|eauto].
      exfalso.
      destruct (toMilvusSparseEmbedding_negative _ k Hk Hneg) as [e He].
      congruence.
    + destruct e; simpl; eauto.
Qed.

(** X8: the documents' sparse vectors are looked at only under the method
    [Precomputed].  With any other method the converter behaves as if no
    sparse field were configured, whatever the documents' sparse vectors
    hold; with [Precomputed], one document with a negative sparse index
    makes the conversion of the whole batch fail. *)
Theorem sparse_vectors_only_for_precomputed (vector : option VectorConfig)
    (sp : SparseVectorConfig) (docs : list Document) (vectors : list (list float64)) :
  (Method sp ≠ SparseMethodPrecomputed →
     defaultDocumentConverter vector (Some sp) docs vectors
       = defaultDocumentConverter vector None docs vectors) ∧
  (Method sp = SparseMethodPrecomputed → Sparse_VectorField sp ≠ "" →
     ∀ doc k, doc ∈ docs → k ∈ dom (Document_SparseVector doc) → k < 0 →
       ∃ e, defaultDocumentConverter vector (Some sp) docs vectors = Err e).
Proof.
  split.
  - intros Hm. unfold defaultDocumentConverter. by rewrite decide_False by done.
  - intros Hm Hf doc k Hd Hk Hneg. unfold defaultDocumentConverter.
    rewrite decide_True by done.
    destruct (convertDocs_negative_sparse
                (match vector with Some v => Vector_VectorField v | None => "" end)
                (Sparse_VectorField sp) vectors (length docs) docs 0%nat
                (mkColumnData [] [] [] [] [])) as [e He]; [done|eauto|].
    rewrite He. simpl. eauto.
Qed.

End ColumnsOf.

Lemma defaultDocumentConverter_columns_witness :
  ∃ columns,
    defaultDocumentConverter (codec := exampleSonic) None
        (Some IndexerExamples.precomputedSparse) IndexerExamples.twoDocs [] = Ok columns ∧
    Column_Name <$> columns =
      [defaultIDField; defaultContentField; defaultMetadataField;
       defaultSparseVectorField].
Proof.
  destruct (defaultDocumentConverter (codec := exampleSonic) None
              (Some IndexerExamples.precomputedSparse) IndexerExamples.twoDocs [])
    as [columns|e] eqn:Hc; [|vm_compute in Hc; discriminate].
  exists columns. split; [reflexivity|].
  destruct (defaultDocumentConverter_columns _ _ _ _ _ Hc)
    as (mds & dense & sparseCols & -> & _ & -> & Hs).
  cbn in Hs. destruct Hs as (embs & -> & _). reflexivity.
Defined.

End IndexerExtras.

(** * [Indexer.Store] *)

Module StoreExtras.
Import Milvus2Indexer IndexerExamples.

Lemma GetImplSpecificOptions_Partition base opts :
  Partition (GetImplSpecificOptions base opts) =
    default (Partition base) (perCallPartition opts).
Proof.
  revert base. induction opts as [|o opts IH] using rev_ind; intros base; [done|].
  unfold GetImplSpecificOptions, perCallPartition in *.
  rewrite foldl_app, omap_app. simpl.
  destruct o; simpl; rewrite ?app_nil_r; try apply IH.
  by rewrite last_snoc.
Qed.

Lemma GetCommonOptions_Embedding base opts :
  Options_Embedding (GetCommonOptions base opts) =
    default (Options_Embedding base) (perCallEmbedding opts).
Proof.
  revert base. induction opts as [|o opts IH] using rev_ind; intros base; [done|].
  unfold GetCommonOptions, perCallEmbedding in *.
  rewrite foldl_app, omap_app. simpl.
  destruct o; simpl; rewrite ?app_nil_r; try apply IH.
  by rewrite last_snoc.
Qed.

Lemma collectIDs_Ok res ids : ∀ start,
  (∀ j s, ids !! j = Some s → IDs_GetAsString res (Z.of_nat (start + j)) = Ok s) →
  collectIDs res (seq start (length ids)) = Ok ids.
Proof.
  induction ids as [|s ids IH]; intros start Hget; [done|].
  simpl. rewrite <- (Nat.add_0_r start) at 1. rewrite (Hget 0%nat s) by done. simpl.
  rewrite IH; [done|]. intros j s' Hj.
  replace (S start + j)%nat with (start + S j)%nat by lia. by apply Hget.
Qed.

Lemma collectIDs_Err res indices j e :
  j ∈ indices → IDs_GetAsString res (Z.of_nat j) = Err e →
  ∃ e', collectIDs res indices = Err e'.
Proof.
  induction indices as [|idx rest IH]; intros Hj He; [by apply elem_of_nil in Hj|].
  simpl.
  destruct (IDs_GetAsString res (Z.of_nat idx)) as [s|e0] eqn:Hidx.
  - simpl. apply elem_of_cons in Hj as [->|Hj]; [congruence|].
    destruct (IH Hj He) as [e' ->]. simpl. eauto.
  - destruct e0; simpl; eauto.
Qed.

Lemma upsertedIDs_reports res ids : reportsIDs res ids → upsertedIDs res = Ok ids.
Proof.
  intros [Hlen Hget]. unfold upsertedIDs. rewrite decide_False by lia.
  rewrite Hlen, Nat2Z.id. by apply collectIDs_Ok.
Qed.

Section StoreRuns.
Context {W : Type} (B : MilvusWrite W).

(** The embedder and the partition that one call of [Store] uses. *)
Lemma Store_run (i : Indexer) docs opts w log :
  let emb := default (Embedding (config i)) (perCallEmbedding opts) in
  let partition := default (PartitionName (config i)) (perCallPartition opts) in
  Store (MW := recordingWrite B) i docs opts (w, log) =
    match embedDocuments emb docs with
    | Err e => (Err e, (w, log))
    | Ok vectors =>
        match wrapErr "[Indexer.Store] failed to convert documents"
                (match DocumentConverter (config i) with
                 | Some convert => convert docs vectors
                 | None => Err (runtimePanic "invalid memory address or nil pointer dereference")
                 end) with
        | Err e => (Err e, (w, log))
        | Ok columns =>
            let opt := mkInsertOption (Collection (config i)) partition columns in
            let '(r, w') := Upsert (MilvusWrite := B) (client i) opt w in
            (res ← wrapErr "[Indexer.Store] failed to upsert documents" r;
             upsertedIDs res, (w', log ++ [opt]))
        end
    end.
Proof.
  intros emb partition. unfold Store, upsertDocuments.
  rewrite GetCommonOptions_Embedding, GetImplSpecificOptions_Partition. simpl.
  fold emb partition.
  unfold mbind, IO_bind, liftResult, wrapIO. simpl.
  destruct (embedDocuments emb docs) as [vectors|e]; [|done].
  destruct (wrapErr _ match DocumentConverter (config i) with _ => _ end)
    as [columns|e]; [|done].
  destruct (Upsert (client i) _ w) as [[res|e] w']; simpl; [done|].
  by destruct e.
Qed.

(** X9: [Store] writes nothing when it fails before the upsert: when the
    embedder of the call fails, when it returns a number of vectors other
    than the number of documents, and when the converter fails (or there is
    none).  The embedder of the call is the one of the last
    [WithEmbedding] among the options, and the configured one without such
    an option; it is handed the contents of the documents, in order. *)
Theorem Store_fails_before_upsert (i : Indexer) (docs : list Document)
    (opts : list Option_) (w : W) (log : list InsertOption) :
  let emb := default (Embedding (config i)) (perCallEmbedding opts) in
  (∀ f e, emb = Some f → f (Content <$> docs) = Err e →
     ∃ e', Store (MW := recordingWrite B) i docs opts (w, log) = (Err e', (w, log))) ∧
  (∀ f vectors, emb = Some f → f (Content <$> docs) = Ok vectors →
     length vectors ≠ length docs →
     ∃ e', Store (MW := recordingWrite B) i docs opts (w, log) = (Err e', (w, log))) ∧
  (∀ vectors, embedDocuments emb docs = Ok vectors →
     (∀ convert columns, DocumentConverter (config i) = Some convert →
        convert docs vectors ≠ Ok columns) →
     ∃ e', Store (MW := recordingWrite B) i docs opts (w, log) = (Err e', (w, log))).
Proof.
  intros emb. pose proof (Store_run i docs opts w log) as Hrun.
  cbv zeta in Hrun. fold emb in Hrun.
  split; [|split].
  - intros f e Hemb Hf. rewrite Hrun. rewrite Hemb. unfold embedDocuments.
    rewrite Hf. destruct e; simpl; eauto.
  - intros f vectors Hemb Hf Hlen. rewrite Hrun. rewrite Hemb. unfold embedDocuments.
    rewrite Hf. simpl. rewrite decide_True by done. eauto.
  - intros vectors Hvec Hconv. rewrite Hrun, Hvec.
    destruct (DocumentConverter (config i)) as [convert|]; [|simpl; eauto].
    destruct (convert docs vectors) as [columns|e] eqn:Hc.
    + by destruct (Hconv convert columns).
    + destruct e; simpl; eauto.
Qed.

(** X10: when the embedding and the conversion succeed, [Store] makes one
    [Upsert], on the configured collection with the converter's columns;
    the partition is the one of the last [WithPartition] among the
    options, and the configured [PartitionName] without such an option.
    If the upsert fails, [Store] fails; if it reports ids, [Store] returns
    them in order; and if an id cannot be read, [Store] fails although the
    upsert has been made. *)
Theorem Store_upserts_once (i : Indexer) (docs : list Document)
    (opts : list Option_) (w w' : W) (log : list InsertOption)
    (vectors : list (list float64)) (convert : Converter) (columns : list Column)
    (r : result UpsertResult) :
  let emb := default (Embedding (config i)) (perCallEmbedding opts) in
  let opt := mkInsertOption (Collection (config i))
               (default (PartitionName (config i)) (perCallPartition opts)) columns in
  embedDocuments emb docs = Ok vectors →
  DocumentConverter (config i) = Some convert →
  convert docs vectors = Ok columns →
  Upsert (MilvusWrite := B) (client i) opt w = (r, w') →
  ∃ r', Store (MW := recordingWrite B) i docs opts (w, log) = (r', (w', log ++ [opt])) ∧
    (∀ e, r = Err e → ∃ e', r' = Err e') ∧
    (∀ res ids, r = Ok res → reportsIDs res ids → r' = Ok ids) ∧
    (∀ res j e, r = Ok res → 0 ≤ j < IDs_Len res →
       IDs_GetAsString res j = Err e → ∃ e', r' = Err e').
Proof.
  intros emb opt Hvec Hconv Hcols Hup.
  pose proof (Store_run i docs opts w log) as Hrun.
  cbv zeta in Hrun. fold emb in Hrun.
  rewrite Hvec, Hconv, Hcols in Hrun. simpl in Hrun. fold opt in Hrun.
  rewrite Hup in Hrun. eexists. split; [exact Hrun|].
  split; [|split].
  - intros e ->. destruct e; simpl; eauto.
  - intros res ids -> Hids. simpl. by apply upsertedIDs_reports.
  - intros res j e -> Hj He. simpl. unfold upsertedIDs.
    rewrite decide_False by lia.
    apply (collectIDs_Err res _ (Z.to_nat j) e).
    + apply elem_of_seq. lia.
    + by rewrite Z2Nat.id by lia.
Qed.

(** The dense column of the default converter, by the source of its
    vectors. *)
Lemma dense_column_vectors {codec : Sonic} v sparse docs vectors columns :
  Vector_VectorField v ≠ "" →
  defaultDocumentConverter (Some v) sparse docs vectors = Ok columns →
  ∃ dim,
    NewColumnFloatVector (Vector_VectorField v) dim
      (imap (λ j doc, to_float32_slice (sourceVecOf vectors (length docs) j doc)) docs)
      ∈ columns.
Proof.
  intros Hd Hc. unfold defaultDocumentConverter in Hc.
  destruct (convertDocs _ _ _ _ _ _ _) as [acc|] eqn:Hconv; [|discriminate].
  destruct (decide (Vector_VectorField v ≠ "")) as [_|]; [|done].
  simpl in Hc. apply ConversionProofs.convertDocs_vecs in Hconv; [|done].
  simpl in Hconv. rewrite <- Hconv. eexists. injection Hc as <-.
  case_decide; simpl; do 3 apply list_elem_of_further; apply list_elem_of_here.
Qed.

Lemma imap_sourceVecOf_given (vectors : list (list float64)) (docs : list Document) :
  length vectors = length docs →
  imap (λ j doc, to_float32_slice (sourceVecOf vectors (length docs) j doc)) docs
    = to_float32_slice <$> vectors.
Proof.
  intros Hlen. apply list_eq. intros j.
  rewrite list_lookup_imap, list_lookup_fmap.
  destruct (docs !! j) as [doc|] eqn:Hj; simpl.
  - unfold sourceVecOf. rewrite decide_True by done.
    destruct (lookup_lt_is_Some_2 vectors j) as [x Hx].
    { rewrite Hlen. by eapply lookup_lt_Some. }
    by rewrite Hx.
  - apply lookup_ge_None in Hj.
    by rewrite (proj2 (lookup_ge_None vectors j)) by lia.
Qed.

Lemma imap_sourceVecOf_own (docs : list Document) :
  imap (λ j doc, to_float32_slice (sourceVecOf [] (length docs) j doc)) docs
    = (λ doc, to_float32_slice (Document_DenseVector doc)) <$> docs.
Proof.
  destruct docs as [|d docs]; [done|].
  apply list_eq. intros j. rewrite list_lookup_imap, list_lookup_fmap.
  destruct ((d :: docs) !! j) as [doc|]; [|done]. simpl.
  unfold sourceVecOf. by rewrite decide_False by done.
Qed.

(** X11: which dense vectors are stored under the default converter.  With
    an embedder for the call, the dense column of the upsert holds the
    [float32] image of the embedder's vectors, and the documents' own dense
    vectors are not used; without one, it holds the [float32] image of the
    documents' own dense vectors. *)
Theorem Store_dense_vectors {codec : Sonic} (i : Indexer) (docs : list Document)
    (opts : list Option_) (w w' : W) (log log' : list InsertOption)
    (r : result (list string)) (v : VectorConfig) (sparse : option SparseVectorConfig) :
  let emb := default (Embedding (config i)) (perCallEmbedding opts) in
  DocumentConverter (config i) = Some (defaultDocumentConverter (Some v) sparse) →
  Vector_VectorField v ≠ "" →
  Store (MW := recordingWrite B) i docs opts (w, log) = (r, (w', log')) →
  log' = log ∨
  ∃ columns dim vecs,
    log' = log ++ [mkInsertOption (Collection (config i))
                     (default (PartitionName (config i)) (perCallPartition opts))
                     columns] ∧
    NewColumnFloatVector (Vector_VectorField v) dim vecs ∈ columns ∧
    match emb with
    | Some f => ∃ vectors, f (Content <$> docs) = Ok vectors ∧
                           vecs = to_float32_slice <$> vectors
    | None => vecs = (λ doc, to_float32_slice (Document_DenseVector doc)) <$> docs
    end.
Proof.
  intros emb Hconv Hfield Hstore.
  pose proof (Store_run i docs opts w log) as Hrun.
  cbv zeta in Hrun. fold emb in Hrun. rewrite Hrun in Hstore. clear Hrun.
  rewrite Hconv in Hstore.
  destruct (embedDocuments emb docs) as [vectors|e] eqn:Hemb;
    [|injection Hstore as _ _ <-; by left].
  destruct (defaultDocumentConverter (Some v) sparse docs vectors)
    as [columns|e] eqn:Hcols; simpl in Hstore;
    [|destruct e; injection Hstore as _ _ <-; by left].
  destruct (Upsert _ _ w) as [r0 w0]. injection Hstore as _ _ <-. right.
  destruct (dense_column_vectors v sparse docs vectors columns Hfield Hcols)
    as [dim Hin].
  exists columns, dim. eexists. split; [done|]. split; [exact Hin|].
  unfold embedDocuments in Hemb. destruct emb as [f|].
  - destruct (f (Content <$> docs)) as [vs|e] eqn:Hf;
      [|destruct e; discriminate].
    simpl in Hemb. case_decide as Hlen; [discriminate|]. injection Hemb as <-.
    exists vs. split; [done|]. apply imap_sourceVecOf_given.
    destruct (decide (length vs = length docs)); [done|]. by destruct Hlen.
  - injection Hemb as <-. apply imap_sourceVecOf_own.
Qed.

End StoreRuns.

Lemma Store_upserts_once_witness :
  Store (MW := recordingWrite echoWrite) denseIndexer twoDocs [WithPartition "p1"]
        ((), [])
    = (Ok ["a"; "b"],
       ((), [mkInsertOption defaultCollection "p1"
               [ NewColumnVarChar defaultIDField ["a"; "b"];
                 NewColumnVarChar defaultContentField ["alpha"; "beta"];
                 NewColumnJSONBytes defaultMetadataField [[]; []];
                 NewColumnFloatVector defaultVectorField 2
                   [to_float32_slice [one; one]; to_float32_slice [one; one]] ]])).
Proof.
  destruct (Store_upserts_once echoWrite denseIndexer twoDocs [WithPartition "p1"]
              () () [] [[one; one]; [one; one]]
              (defaultDocumentConverter (codec := exampleSonic)
                 (Some (mkVectorConfig 2 L2 None defaultVectorField)) None)
              [ NewColumnVarChar defaultIDField ["a"; "b"];
                NewColumnVarChar defaultContentField ["alpha"; "beta"];
                NewColumnJSONBytes defaultMetadataField [[]; []];
                NewColumnFloatVector defaultVectorField 2
                  [to_float32_slice [one; one]; to_float32_slice [one; one]] ]
              (Ok (idColumn ["a"; "b"]))
              eq_refl eq_refl eq_refl eq_refl) as (r' & Hrun & _ & Hids & _).
  rewrite Hrun. f_equal.
  apply (Hids (idColumn ["a"; "b"]) ["a"; "b"] eq_refl).
  split; [reflexivity|].
  intros [|[|j]] s Hj; simpl in Hj; try discriminate; by injection Hj as <-.
Defined.

Lemma Store_dense_vectors_witness :
  ∃ columns dim,
    (Store (MW := recordingWrite echoWrite) denseIndexer twoDocs [] ((), [])).2.2
      = [mkInsertOption defaultCollection "main" columns] ∧
    NewColumnFloatVector defaultVectorField dim
      [to_float32_slice [one; one]; to_float32_slice [one; one]] ∈ columns.
Proof.
  destruct (Store (MW := recordingWrite echoWrite) denseIndexer twoDocs [] ((), []))
    as [r [w' log']] eqn:Hstore.
  destruct (Store_dense_vectors echoWrite (codec := exampleSonic) denseIndexer twoDocs []
              () w' [] log' r (mkVectorConfig 2 L2 None defaultVectorField) None
              eq_refl ltac:(discriminate) Hstore)
    as [Hnone|(columns & dim & vecs & Hlog & Hin & vectors & Hvs & Hvecs)].
  - exfalso. vm_compute in Hstore. subst log'. discriminate.
  - exists columns, dim. split; [exact Hlog|].
    injection Hvs as <-. simpl in Hvecs. by rewrite Hvecs in Hin.
Defined.

End StoreExtras.

(** * Construction: indexes, creation and load *)

Module ConstructionExtras.
Import ConstructionProofs.

Section IndexerSetup.
Import Milvus2Indexer.
Context {codec : Sonic} {limits : SchemaLimits} {W : Type} (B : Milvus W).

Lemma createIndexOn_trace cli coll field idx msg1 msg2 :
  emits (described ← tryIO (DescribeIndex (Milvus := recording B) cli coll field);
         match (described : result unit) with
         | Ok _ => mret ()
         | Err _ =>
             createTask ← wrapIO msg1
                 (CreateIndex (Milvus := recording B) cli coll field idx);
             wrapIO msg2 (Await (Milvus := recording B) createTask)
         end)
    (indexEnsured cli coll field idx).
Proof.
  eapply emits_consequence.
  - eapply emits_bind with
      (Q := λ (d : result unit) r evs,
         match d with
         | Ok _ => r = Ok () ∧ evs = []
         | Err _ =>
             (∃ r1, evs = [EvCreateIndex cli coll field idx r1] ∧
                    (∀ task, r1 ≠ Ok task) ∧ ∃ e', r = Err e') ∨
             (∃ task r2, evs = [EvCreateIndex cli coll field idx (Ok task);
                                EvAwait task r2] ∧
                         (r = Ok () ↔ r2 = Ok ()))
         end);
      [apply emits_tryIO, emits_recorded|].
    intros [u|derr]; [apply emits_ret|].
    eapply emits_consequence.
    + eapply emits_bind; [apply emits_wrapIO, emits_recorded|].
      intros task. apply emits_wrapIO, emits_recorded.
    + intros r evs [(e & -> & r1 & Hr1 & ->)
                   |(task & evs3 & evs4 & -> & (r1 & Hr1 & ->) & (r2 & -> & ->))].
      * left. exists r1. split; [done|]. split; [|eauto].
        intros task ->. discriminate.
      * right. symmetry in Hr1. apply wrapErr_Ok in Hr1 as ->.
        exists task, r2. split; [done|]. split.
        -- apply wrapErr_Ok.
        -- by intros ->.
  - intros r evs [(e & _ & r0 & [=] & _)
                 |(d & evs1 & evs2 & -> & (r0 & [= ->] & ->) & Hk)].
    unfold indexEnsured. destruct r0 as [[]|e].
    + destruct Hk as [-> ->]. left. done.
    + destruct Hk as [(r1 & -> & Hr1 & He)|(task & r2 & -> & Hr)].
      * right. left. eauto.
      * right. right. eauto.
Qed.

Lemma createIndex_shape (cli : Client) (conf : IndexerConfig) :
  emits (createIndex (M := recording B) cli conf) (indexesEnsured cli conf).
Proof.
  unfold createIndex. eapply emits_consequence.
  - eapply emits_bind with
      (P := λ r evs,
         match Vector conf with
         | Some v =>
             indexEnsured cli (Collection conf) (Vector_VectorField v)
               (indexOf (Vector_IndexBuilder v) NewAutoIndex (Vector_MetricType v))
               r evs
         | None => r = Ok () ∧ evs = []
         end)
      (Q := λ _ r evs,
         match Sparse conf with
         | Some sp =>
             indexEnsured cli (Collection conf) (Sparse_VectorField sp)
               (indexOf (Sparse_IndexBuilder sp) NewSparseInvertedIndexBuilder
                        (Sparse_MetricType sp))
               r evs
         | None => r = Ok () ∧ evs = []
         end).
    + destruct (Vector conf) as [v|]; [|apply emits_ret].
      unfold createVectorIndex, indexOf.
      destruct (Vector_IndexBuilder v); apply createIndexOn_trace.
    + intros u. destruct (Sparse conf) as [sp|]; [|apply emits_ret].
      unfold createSparseIndex, indexOf.
      destruct (Sparse_IndexBuilder sp); apply createIndexOn_trace.
  - intros r evs [(e & -> & HP)|(u & evs1 & evs2 & -> & HP & HQ)].
    + exists (Err e), evs, []. rewrite app_nil_r. done.
    + exists (Ok u), evs1, evs2. done.
Qed.

(** X12: [createIndex] deals with the dense field first and then with the
    sparse one.  For each it asks for the description of the field's index
    and creates one (the configured builder's, or the default one, for the
    configured metric) only when the description fails; it awaits what it
    has created; and when the dense field could not be indexed the sparse
    field is not touched. *)
Theorem createIndex_trace (cli : Client) (conf : IndexerConfig) :
  emits (createIndex (M := recording B) cli conf)
    (λ r evs,
       indexesEnsured cli conf r evs ∧
       (∀ cli' coll field idx r1, EvCreateIndex cli' coll field idx r1 ∈ evs →
          ∃ e, EvDescribeIndex cli' coll field (Err e) ∈ evs) ∧
       (r = Ok () →
          ∀ cli' coll field idx r1, EvCreateIndex cli' coll field idx r1 ∈ evs →
            ∃ task, r1 = Ok task ∧ EvAwait task (Ok ()) ∈ evs)).
Proof.
  eapply emits_consequence; [apply createIndex_shape|].
  intros r evs Hshape. split; [done|].
  destruct Hshape as (rD & evsD & evsS & -> & HD & HS).
  assert (Hone : ∀ coll field idx r0 evs0,
            indexEnsured cli coll field idx r0 evs0 →
            (∀ cli' coll' field' idx' r1,
               EvCreateIndex cli' coll' field' idx' r1 ∈ evs0 →
               ∃ e, EvDescribeIndex cli' coll' field' (Err e) ∈ evs0) ∧
            (r0 = Ok () →
               ∀ cli' coll' field' idx' r1,
                 EvCreateIndex cli' coll' field' idx' r1 ∈ evs0 →
                 ∃ task, r1 = Ok task ∧ EvAwait task (Ok ()) ∈ evs0)).
  { intros coll field idx r0 evs0
      [[-> ->]|[(e & r1 & -> & Hr1 & e' & ->)|(e & task & r2 & -> & Hr)]].
    - split; [|intros _]; intros ? ? ? ? ? Hin; set_unfold; naive_solver.
    - split; [|discriminate]. intros ? ? ? ? ? Hin. exists e. set_unfold. naive_solver.
    - split.
      + intros ? ? ? ? ? Hin. exists e. set_unfold. naive_solver.
      + intros Hok ? ? ? ? ? Hin. apply Hr in Hok as ->. exists task.
        set_unfold. naive_solver. }
  assert (HDs : (∀ cli' coll' field' idx' r1,
                   EvCreateIndex cli' coll' field' idx' r1 ∈ evsD →
                   ∃ e, EvDescribeIndex cli' coll' field' (Err e) ∈ evsD) ∧
                (rD = Ok () →
                   ∀ cli' coll' field' idx' r1,
                     EvCreateIndex cli' coll' field' idx' r1 ∈ evsD →
                     ∃ task, r1 = Ok task ∧ EvAwait task (Ok ()) ∈ evsD)).
  { destruct (Vector conf) as [v|]; [by eapply Hone|].
    destruct HD as [_ ->]. split; [|intros _]; intros ? ? ? ? ? Hin; set_solver. }
  assert (HSs : (∀ cli' coll' field' idx' r1,
                   EvCreateIndex cli' coll' field' idx' r1 ∈ evsS →
                   ∃ e, EvDescribeIndex cli' coll' field' (Err e) ∈ evsS) ∧
                (r = Ok () →
                   ∀ cli' coll' field' idx' r1,
                     EvCreateIndex cli' coll' field' idx' r1 ∈ evsS →
                     ∃ task, r1 = Ok task ∧ EvAwait task (Ok ()) ∈ evsS)).
  { destruct rD as [u|e].
    - destruct (Sparse conf) as [sp|]; [by eapply Hone|].
      destruct HS as [_ ->]. split; [|intros _]; intros ? ? ? ? ? Hin; set_solver.
    - destruct HS as [_ ->]. split; [|intros _]; intros ? ? ? ? ? Hin; set_solver. }
  destruct HDs as [HD1 HD2], HSs as [HS1 HS2]. split.
  - intros cli' coll field idx r1 [Hin|Hin]%elem_of_app.
    + destruct (HD1 _ _ _ _ _ Hin) as [e He]. exists e. set_solver.
    + destruct (HS1 _ _ _ _ _ Hin) as [e He]. exists e. set_solver.
  - intros Hok cli' coll field idx r1 [Hin|Hin]%elem_of_app.
    + assert (HrD : rD = Ok ()).
      { destruct rD as [[]|e]; [done|]. destruct HS as [HrD _]. congruence. }
      destruct (HD2 HrD _ _ _ _ _ Hin) as (task & ? & ?). exists task. set_solver.
    + destruct (HS2 Hok _ _ _ _ _ Hin) as (task & ? & ?). exists task. set_solver.
Qed.

Lemma createCollection_trace cli conf :
  emits (createCollection (M := recording B) cli conf)
    (λ r evs,
       (evs = [] ∧ ∃ e, r = Err e) ∨
       ∃ sch r0,
         buildSchema conf = Ok sch ∧
         evs = [EvCreateCollection cli
                  (mkCreateCollectionOption (Collection conf) sch
                     (if decide (ConsistencyLevel_ conf ≠ ConsistencyLevelDefault)
                      then Some (ConsistencyLevel_ conf) else None)) r0] ∧
         (r = Ok () ↔ r0 = Ok ())).
Proof.
  unfold createCollection. eapply emits_consequence.
  - eapply emits_bind; [apply emits_liftResult|].
    intros sch. apply emits_wrapIO, emits_recorded.
  - intros r evs [(e & -> & _ & ->)|(sch & evs1 & evs2 & -> & [Hs ->] & r0 & -> & ->)].
    + left. eauto.
    + right. exists sch, r0. split; [done|]. split; [done|]. split.
      * apply wrapErr_Ok.
      * by intros ->.
Qed.

Lemma loadPart_trace cli conf (loadState : LoadStateCode) :
  emits (if decide (loadState ≠ LoadStateLoaded) then
           createIndex (M := recording B) cli conf;;
           loadTask ← wrapIO "[NewIndexer] failed to load collection"
               (LoadCollection (Milvus := recording B) cli (Collection conf));
           wrapIO "[NewIndexer] failed to await collection load"
               (Await (Milvus := recording B) loadTask)
         else mret ())
    (λ r evs,
       if decide (loadState = LoadStateLoaded) then evs = [] ∧ r = Ok ()
       else ∃ rI evsI evsL,
         evs = evsI ++ evsL ∧ indexesEnsured cli conf rI evsI ∧
         match rI with
         | Err _ => evsL = [] ∧ r = rI
         | Ok _ =>
             (∃ r3, evsL = [EvLoadCollection cli (Collection conf) r3] ∧
                    (∀ task, r3 ≠ Ok task) ∧ ∃ e, r = Err e) ∨
             (∃ task r4, evsL = [EvLoadCollection cli (Collection conf) (Ok task);
                                 EvAwait task r4] ∧
                         (r = Ok () ↔ r4 = Ok ()))
         end).
Proof.
  destruct (decide (loadState = LoadStateLoaded)) as [->|Hst].
  - rewrite decide_False by (intros H; by apply H).
    eapply emits_consequence; [apply emits_ret|]. by intros r evs [-> ->].
  - rewrite decide_True by done. eapply emits_consequence.
    + eapply emits_bind; [apply createIndex_shape|]. intros u.
      eapply emits_bind; [apply emits_wrapIO, emits_recorded|].
      intros task. apply emits_wrapIO, emits_recorded.
    + intros r evs [(e & -> & Hi)|(u & evs1 & evs2 & -> & Hi & Hrest)].
      * exists (Err e), evs, []. rewrite app_nil_r. done.
      * exists (Ok u), evs1, evs2. split; [done|]. split; [done|].
        destruct Hrest as [(e & -> & r0 & Hr0 & ->)
                          |(task & evs3 & evs4 & -> & (r0 & Hr0 & ->) & (r1 & -> & ->))].
        -- left. exists r0. split; [done|]. split; [|eauto].
           intros task ->. discriminate.
        -- right. symmetry in Hr0. apply wrapErr_Ok in Hr0 as ->.
           exists task, r1. split; [done|]. split; [apply wrapErr_Ok | by intros ->].
Qed.

Lemma indexEnsured_isLoadWork cli coll field idx r evs :
  indexEnsured cli coll field idx r evs → ∀ ev, ev ∈ evs → isLoadWork ev.
Proof.
  intros [[_ ->]|[(e & r1 & -> & _)|(e & task & r2 & -> & _)]] ev Hev;
    set_unfold; naive_solver.
Qed.

Lemma indexesEnsured_isLoadWork cli conf r evs :
  indexesEnsured cli conf r evs → ∀ ev, ev ∈ evs → isLoadWork ev.
Proof.
  intros (rD & evsD & evsS & -> & HD & HS) ev [Hev|Hev]%elem_of_app.
  - destruct (Vector conf); [by eapply indexEnsured_isLoadWork|].
    destruct HD as [_ ->]. set_solver.
  - destruct rD; [|destruct HS as [_ ->]; set_solver].
    destruct (Sparse conf); [by eapply indexEnsured_isLoadWork|].
    destruct HS as [_ ->]. set_solver.
Qed.

(** The calls of [initCollection]: the question whether the collection
    exists, at most one creation, then at most one question for the load
    state followed by the index and load work. *)
Lemma initCollection_shape cli conf :
  emits (initCollection (M := recording B) cli conf)
    (λ r evs, ∃ r0 create rest,
       evs = EvHasCollection cli (Collection conf) r0 :: create ++ rest ∧
       (create = [] ∧ (r0 = Ok true ∨ (rest = [] ∧ ∃ e, r = Err e)) ∨
        r0 = Ok false ∧ (∀ v, Vector conf = Some v → 0 < Dimension v) ∧
        ∃ sch r1,
          buildSchema conf = Ok sch ∧
          create = [EvCreateCollection cli
                      (mkCreateCollectionOption (Collection conf) sch
                         (if decide (ConsistencyLevel_ conf ≠ ConsistencyLevelDefault)
                          then Some (ConsistencyLevel_ conf) else None)) r1] ∧
          (r1 ≠ Ok () → rest = [] ∧ ∃ e, r = Err e)) ∧
       (rest = [] ∧ (∃ e, r = Err e) ∨
        ∃ r2 work,
          rest = EvGetLoadState cli (Collection conf) r2 :: work ∧
          match r2 with
          | Err _ => work = [] ∧ ∃ e, r = Err e
          | Ok st =>
              if decide (st = LoadStateLoaded) then work = [] ∧ r = Ok ()
              else ∃ rI evsI evsL,
                work = evsI ++ evsL ∧ indexesEnsured cli conf rI evsI ∧
                match rI with
                | Err _ => evsL = [] ∧ r = rI
                | Ok _ =>
                    (∃ r3, evsL = [EvLoadCollection cli (Collection conf) r3] ∧
                           (∀ task, r3 ≠ Ok task) ∧ ∃ e, r = Err e) ∨
                    (∃ task r4,
                       evsL = [EvLoadCollection cli (Collection conf) (Ok task);
                               EvAwait task r4] ∧
                       (r = Ok () ↔ r4 = Ok ()))
                end
          end)).
Proof.
  unfold initCollection. eapply emits_consequence.
  - eapply emits_bind; [apply emits_wrapIO, emits_recorded|]. intros has.
    eapply emits_bind with
      (P := λ r evs,
         if has then r = Ok () ∧ evs = []
         else (evs = [] ∧ ∃ e, r = Err e) ∨
              ((∀ v, Vector conf = Some v → 0 < Dimension v) ∧
               ∃ sch r1,
                 buildSchema conf = Ok sch ∧
                 evs = [EvCreateCollection cli
                          (mkCreateCollectionOption (Collection conf) sch
                             (if decide (ConsistencyLevel_ conf ≠ ConsistencyLevelDefault)
                              then Some (ConsistencyLevel_ conf) else None)) r1] ∧
                 (r = Ok () ↔ r1 = Ok ()))).
    + destruct has; [apply emits_ret|].
      destruct (Vector conf) as [v|] eqn:Hv.
      * case_decide as Hdim.
        -- eapply emits_consequence; [apply emits_liftResult|].
           intros r evs [-> ->]. left. eauto.
        -- eapply emits_consequence; [apply createCollection_trace|].
           intros r evs [?|?]; [by left|right]. split; [|done].
           intros v' [= <-]. lia.
      * eapply emits_consequence; [apply createCollection_trace|].
        intros r evs [?|?]; [by left|right]. split; [|done]. intros v' [=].
    + intros u. eapply emits_bind; [apply emits_wrapIO, emits_recorded|].
      intros loadState. apply loadPart_trace.
  - intros r evs Hpost. simpl in Hpost.
    destruct Hpost as [(e & -> & r0 & Hr0 & ->)
                      |(has & evs1 & evs2 & -> & (r0 & Hr0 & ->) & Hpost)].
    { exists r0, (@nil Event), (@nil Event). split; [done|]. split; left; eauto. }
    symmetry in Hr0. apply wrapErr_Ok in Hr0 as ->.
    destruct Hpost as [(e & -> & HB)|(u & evs3 & evs4 & -> & HB & Hpost)].
    { destruct has; [by destruct HB|].
      destruct HB as [[-> _]|(Hdim & sch & r1 & Hsch & -> & Hr1)].
      - exists (Ok false), (@nil Event), (@nil Event). split; [done|].
        split; left; eauto.
      - exists (Ok false), [EvCreateCollection cli
                  (mkCreateCollectionOption (Collection conf) sch
                     (if decide (ConsistencyLevel_ conf ≠ ConsistencyLevelDefault)
                      then Some (ConsistencyLevel_ conf) else None)) r1], (@nil Event).
        split; [done|]. split; [right|left; eauto].
        split; [done|]. split; [done|]. exists sch, r1. eauto. }
    assert (Hcreate :
      evs3 = [] ∧ has = true ∨
      has = false ∧ (∀ v, Vector conf = Some v → 0 < Dimension v) ∧
      ∃ sch, buildSchema conf = Ok sch ∧
        evs3 = [EvCreateCollection cli
                  (mkCreateCollectionOption (Collection conf) sch
                     (if decide (ConsistencyLevel_ conf ≠ ConsistencyLevelDefault)
                      then Some (ConsistencyLevel_ conf) else None)) (Ok ())]).
    { destruct has; [left; by destruct HB|right].
      destruct HB as [[_ [e [=]]]|(Hdim & sch & r1 & Hsch & -> & Hr1)].
      split; [done|]. split; [done|]. exists sch. split; [done|].
      destruct u. by rewrite (proj1 Hr1 eq_refl). }
    assert (Hfirst : ∀ rest : list Event,
      evs3 = [] ∧ (@Ok bool has = Ok true ∨ (rest = [] ∧ ∃ e, r = Err e)) ∨
      @Ok bool has = Ok false ∧ (∀ v, Vector conf = Some v → 0 < Dimension v) ∧
      ∃ sch r1,
        buildSchema conf = Ok sch ∧
        evs3 = [EvCreateCollection cli
                  (mkCreateCollectionOption (Collection conf) sch
                     (if decide (ConsistencyLevel_ conf ≠ ConsistencyLevelDefault)
                      then Some (ConsistencyLevel_ conf) else None)) r1] ∧
        (r1 ≠ Ok () → rest = [] ∧ ∃ e, r = Err e)).
    { intros rest. destruct Hcreate as [[-> ->]|(-> & Hdim & sch & Hsch & ->)].
      - left. eauto.
      - right. split; [done|]. split; [done|]. exists sch, (Ok ()).
        split; [done|]. split; [done|]. by intros []. }
    destruct Hpost as [(e & -> & r0 & Hr0 & ->)
                      |(st & evs5 & evs6 & -> & (r0 & Hr0 & ->) & Hwork)].
    { exists (Ok has), evs3, [EvGetLoadState cli (Collection conf) r0].
      split; [done|]. split; [apply Hfirst|]. right.
      exists r0, []. split; [done|].
      destruct r0 as [st|e0]; [destruct e; discriminate|]. eauto. }
    symmetry in Hr0. apply wrapErr_Ok in Hr0 as ->.
    exists (Ok has), evs3, (EvGetLoadState cli (Collection conf) (Ok st) :: evs6).
    split; [done|]. split; [apply Hfirst|]. right.
    exists (Ok st), evs6. split; [done|]. exact Hwork.
Qed.

(** X13: [initCollection] asks for the creation of the collection only
    after the backend has answered that the collection does not exist, and
    not when the dense dimension is not positive; the creation is asked for
    under the configured name, with the schema of [buildSchema], and with
    the configured consistency level when that is not the default one.
    When the creation fails, the construction fails and the backend is not
    called again.  After the answer that the collection exists, nothing is
    created. *)
Theorem initCollection_creation (cli : Client) (conf : IndexerConfig) :
  emits (initCollection (M := recording B) cli conf)
    (λ r evs,
       (∀ cli' opt r1, EvCreateCollection cli' opt r1 ∈ evs →
          cli' = cli ∧
          EvHasCollection cli (Collection conf) (Ok false) ∈ evs ∧
          (∀ v, Vector conf = Some v → 0 < Dimension v) ∧
          CreateCollection_Name opt = Collection conf ∧
          buildSchema conf = Ok (CreateCollection_Schema opt) ∧
          CreateCollection_ConsistencyLevel opt =
            (if decide (ConsistencyLevel_ conf ≠ ConsistencyLevelDefault)
             then Some (ConsistencyLevel_ conf) else None) ∧
          (r1 ≠ Ok () →
             (∃ e, r = Err e) ∧
             evs = [EvHasCollection cli (Collection conf) (Ok false);
                    EvCreateCollection cli' opt r1])) ∧
       (EvHasCollection cli (Collection conf) (Ok true) ∈ evs →
          ∀ ev, ev ∈ evs → ¬ isCreateCollection ev)).
Proof.
  eapply emits_consequence; [apply initCollection_shape|].
  intros r evs (r0 & create & rest & -> & Hcreate & Hrest).
  assert (Hwork : ∀ ev, ev ∈ rest → ¬ isCreateCollection ev).
  { intros ev Hev. destruct Hrest as [[-> _]|(r2 & work & -> & Hw)]; [set_solver|].
    apply elem_of_cons in Hev as [->|Hev]; [simpl; tauto|].
    apply isLoadWork_not_CreateCollection.
    destruct r2 as [st|e]; [|destruct Hw as [-> _]; set_solver].
    destruct (decide (st = LoadStateLoaded)); [destruct Hw as [-> _]; set_solver|].
    destruct Hw as (rI & evsI & evsL & -> & HI & HL).
    apply elem_of_app in Hev as [Hev|Hev]; [by eapply indexesEnsured_isLoadWork|].
    destruct rI; [|destruct HL as [-> _]; set_solver].
    destruct HL as [(r3 & -> & _)|(task & r4 & -> & _)]; set_unfold; naive_solver. }
  split.
  - intros cli' opt r1 Hin.
    apply elem_of_cons in Hin as [[=]|Hin].
    apply elem_of_app in Hin as [Hin|Hin]; [|by destruct (Hwork _ Hin)].
    destruct Hcreate as [[-> _]|(-> & Hdim & sch & r1' & Hsch & -> & Hfail)];
      [set_solver|].
    apply list_elem_of_singleton in Hin. injection Hin as -> -> ->.
    split; [done|]. split; [set_solver|]. split; [done|]. split; [done|].
    split; [done|]. split; [done|].
    intros Hne. destruct (Hfail Hne) as [-> He]. done.
  - intros Hin ev Hev.
    assert (r0 = Ok true) as ->.
    { apply elem_of_cons in Hin as [[=]|Hin]; [done|].
      apply elem_of_app in Hin as [Hin|Hin].
      - destruct Hcreate as [[-> _]|(_ & _ & sch & r1 & _ & -> & _)]; set_solver.
      - exfalso. destruct Hrest as [[-> _]|(r2 & work & -> & Hw)]; [set_solver|].
        apply elem_of_cons in Hin as [[=]|Hin].
        assert (Hlw : ∀ ev, ev ∈ work → isLoadWork ev).
        { intros ev' Hev'.
          destruct r2 as [st|e]; [|destruct Hw as [-> _]; set_solver].
          destruct (decide (st = LoadStateLoaded)); [destruct Hw as [-> _]; set_solver|].
          destruct Hw as (rI & evsI & evsL & -> & HI & HL).
          apply elem_of_app in Hev' as [Hev'|Hev'];
            [by eapply indexesEnsured_isLoadWork|].
          destruct rI; [|destruct HL as [-> _]; set_solver].
          destruct HL as [(r3 & -> & _)|(task & r4 & -> & _)];
            set_unfold; naive_solver. }
        by apply (Hlw _ Hin). }
    destruct Hcreate as [[-> _]|([=] & _)].
    apply elem_of_cons in Hev as [->|Hev]; [simpl; tauto|].
    by apply Hwork.
Qed.

(** X14: [initCollection] leaves a collection alone that the backend
    reports as loaded: it succeeds without describing or creating an index
    and without loading.  It describes or creates indexes and loads only
    after the backend has reported another load state; it asks for the
    load only after every index it has asked for has been created and
    awaited with success; and it succeeds then only if the load has been
    awaited with success. *)
Theorem initCollection_load (cli : Client) (conf : IndexerConfig) :
  emits (initCollection (M := recording B) cli conf)
    (λ r evs,
       (EvGetLoadState cli (Collection conf) (Ok LoadStateLoaded) ∈ evs →
          r = Ok () ∧ ∀ ev, ev ∈ evs → ¬ isLoadWork ev) ∧
       (∀ ev, ev ∈ evs → isLoadWork ev →
          ∃ st, st ≠ LoadStateLoaded ∧
                EvGetLoadState cli (Collection conf) (Ok st) ∈ evs) ∧
       (∀ cli' coll r3, EvLoadCollection cli' coll r3 ∈ evs →
          cli' = cli ∧ coll = Collection conf ∧
          ∀ cli'' coll' field idx r1, EvCreateIndex cli'' coll' field idx r1 ∈ evs →
            ∃ task, r1 = Ok task ∧ EvAwait task (Ok ()) ∈ evs) ∧
       (r = Ok () →
          EvGetLoadState cli (Collection conf) (Ok LoadStateLoaded) ∈ evs ∨
          ∃ task, EvLoadCollection cli (Collection conf) (Ok task) ∈ evs ∧
                  EvAwait task (Ok ()) ∈ evs)).
Proof.
  eapply emits_consequence; [apply initCollection_shape|].
  intros r evs (r0 & create & rest & -> & Hcreate & Hrest).
  assert (Hc : ∀ ev, ev ∈ create → isCreateCollection ev).
  { intros ev Hev.
    destruct Hcreate as [[-> _]|(_ & _ & sch & r1 & _ & -> & _)]; [set_solver|].
    apply list_elem_of_singleton in Hev as ->. done. }
  assert (Hpre : ∀ ev, ev ∈ EvHasCollection cli (Collection conf) r0 :: create →
                       ¬ isLoadWork ev ∧ ¬ isGetLoadState ev ∧
                       ∀ cli' coll' field idx r1,
                         ev ≠ EvCreateIndex cli' coll' field idx r1).
  { intros ev [->|Hev]%elem_of_cons; [simpl; naive_solver|].
    apply Hc in Hev. destruct ev; simpl in *; naive_solver. }
  destruct Hrest as [[-> Herr]|(r2 & work & -> & Hw)].
  { rewrite app_nil_r. split; [|split; [|split]].
    - intros Hin. apply Hpre in Hin. simpl in Hin. tauto.
    - intros ev Hev Hlw. apply Hpre in Hev. tauto.
    - intros cli' coll r3 Hin. apply Hpre in Hin. simpl in Hin. tauto.
    - intros ->. destruct Herr as [e [=]]. }
  destruct r2 as [st|e].
  2:{ destruct Hw as [-> Herr]. split; [|split; [|split]].
      - intros Hin. rewrite app_comm_cons in Hin.
        apply elem_of_app in Hin as [Hin|Hin];
          [apply Hpre in Hin; simpl in Hin; tauto|set_solver].
      - intros ev Hev Hlw. rewrite app_comm_cons in Hev.
        apply elem_of_app in Hev as [Hev|Hev]; [apply Hpre in Hev; tauto|].
        apply list_elem_of_singleton in Hev as ->. done.
      - intros cli' coll r3 Hin. rewrite app_comm_cons in Hin.
        apply elem_of_app in Hin as [Hin|Hin];
          [apply Hpre in Hin; simpl in Hin; tauto|set_solver].
      - intros ->. destruct Herr as [e' [=]]. }
  destruct (decide (st = LoadStateLoaded)) as [->|Hst].
  { destruct Hw as [-> ->]. split; [|split; [|split]].
    - intros _. split; [done|]. intros ev Hev. rewrite app_comm_cons in Hev.
      apply elem_of_app in Hev as [Hev|Hev]; [apply Hpre in Hev; tauto|].
      apply list_elem_of_singleton in Hev as ->. simpl. tauto.
    - intros ev Hev Hlw. rewrite app_comm_cons in Hev.
      apply elem_of_app in Hev as [Hev|Hev]; [apply Hpre in Hev; tauto|].
      apply list_elem_of_singleton in Hev as ->. done.
    - intros cli' coll r3 Hin. rewrite app_comm_cons in Hin.
      apply elem_of_app in Hin as [Hin|Hin];
        [apply Hpre in Hin; simpl in Hin; tauto|set_solver].
    - intros _. left. set_solver. }
  destruct Hw as (rI & evsI & evsL & -> & HI & HL).
  assert (HlwI : ∀ ev, ev ∈ evsI → isLoadWork ev)
    by (by eapply indexesEnsured_isLoadWork).
  assert (HnoLoadI : ∀ cli' coll r3, EvLoadCollection cli' coll r3 ∉ evsI).
  { intros cli' coll r3 Hin.
    destruct HI as (rD & evsD & evsS & -> & HD & HS).
    assert (Hone : ∀ coll0 field idx r5 evs0,
              indexEnsured cli coll0 field idx r5 evs0 →
              EvLoadCollection cli' coll r3 ∉ evs0).
    { intros coll0 field idx r5 evs0
        [[_ ->]|[(e & r1 & -> & _)|(e & task & r2 & -> & _)]]; set_solver. }
    apply elem_of_app in Hin as [Hin|Hin].
    - destruct (Vector conf); [by eapply Hone|]. destruct HD as [_ ->]. set_solver.
    - destruct rD; [|destruct HS as [_ ->]; set_solver].
      destruct (Sparse conf); [by eapply Hone|]. destruct HS as [_ ->]. set_solver. }
  split; [|split; [|split]].
  - intros Hin. exfalso. rewrite app_comm_cons in Hin.
    apply elem_of_app in Hin as [Hin|Hin];
      [apply Hpre in Hin; simpl in Hin; tauto|].
    apply elem_of_cons in Hin as [[=]|Hin]; [done|].
    apply elem_of_app in Hin as [Hin|Hin]; [by apply HlwI in Hin|].
    destruct rI; [|destruct HL as [-> _]; set_solver].
    destruct HL as [(r3 & -> & _)|(task & r4 & -> & _)]; set_solver.
  - intros ev Hev Hlw. exists st. split; [done|]. set_solver.
  - intros cli' coll r3 Hin. rewrite app_comm_cons in Hin.
    apply elem_of_app in Hin as [Hin|Hin];
      [apply Hpre in Hin; simpl in Hin; tauto|].
    apply elem_of_cons in Hin as [[=]|Hin].
    apply elem_of_app in Hin as [Hin|Hin]; [by apply HnoLoadI in Hin|].
    destruct rI as [u|e]; [|destruct HL as [-> _]; set_solver].
    assert (Hcli : cli' = cli ∧ coll = Collection conf).
    { destruct HL as [(r3' & -> & _)|(task & r4 & -> & _)]; set_solver. }
    split; [apply Hcli|]. split; [apply Hcli|].
    intros cli'' coll' field idx r1 Hin'.
    rewrite app_comm_cons in Hin'.
    apply elem_of_app in Hin' as [Hin'|Hin'];
      [apply Hpre in Hin'; naive_solver|].
    apply elem_of_cons in Hin' as [[=]|Hin'].
    apply elem_of_app in Hin' as [Hin'|Hin'].
    + destruct HI as (rD & evsD & evsS & -> & HD & HS).
      assert (Hone : ∀ coll0 field0 idx0 evs0,
                indexEnsured cli coll0 field0 idx0 (Ok ()) evs0 →
                EvCreateIndex cli'' coll' field idx r1 ∈ evs0 →
                ∃ task, r1 = Ok task ∧ EvAwait task (Ok ()) ∈ evs0).
      { intros coll0 field0 idx0 evs0
          [[_ ->]|[(e & r1' & -> & _ & e' & [=])|(e & task & r2 & -> & Hr)]] Hi.
        - set_solver.
        - rewrite (proj1 Hr eq_refl) in Hi. exists task. set_unfold. naive_solver. }
      assert (HrD : rD = Ok ()).
      { destruct rD as [[]|e]; [done|]. destruct HS as [[=] _]. }
      subst rD. destruct u.
      apply elem_of_app in Hin' as [Hin'|Hin'].
      * destruct (Vector conf); [|destruct HD as [_ ->]; set_solver].
        destruct (Hone _ _ _ _ HD Hin') as (task & ? & ?). exists task. set_solver.
      * destruct (Sparse conf); [|destruct HS as [_ ->]; set_solver].
        destruct (Hone _ _ _ _ HS Hin') as (task & ? & ?). exists task. set_solver.
    + destruct HL as [(r3' & -> & _)|(task & r4 & -> & _)]; set_solver.
  - intros ->. right. destruct rI as [u|e]; [|destruct HL as [_ [=]]].
    destruct HL as [(r3 & _ & _ & e & [=])|(task & r4 & -> & Hr)].
    rewrite (proj1 Hr eq_refl). exists task. set_solver.
Qed.

(** X23: the indexer that [NewIndexer] returns holds the configuration
    that [validate] has made of the given one, and the given client when
    there is one.  Its converter is the given converter, and without one
    the default converter for the vector configurations after defaulting,
    so [Store] on a constructed indexer always has a converter to call. *)
Theorem NewIndexer_holds_validated_config (conf : IndexerConfig) (w w' : W)
    (idx : Indexer) :
  NewIndexer (M := B) conf w = (Ok idx, w') →
  validate conf = Ok (config idx) ∧
  (∀ cli, Client_ conf = Some cli → client idx = cli) ∧
  DocumentConverter (config idx) =
    Some (default (defaultDocumentConverter (Vector (config idx)) (Sparse (config idx)))
                  (DocumentConverter conf)).
Proof.
  unfold NewIndexer. intros Hrun.
  apply bind_run in Hrun as [(e & _ & [=])|(conf' & w1 & Hval & Hrun)].
  unfold liftResult in Hval. injection Hval as Hval <-.
  apply bind_run in Hrun as [(e & _ & [=])|(cli & w2 & Hcli & Hrun)].
  apply bind_run in Hrun as [(e & _ & [=])|(u & w3 & Hinit & Hrun)].
  injection Hrun as <- <-. simpl.
  split; [done|]. split.
  - intros cli' Hgiven. unfold initClient in Hcli.
    destruct (validate_Client _ _ Hval) as (Hc & _). rewrite Hc, Hgiven in Hcli.
    by injection Hcli as <- _.
  - pose proof (IndexerExtras.validate_result _ _ Hval) as Hc'.
    cbv zeta in Hc'. by rewrite Hc'.
Qed.

End IndexerSetup.

Lemma NewIndexer_holds_validated_config_witness :
  ∃ idx, indexerRun.1 = Ok idx ∧
         Milvus2Indexer.validate (codec := exampleSonic) IndexerExamples.sparseOnlyConfig
           = Ok (Milvus2Indexer.config idx).
Proof.
  destruct indexerRun as [[idx|e] w'] eqn:Hrun.
  - exists idx. split; [reflexivity|].
    exact (proj1 (NewIndexer_holds_validated_config (codec := exampleSonic)
                    (limits := exampleLimits) (recording inMemory)
                    IndexerExamples.sparseOnlyConfig (emptyStore, []) w' idx Hrun)).
  - exfalso.
    assert (Hok : is_Ok indexerRun.1 = true) by (vm_compute; reflexivity).
    rewrite Hrun in Hok. discriminate.
Defined.

Section RetrieverSetup.
Import Milvus2Retriever.
Context {codec : Sonic} {W : Type} (B : Milvus W) {Mode : Type}.

(** X15: the calls of the retriever's [loadCollection] are one of four
    sequences: the question whether the collection exists, answered with
    anything but yes, after which it fails; that question and the one for
    the load state, after which it succeeds if the collection is loaded
    and fails if the state is not told; these two and a refused load; or
    these two, a load and its await, whose outcome decides.  So the
    retriever never creates a collection, never describes or creates an
    index, and never loads what is loaded. *)
Theorem loadCollection_trace (cli : Client) (conf : RetrieverConfig Mode) :
  emits (loadCollection (M := recording B) cli conf)
    (λ r evs,
       let coll := Collection conf in
       (∃ r0, evs = [EvHasCollection cli coll r0] ∧ r0 ≠ Ok true ∧ ∃ e, r = Err e) ∨
       (evs = [EvHasCollection cli coll (Ok true);
               EvGetLoadState cli coll (Ok LoadStateLoaded)] ∧ r = Ok ()) ∨
       (∃ e, evs = [EvHasCollection cli coll (Ok true);
                    EvGetLoadState cli coll (Err e)] ∧ ∃ e', r = Err e') ∨
       (∃ st r2, st ≠ LoadStateLoaded ∧
                 evs = [EvHasCollection cli coll (Ok true);
                        EvGetLoadState cli coll (Ok st);
                        EvLoadCollection cli coll r2] ∧
                 (∀ task, r2 ≠ Ok task) ∧ ∃ e, r = Err e) ∨
       (∃ st task r3, st ≠ LoadStateLoaded ∧
                      evs = [EvHasCollection cli coll (Ok true);
                             EvGetLoadState cli coll (Ok st);
                             EvLoadCollection cli coll (Ok task);
                             EvAwait task r3] ∧
                      (r = Ok () ↔ r3 = Ok ()))).
Proof.
  unfold loadCollection. eapply emits_consequence.
  - eapply emits_bind with
      (Q := λ (has : bool) r evs,
         if has then
           (evs = [EvGetLoadState cli (Collection conf) (Ok LoadStateLoaded)] ∧ r = Ok ()) ∨
           (∃ e, evs = [EvGetLoadState cli (Collection conf) (Err e)] ∧ ∃ e', r = Err e') ∨
           (∃ st r2, st ≠ LoadStateLoaded ∧
                     evs = [EvGetLoadState cli (Collection conf) (Ok st);
                            EvLoadCollection cli (Collection conf) r2] ∧
                     (∀ task, r2 ≠ Ok task) ∧ ∃ e, r = Err e) ∨
           (∃ st task r3, st ≠ LoadStateLoaded ∧
                          evs = [EvGetLoadState cli (Collection conf) (Ok st);
                                 EvLoadCollection cli (Collection conf) (Ok task);
                                 EvAwait task r3] ∧
                          (r = Ok () ↔ r3 = Ok ()))
         else evs = [] ∧ ∃ e, r = Err e);
      [apply emits_wrapIO, emits_recorded|].
    intros [|].
    + eapply emits_consequence.
      * eapply emits_bind with
          (Q := λ (st : LoadStateCode) r evs,
             if decide (st = LoadStateLoaded) then r = Ok () ∧ evs = []
             else
               (∃ r2, evs = [EvLoadCollection cli (Collection conf) r2] ∧
                      (∀ task, r2 ≠ Ok task) ∧ ∃ e, r = Err e) ∨
               (∃ task r3, evs = [EvLoadCollection cli (Collection conf) (Ok task);
                                  EvAwait task r3] ∧
                           (r = Ok () ↔ r3 = Ok ())));
          [apply emits_wrapIO, emits_recorded|].
        intros st. destruct (decide (st = LoadStateLoaded)) as [->|Hst].
        -- rewrite decide_False by (intros H; by apply H). apply emits_ret.
        -- rewrite decide_True by done. eapply emits_consequence.
           ++ eapply emits_bind; [apply emits_wrapIO, emits_recorded|].
              intros task. apply emits_wrapIO, emits_recorded.
           ++ intros r evs
                [(e & -> & r0 & Hr0 & ->)
                |(task & evs3 & evs4 & -> & (r0 & Hr0 & ->) & (r1 & -> & ->))].
              ** left. exists r0. split; [done|]. split; [|eauto].
                 intros task ->. discriminate.
              ** right. symmetry in Hr0. apply wrapErr_Ok in Hr0 as ->.
                 exists task, r1. split; [done|].
                 split; [apply wrapErr_Ok | by intros ->].
      * intros r evs [(e & -> & r0 & Hr0 & ->)
                     |(st & evs1 & evs2 & -> & (r0 & Hr0 & ->) & Hk)].
        -- right. left. destruct r0 as [st|e0]; [destruct e; discriminate|].
           exists e0. eauto.
        -- symmetry in Hr0. apply wrapErr_Ok in Hr0 as ->.
           destruct (decide (st = LoadStateLoaded)) as [->|Hst].
           ++ destruct Hk as [-> ->]. by left.
           ++ right. right. destruct Hk as [(r2 & -> & ? & ?)|(task & r3 & -> & ?)].
              ** left. exists st, r2. eauto.
              ** right. exists st, task, r3. eauto.
    + eapply emits_consequence; [apply emits_liftResult|].
      intros r evs [-> ->]. eauto.
  - intros r evs [(e & -> & r0 & Hr0 & ->)
                 |(has & evs1 & evs2 & -> & (r0 & Hr0 & ->) & Hk)].
    + left. exists r0. split; [done|]. split; [|eauto].
      intros ->. destruct e; discriminate.
    + symmetry in Hr0. apply wrapErr_Ok in Hr0 as ->. destruct has.
      * right.
        destruct Hk as [[-> ->]|[(e & -> & He)
                       |[(st & r2 & ? & -> & ? & ?)|(st & task & r3 & ? & -> & ?)]]].
        -- by left.
        -- right. left. eauto.
        -- right. right. left. exists st, r2. eauto.
        -- right. right. right. exists st, task, r3. eauto.
      * destruct Hk as [-> He]. left. exists (Ok false). eauto.
Qed.

End RetrieverSetup.

End ConstructionExtras.

(** * Further properties of the retriever *)

Module RetrieverExtras.
Import Milvus2Retriever RetrieverExamples.

Section Validate.
Context {codec : Sonic} {Mode : Type}.

(** X16: the retriever's [validate] fails exactly when neither a client
    nor a client configuration is given, or no search mode.  What it
    returns otherwise has a collection, a dense and a sparse field name,
    output fields, a positive [TopK] and a converter; it keeps what the
    caller has set; and validating it again changes nothing. *)
Theorem retriever_validate_outcome (c : RetrieverConfig Mode) :
  match validate c with
  | Err _ => (Client_ c = None ∧ ClientConfig_ c = None) ∨ SearchMode c = None
  | Ok c' =>
      (Client_ c ≠ None ∨ ClientConfig_ c ≠ None) ∧ SearchMode c ≠ None ∧
      Collection c' ≠ "" ∧ VectorField c' ≠ "" ∧ SparseVectorField c' ≠ "" ∧
      OutputFields c' ≠ [] ∧ 0 < TopK c' ∧ DocumentConverter c' ≠ None ∧
      Client_ c' = Client_ c ∧ ClientConfig_ c' = ClientConfig_ c ∧
      Partitions c' = Partitions c ∧ ConsistencyLevel_ c' = ConsistencyLevel_ c ∧
      SearchMode c' = SearchMode c ∧ Embedding c' = Embedding c ∧
      (Collection c ≠ "" → Collection c' = Collection c) ∧
      (VectorField c ≠ "" → VectorField c' = VectorField c) ∧
      (SparseVectorField c ≠ "" → SparseVectorField c' = SparseVectorField c) ∧
      (OutputFields c ≠ [] → OutputFields c' = OutputFields c) ∧
      (OutputFields c = [] → OutputFields c' = ["*"]) ∧
      (0 < TopK c → TopK c' = TopK c) ∧
      (TopK c ≤ 0 → TopK c' = defaultTopK) ∧
      (∀ f, DocumentConverter c = Some f → DocumentConverter c' = Some f) ∧
      validate c' = Ok c'
  end.
Proof.
  unfold validate at 1.
  destruct (Client_ c) as [cli|] eqn:Hcli, (ClientConfig_ c) as [cfg|] eqn:Hcfg;
    simpl; try (by left);
    (destruct (SearchMode c) as [m|] eqn:Hm; simpl; [|by right]).
  all: split; [naive_solver|]; split; [done|].
  all: split; [case_decide; [by compute|done]|].
  all: split; [case_decide; [by compute|done]|].
  all: split; [case_decide; [by compute|done]|].
  all: split; [case_decide as Hl; [done|by destruct (OutputFields c)]|].
  all: split; [case_decide; [by compute|lia]|].
  all: split; [done|].
  all: do 6 (split; [done|]).
  all: split; [intros; by rewrite decide_False|].
  all: split; [intros; by rewrite decide_False|].
  all: split; [intros; by rewrite decide_False|].
  all: split; [intros; rewrite decide_False; [done|by destruct (OutputFields c)]|].
  all: split; [intros ->; by rewrite decide_True|].
  all: split; [intros; by rewrite decide_False by lia|].
  all: split; [intros; by rewrite decide_True by lia|].
  all: split; [by intros f ->|].
  all: unfold validate; simpl; f_equal; f_equal.
  all: try (repeat case_decide; done).
  all: try (case_decide as Hl; [by rewrite decide_False|by rewrite decide_False]).
  all: try (case_decide; [by rewrite decide_False|by rewrite decide_False by lia]).
Qed.

End Validate.

Section ResultConverterMore.
Context {codec : Sonic}.

Lemma convertField_ID_source i d g :
  ID (convertField i d g) = ID d ∨
  (ResultField_Name g = "id" ∧ ∃ val, ResultField_Get g i = Ok val).
Proof.
  unfold convertField. destruct (ResultField_Get g i) as [val|]; [|by left].
  case_decide; [right; eauto|]. left. repeat case_match; done.
Qed.

Lemma convertField_Content_source i d g :
  Content (convertField i d g) = Content d ∨
  (ResultField_Name g = defaultContentField ∧ ∃ val, ResultField_Get g i = Ok val).
Proof.
  unfold convertField. destruct (ResultField_Get g i) as [val|]; [|by left].
  case_decide; [left; repeat case_match; done|].
  case_decide; [right; eauto|]. left. repeat case_match; done.
Qed.

Lemma convertField_MetaData_source i d g key :
  key ∈ dom (MetaData (convertField i d g)) →
  key ∈ dom (MetaData d) ∨ writesKey i key g.
Proof.
  unfold convertField. destruct (ResultField_Get g i) as [val|] eqn:Hget; [|by left].
  case_decide; [intros; left; repeat case_match; done|].
  case_decide; [intros; left; repeat case_match; done|].
  case_decide as Hmeta.
  - destruct val; try (by left).
    destruct (sonic_Unmarshal b) as [meta|] eqn:Hun; [|by left]. simpl.
    rewrite dom_union. intros [Hk|Hk]%elem_of_union; [|by left].
    right. right. split; [done|]. eauto.
  - simpl. rewrite dom_insert. intros [Hk|Hk]%elem_of_union; [|by left].
    apply elem_of_singleton in Hk as ->. right. by left.
Qed.

Lemma foldl_convertField_sources i fs : ∀ d,
  let d' := foldl (convertField i) d fs in
  (ID d' = ID d ∨
   ∃ g val, g ∈ fs ∧ ResultField_Name g = "id" ∧ ResultField_Get g i = Ok val) ∧
  (Content d' = Content d ∨
   ∃ g val, g ∈ fs ∧ ResultField_Name g = defaultContentField ∧
            ResultField_Get g i = Ok val) ∧
  (∀ key, key ∈ dom (MetaData d') →
     key ∈ dom (MetaData d) ∨ ∃ g, g ∈ fs ∧ writesKey i key g).
Proof.
  induction fs as [|g fs IH]; intros d; simpl.
  - repeat split; auto.
  - destruct (IH (convertField i d g)) as (HI & HC & HM). simpl in *.
    split; [|split].
    + destruct HI as [HI|(g' & val & ? & ? & ?)];
        [|right; exists g', val; set_solver].
      destruct (convertField_ID_source i d g) as [Heq|(? & val & ?)];
        [left; congruence | right; exists g, val; set_solver].
    + destruct HC as [HC|(g' & val & ? & ? & ?)];
        [|right; exists g', val; set_solver].
      destruct (convertField_Content_source i d g) as [Heq|(? & val & ?)];
        [left; congruence | right; exists g, val; set_solver].
    + intros key Hk. destruct (HM key Hk) as [Hk'|(g' & ? & ?)];
        [|right; exists g'; set_solver].
      destruct (convertField_MetaData_source i d g key Hk') as [?|?];
        [by left | right; exists g; set_solver].
Qed.

(** X17: the retriever's default converter puts nothing into a document
    but the score of the row and what the fields of the row have given.
    A document's [ID] is empty unless a field named [id] has a value for
    the row, its [Content] is empty unless the content field has one, and
    every key of its [MetaData] is the framework's key [_score], for a row
    that has a score, or the name of a field, or a key of the JSON object
    of the metadata field.  A negative [ResultCount] is a failure. *)
Theorem defaultDocumentConverter_sources (res : ResultSet) :
  match defaultDocumentConverter res with
  | Err _ => ResultCount res < 0
  | Ok docs =>
      0 ≤ ResultCount res ∧
      ∀ (i : nat) doc, docs !! i = Some doc →
        (ID doc ≠ "" →
           ∃ g val, g ∈ Fields res ∧ ResultField_Name g = "id" ∧
                    ResultField_Get g (Z.of_nat i) = Ok val) ∧
        (Content doc ≠ "" →
           ∃ g val, g ∈ Fields res ∧ ResultField_Name g = defaultContentField ∧
                    ResultField_Get g (Z.of_nat i) = Ok val) ∧
        (∀ key, key ∈ dom (MetaData doc) →
           (key = docMetaDataKeyScore ∧ (i < length (Scores res))%nat) ∨
           ∃ g, g ∈ Fields res ∧ writesKey (Z.of_nat i) key g)
  end.
Proof.
  unfold defaultDocumentConverter. case_decide as Hc; [done|].
  split; [lia|]. intros i doc Hdoc.
  rewrite list_lookup_fmap in Hdoc.
  destruct (seq 0 (Z.to_nat (ResultCount res)) !! i) as [j|] eqn:Hseq;
    [|discriminate].
  apply lookup_seq in Hseq as [-> _]. simpl in Hdoc. injection Hdoc as <-.
  unfold convertRow.
  set (d0 := match Scores res !! i with
             | Some score => WithScore (to_float64 score) (mkDocument "" "" ∅)
             | None => mkDocument "" "" ∅
             end).
  assert (Hd0 : ID d0 = "" ∧ Content d0 = "" ∧
                ∀ key, key ∈ dom (MetaData d0) →
                  key = docMetaDataKeyScore ∧ (i < length (Scores res))%nat).
  { subst d0. destruct (Scores res !! i) as [score|] eqn:Hscore; simpl.
    - split; [done|]. split; [done|]. intros key Hk.
      rewrite dom_insert, dom_empty in Hk. split; [set_solver|].
      by eapply lookup_lt_Some.
    - split; [done|]. split; [done|]. intros key Hk. set_solver. }
  destruct Hd0 as (HI0 & HC0 & HM0).
  destruct (foldl_convertField_sources (Z.of_nat i) (Fields res) d0)
    as (HI & HC & HM).
  split; [|split].
  - intros Hne. destruct HI as [HI|?]; [congruence|done].
  - intros Hne. destruct HC as [HC|?]; [congruence|done].
  - intros key Hk. destruct (HM key Hk) as [Hk'|?]; [left; by apply HM0 | by right].
Qed.

(** X18: what the indexer's default converter writes, the retriever's
    default converter reads.  When a result set has one row per stored
    document and its fields give back the [id], [content] and [metadata]
    columns of the upsert, and the codec decodes what it has encoded, the
    documents converted from the result set have the [ID] and the
    [Content] of the stored ones, in order, and their [MetaData]; for a
    row with a score the [MetaData] has the score in addition, under the
    key [_score], unless the stored [MetaData] has that key, whose stored
    value then stays. *)
Theorem stored_documents_come_back (vector : option Milvus2Indexer.VectorConfig)
    (sparse : option Milvus2Indexer.SparseVectorConfig) (docs : list Document)
    (vectors : list (list float64)) (columns : list Column) (res : ResultSet) :
  Milvus2Indexer.defaultDocumentConverter vector sparse docs vectors = Ok columns →
  (∀ doc b, doc ∈ docs → sonic_Marshal (MetaData doc) = Ok b →
            sonic_Unmarshal b = Ok (MetaData doc)) →
  ResultCount res = Z.of_nat (length docs) →
  Forall2 readsBack (take 3 columns) (Fields res) →
  ∃ docs', defaultDocumentConverter res = Ok docs' ∧
    length docs' = length docs ∧
    ∀ i doc doc', docs !! i = Some doc → docs' !! i = Some doc' →
      ID doc' = ID doc ∧ Content doc' = Content doc ∧
      MetaData doc' =
        match Scores res !! i with
        | Some score =>
            MetaData doc ∪ {[docMetaDataKeyScore := AnyFloat (to_float64 score)]}
        | None => MetaData doc
        end.
Proof.
  intros Hconv Hcodec Hcount Hread.
  destruct (IndexerExtras.defaultDocumentConverter_scalar_columns _ _ _ _ _ Hconv)
    as (mds & Hcols & Hmds).
  rewrite Hcols in Hread.
  apply Forall2_cons_inv_l in Hread as (fid & fs1 & [Hnid Hgid] & Hread & Hfields).
  apply Forall2_cons_inv_l in Hread as (fc & fs2 & [Hnc Hgc] & Hread & ->).
  apply Forall2_cons_inv_l in Hread as (fm & fs3 & [Hnm Hgm] & Hread & ->).
  apply Forall2_nil_inv_l in Hread as ->.
  unfold defaultDocumentConverter. rewrite decide_False by lia.
  eexists. split; [done|].
  split; [by rewrite length_fmap, length_seq, Hcount, Nat2Z.id|].
  intros i doc doc' Hdoc Hdoc'.
  rewrite list_lookup_fmap in Hdoc'.
  destruct (seq 0 (Z.to_nat (ResultCount res)) !! i) as [j|] eqn:Hseq;
    [|discriminate].
  apply lookup_seq in Hseq as [-> _]. simpl in Hdoc'. injection Hdoc' as <-.
  destruct (Forall2_lookup_l _ _ _ _ _ Hmds Hdoc) as (md & Hmd & Hmar).
  assert (Hun : sonic_Unmarshal md = Ok (MetaData doc)).
  { apply Hcodec; [|done]. by eapply list_elem_of_lookup_2. }
  specialize (Hgid i (ID doc)). specialize (Hgc i (Content doc)).
  specialize (Hgm i md Hmd).
  rewrite list_lookup_fmap, Hdoc in Hgid, Hgc. simpl in Hgid, Hgc.
  specialize (Hgid eq_refl). specialize (Hgc eq_refl).
  unfold convertRow. rewrite Hfields.
  set (d0 := match Scores res !! i with
             | Some score => WithScore (to_float64 score) (mkDocument "" "" ∅)
             | None => mkDocument "" "" ∅
             end).
  assert (HM0 : MetaData d0 =
                match Scores res !! i with
                | Some score => {[docMetaDataKeyScore := AnyFloat (to_float64 score)]}
                | None => ∅
                end).
  { subst d0. destruct (Scores res !! i); [|done]. simpl. apply insert_empty. }
  simpl. unfold convertField.
  rewrite Hgid, Hnid. rewrite decide_True by done.
  rewrite Hgc, Hnc. rewrite decide_False by done. rewrite decide_True by done.
  rewrite Hgm, Hnm. rewrite decide_False by done. rewrite decide_False by done.
  rewrite decide_True by done. rewrite Hun. simpl.
  split; [done|]. split; [done|]. rewrite HM0.
  destruct (Scores res !! i); [done|]. apply map_union_empty.
Qed.

End ResultConverterMore.

Lemma stored_documents_come_back_witness :
  ∃ docs',
    defaultDocumentConverter (codec := exampleSonic)
      (mkResultSet 2 [S754_finite false 3 (-2)]
         [ varCharColumn "id" ["a"; "b"];
           varCharColumn "content" ["alpha"; "beta"];
           jsonColumn "metadata" [[]; []] ]) = Ok docs' ∧
    ID <$> docs' = ["a"; "b"] ∧ Content <$> docs' = ["alpha"; "beta"] ∧
    MetaData <$> docs' =
      [ {[docMetaDataKeyScore := AnyFloat (to_float64 (S754_finite false 3 (-2)))]}; ∅ ].
Proof.
  destruct (stored_documents_come_back (codec := exampleSonic) None
              (Some IndexerExamples.precomputedSparse) IndexerExamples.plainDocs []
              [ NewColumnVarChar defaultIDField ["a"; "b"];
                NewColumnVarChar defaultContentField ["alpha"; "beta"];
                NewColumnJSONBytes defaultMetadataField [[]; []];
                NewColumnSparseVectors defaultSparseVectorField
                  [ mkSparseEmbedding [] []; mkSparseEmbedding [] [] ] ]
              (mkResultSet 2 [S754_finite false 3 (-2)]
                 [ varCharColumn "id" ["a"; "b"];
                   varCharColumn "content" ["alpha"; "beta"];
                   jsonColumn "metadata" [[]; []] ]))
    as (docs' & Hdocs & Hlen & Hsame).
  - vm_compute. reflexivity.
  - intros doc b Hdoc _. simpl.
    unfold IndexerExamples.plainDocs in Hdoc.
    apply elem_of_cons in Hdoc as [->|Hdoc]; [reflexivity|].
    apply list_elem_of_singleton in Hdoc as ->. reflexivity.
  - reflexivity.
  - simpl. repeat constructor; simpl;
      intros [|[|i]] s Hs; simpl in Hs; try discriminate; by injection Hs as <-.
  - exists docs'. split; [exact Hdocs|].
    destruct docs' as [|d1 [|d2 [|d3 docs']]]; try discriminate Hlen.
    destruct (Hsame 0%nat _ d1 eq_refl eq_refl) as (Hi1 & Hc1 & Hm1).
    destruct (Hsame 1%nat _ d2 eq_refl eq_refl) as (Hi2 & Hc2 & Hm2).
    simpl in Hm1, Hm2. simpl. rewrite Hi1, Hi2, Hc1, Hc2, Hm1, Hm2.
    split; [reflexivity|]. split; [reflexivity|].
    by rewrite (left_id_L ∅ (∪)).
Defined.

End RetrieverExtras.

(** * Further properties of the search modes *)

Module SearchModeExtras.
Import Milvus2Retriever SearchMode SearchModeExamples.

Lemma metricParam_lookup mt params :
  metricParam mt params !! "metric_type" =
    if decide (mt = "") then params !! "metric_type" else Some (ParamString mt).
Proof.
  unfold metricParam. destruct (decide (mt = "")) as [->|Hne].
  - by rewrite decide_False by (intros H; by apply H).
  - rewrite decide_True by done. by rewrite lookup_insert_eq.
Qed.

Lemma metricParam_lookup_ne mt params k :
  k ≠ "metric_type" → metricParam mt params !! k = params !! k.
Proof.
  intros Hk. unfold metricParam. case_decide; [|done].
  by rewrite lookup_insert_ne.
Qed.

(** X19: who decides the [metric_type] search parameter.  In the iterator
    mode a [metric_type] among the mode's [SearchParams] overrides the
    mode's [MetricType]; in a sub-request of the hybrid mode it is the
    other way round: a non-empty [MetricType] overrides the [metric_type]
    of the sub-request's [SearchParams].  The other search parameters pass
    through unchanged in both.  The approximate, range and sparse modes
    send the mode's [MetricType] when it is not empty, and the range mode
    always sends the radius, and the range filter when one is set. *)
Theorem metric_type_precedence (conf : Config) (opts : list Option_) :
  (∀ i qv,
     ∃ opt, Iterator_BuildSearchIteratorOption i conf qv opts = Ok opt ∧
       Iter_Params opt !! "metric_type" =
         match SearchParams i !! "metric_type" with
         | Some s => Some (ParamString s)
         | None => if decide (Iterator_MetricType i = "") then None
                   else Some (ParamString (Iterator_MetricType i))
         end ∧
       ∀ k, k ≠ "metric_type" →
         Iter_Params opt !! k = ParamString <$> (SearchParams i !! k)) ∧
  (∀ io qv query req ann,
     buildAnnRequest conf io qv query req = Ok ann →
     Ann_Params ann !! "metric_type" =
       (if decide (SubRequest_MetricType req = "") then
          ParamString <$> (SubRequest_SearchParams req !! "metric_type")
        else Some (ParamString (SubRequest_MetricType req))) ∧
     ∀ k, k ≠ "metric_type" →
       Ann_Params ann !! k = ParamString <$> (SubRequest_SearchParams req !! k)) ∧
  (∀ a qv,
     Search_Params <$> Approximate_BuildSearchOption a conf qv opts =
       Ok (if decide (Approximate_MetricType a = "") then ∅
           else {["metric_type" := ParamString (Approximate_MetricType a)]})) ∧
  (∀ s q,
     Search_Params <$> Sparse_BuildSparseSearchOption s conf q opts =
       Ok (if decide (Sparse_MetricType s = "") then ∅
           else {["metric_type" := ParamString (Sparse_MetricType s)]})) ∧
  (∀ r qv,
     ∃ opt, Range_BuildSearchOption r conf qv opts = Ok opt ∧
       Search_Params opt !! "radius" = Some (ParamFloat (Radius r)) ∧
       Search_Params opt !! "range_filter" = ParamFloat <$> RangeFilter r ∧
       Search_Params opt !! "metric_type" =
         (if decide (Range_MetricType r = "") then None
          else Some (ParamString (Range_MetricType r)))).
Proof.
  split; [|split; [|split; [|split]]].
  - intros i qv. eexists. split; [reflexivity|]. simpl. split.
    + rewrite lookup_union, lookup_fmap, metricParam_lookup.
      destruct (SearchParams i !! "metric_type") as [s|]; simpl.
      * by destruct (if decide _ then _ else _).
      * rewrite lookup_empty. by case_decide.
    + intros k Hk.
      rewrite lookup_union, lookup_fmap, metricParam_lookup_ne, lookup_empty by done.
      by destruct (SearchParams i !! k).
  - intros io qv query req ann Hann. unfold buildAnnRequest in Hann.
    assert (Hparams : Ann_Params ann =
              metricParam (SubRequest_MetricType req)
                          (ParamString <$> SubRequest_SearchParams req)).
    { destruct (decide (SubRequest_VectorType req = SparseVector));
        [|destruct (decide (length qv = 0%nat)); [discriminate|]];
        simpl in Hann; by injection Hann as <-. }
    rewrite Hparams. split.
    + by rewrite metricParam_lookup, lookup_fmap.
    + intros k Hk. by rewrite metricParam_lookup_ne, lookup_fmap.
  - intros a qv. simpl. unfold metricParam. f_equal.
    destruct (decide (Approximate_MetricType a = "")) as [->|Hne].
    + by rewrite decide_False by (intros H; by apply H).
    + by rewrite decide_True.
  - intros s q. simpl. unfold metricParam. f_equal.
    destruct (decide (Sparse_MetricType s = "")) as [->|Hne].
    + by rewrite decide_False by (intros H; by apply H).
    + by rewrite decide_True.
  - intros r qv. eexists. split; [reflexivity|]. simpl.
    destruct (RangeFilter r) as [f|]; simpl.
    + rewrite lookup_insert_ne by done. rewrite lookup_insert_eq.
      rewrite metricParam_lookup_ne by done. rewrite lookup_singleton_eq.
      split; [done|]. split; [done|].
      rewrite lookup_insert_ne by done. rewrite metricParam_lookup.
      rewrite lookup_singleton_ne by done. done.
    + rewrite metricParam_lookup_ne by done. rewrite lookup_singleton_eq.
      split; [done|]. rewrite metricParam_lookup_ne by done.
      rewrite lookup_singleton_ne by done. split; [done|].
      rewrite metricParam_lookup. by rewrite lookup_singleton_ne.
Qed.

Lemma buildAnnRequests_Forall2 conf io qv query reqs : ∀ anns,
  buildAnnRequests conf io qv query reqs = Ok anns →
  Forall2 (λ req ann, buildAnnRequest conf io qv query req = Ok ann) reqs anns.
Proof.
  induction reqs as [|req reqs IH]; intros anns Hb.
  - injection Hb as <-. constructor.
  - simpl in Hb.
    destruct (buildAnnRequest conf io qv query req) as [ann|] eqn:Hann;
      [|discriminate].
    simpl in Hb.
    destruct (buildAnnRequests conf io qv query reqs) as [anns'|]; [|discriminate].
    simpl in Hb. injection Hb as <-. constructor; [done|by apply IH].
Qed.

(** X20: the request that the hybrid mode builds.  It has one sub-search
    per [SubRequest], in order; a sub-search goes to the sub-request's
    field, or without one to the configured sparse field for a sparse
    sub-request and to the configured dense field otherwise; its limit is
    the sub-request's [TopK] when that is positive and the configured
    [TopK] otherwise, whatever [WithTopK] the call gives; a sparse
    sub-search carries the query text, a dense one the query vector, which
    is then not empty; and every sub-search carries the filter and the
    grouping of the call.  The collection, the reranker, the output fields
    and the partitions are the configured ones. *)
Theorem Hybrid_requests (h : Hybrid) (conf : Config) (qv : list float32)
    (query : string) (opts : list Option_) (opt : HybridSearchOption) :
  Hybrid_BuildHybridSearchOption h conf qv query opts = Ok opt →
  let io := GetImplSpecificOptions (mkImplOptions "" None) opts in
  (2 ≤ length (SubRequests h))%nat ∧
  Hybrid_Collection opt = Collection conf ∧
  Hybrid_Reranker opt = Hybrid_Reranker_ h ∧
  Hybrid_OutputFields opt = OutputFields conf ∧
  Hybrid_Partitions opt = Partitions conf ∧
  Forall2
    (λ req ann,
       Ann_Field ann =
         (if decide (SubRequest_VectorField req = "") then
            match SubRequest_VectorType req with
            | SparseVector => SparseVectorField conf
            | DenseVector => VectorField conf
            end
          else SubRequest_VectorField req) ∧
       Ann_Limit ann =
         (if decide (0 < SubRequest_TopK req) then SubRequest_TopK req
          else TopK conf) ∧
       Ann_Vector ann =
         match SubRequest_VectorType req with
         | SparseVector => Text query
         | DenseVector => FloatVector qv
         end ∧
       (SubRequest_VectorType req = DenseVector → qv ≠ []) ∧
       Ann_Filter ann = Filter io ∧
       Ann_Grouping ann = groupingOf (Grouping io))
    (SubRequests h) (Hybrid_Requests opt).
Proof.
  intros Hb io. unfold Hybrid_BuildHybridSearchOption in Hb.
  case_decide as Hlen; [discriminate|].
  destruct (buildAnnRequests conf _ qv query (SubRequests h)) as [anns|] eqn:Hanns;
    [|discriminate].
  simpl in Hb. injection Hb as <-. simpl.
  split; [lia|]. do 4 (split; [done|]).
  apply buildAnnRequests_Forall2 in Hanns.
  eapply Forall2_impl; [exact Hanns|].
  intros req ann Hann. unfold buildAnnRequest in Hann. fold io in Hann.
  destruct (SubRequest_VectorType req) eqn:Hty.
  - rewrite !(decide_False (P := DenseVector = SparseVector)) in Hann by done.
    destruct (decide (length qv = 0%nat)) as [|Hne]; [discriminate|].
    simpl in Hann. injection Hann as <-. simpl.
    split; [done|]. split; [repeat case_decide; (done || lia)|].
    split; [done|]. split; [by intros _ ->|]. done.
  - rewrite !(decide_True (P := SparseVector = SparseVector)) in Hann by done.
    simpl in Hann. injection Hann as <-. simpl.
    split; [done|]. split; [repeat case_decide; (done || lia)|].
    split; [done|]. split; [discriminate|]. done.
Qed.

Lemma Hybrid_requests_witness :
  ∃ opt,
    Hybrid_BuildHybridSearchOption hybridTop50 conf10 queryVector3 "" [WithTopK 3]
      = Ok opt ∧
    Ann_Limit <$> Hybrid_Requests opt = [10; 5] ∧
    Ann_Field <$> Hybrid_Requests opt = ["vector"; "vector2"].
Proof.
  destruct (Hybrid_BuildHybridSearchOption hybridTop50 conf10 queryVector3 ""
              [WithTopK 3]) as [opt|e] eqn:Hb; [|vm_compute in Hb; discriminate].
  exists opt. split; [reflexivity|].
  destruct (Hybrid_requests _ _ _ _ _ _ Hb) as (_ & _ & _ & _ & _ & Hreqs).
  simpl in Hreqs.
  apply Forall2_cons_inv_l in Hreqs as (a1 & l1 & (Hf1 & Hl1 & _) & Hreqs & ->).
  apply Forall2_cons_inv_l in Hreqs as (a2 & l2 & (Hf2 & Hl2 & _) & Hreqs & ->).
  apply Forall2_nil_inv_l in Hreqs as ->.
  simpl. rewrite Hf1, Hl1, Hf2, Hl2. split; reflexivity.
Defined.

Section RetrieveMore.
Context {W : Type} {M : MilvusSearch W}.

(** X21: which modes need an embedder.  The approximate, range, hybrid and
    iterator modes fail without calling the backend when the configuration
    has no embedder, and when the embedding of the query fails; the hybrid
    mode does so even when all its sub-requests are sparse.  The sparse
    and scalar modes do not look at the embedder. *)
Theorem modes_and_embedder (m : Mode) (cli : Client) (conf : Config)
    (query : string) (opts : list Option_) (w : W) :
  (embedsQuery m = true →
     (Embedding conf = None →
        ∃ e, Retrieve m cli conf query opts w = (Err e, w)) ∧
     (∀ e, Embedding conf ≠ None → EmbedQuery (Embedding conf) query = Err e →
        Retrieve m cli conf query opts w = (Err e, w))) ∧
  (embedsQuery m = false →
     ∀ emb, Retrieve m cli (with_Embedding emb conf) query opts w
            = Retrieve m cli conf query opts w).
Proof.
  split.
  - intros Hm. split.
    + intros Hnone.
      destruct m; try discriminate; simpl;
        unfold Approximate_Retrieve, Range_Retrieve, Hybrid_Retrieve, Iterator_Retrieve;
        rewrite Hnone; simpl; eauto.
    + intros e Hsome Herr.
      destruct m; try discriminate; simpl;
        unfold Approximate_Retrieve, Range_Retrieve, Hybrid_Retrieve, Iterator_Retrieve;
        (destruct (Embedding conf) as [emb|] eqn:Hemb; [|done]); cbn [isNil];
        unfold mbind, IO_bind, liftResult; rewrite Herr; done.
  - intros Hm emb. destruct m; try discriminate; reflexivity.
Qed.

(** X22: the modes that search once return the documents of the first
    result set the backend returns and ignore the others; an empty list
    of result sets gives no documents; and a failure of the search is the
    failure of the retrieval.  The scalar mode converts the one result set
    of its query. *)
Theorem Retrieve_first_result_set (cli : Client) (conf : Config)
    (query : string) (opts : list Option_) (w w' : W) :
  (∀ a qv opt r,
     EmbedQuery (Embedding conf) query = Ok qv →
     Approximate_BuildSearchOption a conf qv opts = Ok opt →
     Search cli opt w = (r, w') →
     Approximate_Retrieve a cli conf query opts w =
       (results ← wrapErr "failed to search" r; firstResultSet conf results, w')) ∧
  (∀ rg qv opt r,
     EmbedQuery (Embedding conf) query = Ok qv →
     Range_BuildSearchOption rg conf qv opts = Ok opt →
     Search cli opt w = (r, w') →
     Range_Retrieve rg cli conf query opts w =
       (results ← wrapErr "failed to search" r; firstResultSet conf results, w')) ∧
  (∀ s opt r,
     Sparse_BuildSparseSearchOption s conf query opts = Ok opt →
     Search cli opt w = (r, w') →
     Sparse_Retrieve s cli conf query opts w =
       (results ← wrapErr "failed to search" r; firstResultSet conf results, w')) ∧
  (∀ h qv opt r,
     EmbedQuery (Embedding conf) query = Ok qv →
     Hybrid_BuildHybridSearchOption h conf qv query opts = Ok opt →
     HybridSearch cli opt w = (r, w') →
     Hybrid_Retrieve h cli conf query opts w =
       (results ← wrapErr "failed to hybrid search" r;
        firstResultSet conf results, w')) ∧
  (∀ s opt r,
     Scalar_BuildQueryOption s conf query opts = Ok opt →
     Query cli opt w = (r, w') →
     Scalar_Retrieve s cli conf query opts w =
       (res ← wrapErr "failed to query" r; callDocumentConverter conf res, w')).
Proof.
  assert (Hemb : ∀ qv, EmbedQuery (Embedding conf) query = Ok qv →
                       isNil (Embedding conf) = false).
  { intros qv Hq. by destruct (Embedding conf). }
  assert (Hfirst : ∀ results w0,
            convertFirst (W := W) conf results w0 = (firstResultSet conf results, w0)).
  { intros [|r0 results] w0; reflexivity. }
  split; [|split; [|split; [|split]]].
  - intros a qv opt r Hq Hopt Hs. unfold Approximate_Retrieve.
    rewrite (Hemb _ Hq). unfold mbind at 1 2 3, IO_bind, liftResult, wrapIO.
    rewrite Hq, Hopt. simpl. rewrite Hs.
    destruct r as [results|e]; simpl; [apply Hfirst|by destruct e].
  - intros rg qv opt r Hq Hopt Hs. unfold Range_Retrieve.
    rewrite (Hemb _ Hq). unfold mbind at 1 2 3, IO_bind, liftResult, wrapIO.
    rewrite Hq, Hopt. simpl. rewrite Hs.
    destruct r as [results|e]; simpl; [apply Hfirst|by destruct e].
  - intros s opt r Hopt Hs. unfold Sparse_Retrieve.
    unfold mbind at 1 2, IO_bind, liftResult, wrapIO.
    rewrite Hopt. simpl. rewrite Hs.
    destruct r as [results|e]; simpl; [apply Hfirst|by destruct e].
  - intros h qv opt r Hq Hopt Hs. unfold Hybrid_Retrieve.
    rewrite (Hemb _ Hq). unfold mbind at 1 2 3, IO_bind, liftResult, wrapIO.
    rewrite Hq, Hopt. simpl. rewrite Hs.
    destruct r as [results|e]; simpl; [apply Hfirst|by destruct e].
  - intros s opt r Hopt Hs. unfold Scalar_Retrieve.
    unfold mbind at 1 2, IO_bind, liftResult, wrapIO.
    rewrite Hopt. simpl. rewrite Hs.
    destruct r as [res|e]; simpl; [done|by destruct e].
Qed.

End RetrieveMore.

End SearchModeExtras.
